(** * PolyVox: cubic surface extraction and mesh decimation

    A shallow embedding of [CubicSurfaceExtractor.inl] and
    [MeshDecimator.inl] together with the properties that the design
    document states about them.  The later parts cover what the
    document leaves out: the decoding of the vertices, the decimator for
    vertices with normals and flags, and the Ogre front end
    ([IntegralVector3.h], [Surface.cpp]), each with properties read off
    the code.

    Conventions.
    - C++ integers are [Z]; every narrowing cast the source performs is
      written out ([uint8], [uint32]).
    - The extractor threads a mesh, two slice buffers and the quad lists
      through the sweep and may throw: this is an exception/state monad
      [M].
    - The decimator works on [float] positions; they are idealised as
      exact rationals ([Q]).  Its passes count with [int]: where a
      counter cannot reach its bound the pass has no result.
    - Ogre's [Real]s are rationals; where the code computes with them
      the rounding of the format is applied after every operation. *)

From Stdlib Require Import ZArith QArith Qabs Qround Lia Lqa.
From stdpp Require Import base decidable option numbers list gmap.

Close Scope Q_scope.

(** ** Exceptions and the exception/state monad *)

(** [std::invalid_argument] thrown by the region-size check and
    [std::runtime_error] thrown by [addVertex]. *)
Inductive Error : Type :=
| RegionTooLargeToEncode
| VertexSlotExhausted.

Inductive Result (St A : Type) : Type :=
| Ok (a : A) (s : St)
| Throw (e : Error) (s : St).
Arguments Ok {St A} a s.
Arguments Throw {St A} e s.

Definition M (St A : Type) : Type := St -> Result St A.

Definition ret {St A} (a : A) : M St A := fun s => Ok a s.

Definition bind {St A B} (m : M St A) (k : A -> M St B) : M St B :=
  fun s => match m s with
           | Ok a s' => k a s'
           | Throw e s' => Throw e s'
           end.

Definition throw {St A} (e : Error) : M St A := fun s => Throw e s.
Definition modify {St} (f : St -> St) : M St unit := fun s => Ok tt (f s).

Declare Scope cpp_scope.
Delimit Scope cpp_scope with cpp.
Notation "x <- m ;; k" := (bind m (fun x => k))
  (at level 100, m at next level, k at level 200, right associativity) : cpp_scope.
Notation "m ;; k" := (bind m (fun _ => k))
  (at level 100, k at level 200, right associativity) : cpp_scope.

(** [for (x : xs) { body(x) }] *)
Fixpoint forEach {St A} (xs : list A) (body : A -> M St unit) : M St unit :=
  match xs with
  | [] => ret tt
  | x :: xs' => bind (body x) (fun _ => forEach xs' body)
  end.

(** Final state of a run, whatever its outcome. *)
Definition finalState {St A} (r : Result St A) : St :=
  match r with Ok _ s => s | Throw _ s => s end.

Definition uint8 (z : Z) : Z := z mod 256.
Definition uint32 (z : Z) : Z := z mod 2 ^ 32.

(** Modelled from the spec: [Region] (Region.h is not part of the
    sources), a closed integer box; its size in voxels along an axis is
    [upper - lower + 1]. *)
Record Region : Type := mkRegion {
  getLowerX : Z; getLowerY : Z; getLowerZ : Z;
  getUpperX : Z; getUpperY : Z; getUpperZ : Z
}.

Definition getWidthInVoxels (r : Region) : Z := (getUpperX r - getLowerX r + 1)%Z.
Definition getHeightInVoxels (r : Region) : Z := (getUpperY r - getLowerY r + 1)%Z.
Definition getDepthInVoxels (r : Region) : Z := (getUpperZ r - getLowerZ r + 1)%Z.
Definition getLowerCorner (r : Region) : Z * Z * Z :=
  (getLowerX r, getLowerY r, getLowerZ r).

Module Cubic.
Local Open Scope Z_scope.
Local Open Scope cpp_scope.

(** [const uint32_t MaxVerticesPerPosition = 8;] *)
Definition MaxVerticesPerPosition : nat := 8.

Inductive FaceNames : Type :=
| PositiveX | PositiveY | PositiveZ | NegativeX | NegativeY | NegativeZ.

#[global] Instance FaceNames_eq_dec : EqDecision FaceNames.
Proof. solve_decision. Defined.

(** The order of the enumeration, as the final loop over [uFace] visits it. *)
Definition allFaces : list FaceNames :=
  [PositiveX; PositiveY; PositiveZ; NegativeX; NegativeY; NegativeZ].

(** [struct Quad { uint32_t vertices[4]; }] *)
Record Quad : Type := mkQuad { vert0 : Z; vert1 : Z; vert2 : Z; vert3 : Z }.

#[global] Instance Quad_eq_dec : EqDecision Quad.
Proof. solve_decision. Defined.

(** [vertexAmbientOcclusion]: the arithmetic is done in [int] and the
    result narrowed to [uint8_t]. *)
Definition vertexAmbientOcclusion (side1 side2 corner : bool) : Z :=
  if side1 && side2 then 0
  else uint8 (3 - (Z.b2z side1 + Z.b2z side2 + Z.b2z corner)).

Section Extractor.
Context {V : Type} `{EqDecision V} `{Inhabited V}.

(** [CubicVertex<V>]: encoded position (three [uint8_t]), voxel data
    and ambient occlusion. *)
Record CubicVertex : Type := mkCubicVertex {
  encodedPosition : Z * Z * Z;
  data : V;
  ambientOcclusion : Z
}.

#[global] Instance CubicVertex_inhabited : Inhabited CubicVertex :=
  populate (mkCubicVertex (0, 0, 0) inhabitant 0).

(** Modelled from the spec: the [Mesh] container (its implementation,
    Mesh.inl, is not part of the sources): an ordered sequence of
    vertices, an ordered sequence of triangle indices and an offset. *)
Record Mesh : Type := mkMesh {
  m_vecVertices : list CubicVertex;
  m_vecIndices : list Z;
  m_offset : Z * Z * Z
}.

(** Modelled from the spec: [Mesh::getVertex], [addVertex] (append,
    returning the index of the new vertex), [addTriangle] (append three
    indices), [clear] and [setOffset]. *)
Definition getVertex (m : Mesh) (i : Z) : CubicVertex :=
  m_vecVertices m !!! Z.to_nat i.

Definition meshAddVertex (m : Mesh) (v : CubicVertex) : Z * Mesh :=
  (Z.of_nat (length (m_vecVertices m)),
   mkMesh (m_vecVertices m ++ [v]) (m_vecIndices m) (m_offset m)).

Definition addTriangle (m : Mesh) (i0 i1 i2 : Z) : Mesh :=
  mkMesh (m_vecVertices m) (m_vecIndices m ++ [i0; i1; i2]) (m_offset m).

Definition clear (m : Mesh) : Mesh := mkMesh [] [] (m_offset m).

Definition setOffset (m : Mesh) (o : Z * Z * Z) : Mesh :=
  mkMesh (m_vecVertices m) (m_vecIndices m) o.

(** Modelled from the spec: [Mesh::removeUnusedVertices] compacts the
    vertex table to the vertices some index refers to, keeping their
    order, and rewrites every index to the new position of its vertex. *)
Definition isVertexUsed (idx : list Z) (i : nat) : bool :=
  bool_decide (Z.of_nat i ∈ idx).

Definition usedPositions (idx : list Z) (n : nat) : list nat :=
  filter (fun i => isVertexUsed idx i = true) (seq 0 n).

Definition newPos (idx : list Z) (i : Z) : Z :=
  Z.of_nat (length (usedPositions idx (Z.to_nat i))).

Definition removeUnusedVertices (m : Mesh) : Mesh :=
  let vs := m_vecVertices m in
  let idx := m_vecIndices m in
  mkMesh (omap (fun i => vs !! i) (usedPositions idx (length vs)))
         (map (newPos idx) idx)
         (m_offset m).

(** *** Quad merging *)

Definition isSameVertex (a b : CubicVertex) : bool :=
  bool_decide (data a = data b)
  && (ambientOcclusion a =? ambientOcclusion b).

(** [mergeQuads(q1, q2, mesh)]: returns the flag and the (possibly
    rewritten) first quad; the second quad is never written. *)
Definition mergeQuads (q1 q2 : Quad) (m_meshCurrent : Mesh) : bool * Quad :=
  let v11 := getVertex m_meshCurrent (vert0 q1) in
  let v21 := getVertex m_meshCurrent (vert0 q2) in
  let v12 := getVertex m_meshCurrent (vert1 q1) in
  let v22 := getVertex m_meshCurrent (vert1 q2) in
  let v13 := getVertex m_meshCurrent (vert2 q1) in
  let v23 := getVertex m_meshCurrent (vert2 q2) in
  let v14 := getVertex m_meshCurrent (vert3 q1) in
  let v24 := getVertex m_meshCurrent (vert3 q2) in
  if isSameVertex v11 v21 && isSameVertex v12 v22
     && isSameVertex v13 v23 && isSameVertex v14 v24
  then
    if (vert0 q1 =? vert1 q2) && (vert3 q1 =? vert2 q2) then
      (true, mkQuad (vert0 q2) (vert1 q1) (vert2 q1) (vert3 q2))
    else if (vert3 q1 =? vert0 q2) && (vert2 q1 =? vert1 q2) then
      (true, mkQuad (vert0 q1) (vert1 q1) (vert2 q2) (vert3 q2))
    else if (vert1 q1 =? vert0 q2) && (vert2 q1 =? vert3 q2) then
      (true, mkQuad (vert0 q1) (vert1 q2) (vert2 q2) (vert3 q1))
    else if (vert0 q1 =? vert3 q2) && (vert1 q1 =? vert2 q2) then
      (true, mkQuad (vert0 q2) (vert1 q2) (vert2 q1) (vert3 q1))
    else (false, q1)
  else (false, q1).

(** The inner [while] of [performQuadMerging]: [q1] is the quad under
    [outerIter], [rest] the quads from [innerIter] to the end.  A merged
    [q2] is erased, any other is kept in place. *)
Fixpoint mergeInner (q1 : Quad) (rest : list Quad) (m : Mesh)
  : Quad * list Quad * bool :=
  match rest with
  | [] => (q1, [], false)
  | q2 :: tl =>
      let '(result, q1') := mergeQuads q1 q2 m in
      if result then
        let '(q1'', tl', _) := mergeInner q1' tl m in (q1'', tl', true)
      else
        let '(q1'', tl', b) := mergeInner q1 tl m in (q1'', q2 :: tl', b)
  end.

(** The outer [for] of [performQuadMerging]; [fuel] bounds the number of
    outer iterations, the length of the list always suffices. *)
Fixpoint mergeOuter (fuel : nat) (quads : list Quad) (m : Mesh)
  : list Quad * bool :=
  match fuel, quads with
  | S fuel', q1 :: rest =>
      let '(q1', rest', b) := mergeInner q1 rest m in
      let '(rest'', b') := mergeOuter fuel' rest' m in
      (q1' :: rest'', b || b')
  | _, _ => (quads, false)
  end.

Definition performQuadMerging (quads : list Quad) (m : Mesh)
  : list Quad * bool :=
  mergeOuter (length quads) quads m.

(** [while (performQuadMerging(listQuads, result)) {}] *)
Fixpoint mergeUntilStable (fuel : nat) (quads : list Quad) (m : Mesh)
  : list Quad :=
  match fuel with
  | O => quads
  | S fuel' =>
      let '(quads', bDidMerge) := performQuadMerging quads m in
      if bDidMerge then mergeUntilStable fuel' quads' m else quads'
  end.

(** *** Vertex deduplication *)

(** [struct IndexAndMaterial] *)
Record IndexAndMaterial : Type := mkIndexAndMaterial {
  iIndex : Z;
  uMaterial : V;
  entryAmbientOcclusion : Z
}.

(** Modelled from the spec: [Array<3, IndexAndMaterial>] (Array.h is not
    part of the sources), a three-dimensional table addressed by
    (relative x, relative y, slot). *)
Definition Array3 : Type := Z -> Z -> Z -> IndexAndMaterial.

Definition arraySet (a : Array3) (x y ct : Z) (e : IndexAndMaterial) : Array3 :=
  fun x' y' ct' =>
    if bool_decide (x' = x /\ y' = y /\ ct' = ct) then e else a x' y' ct'.

(** The body of the [for] loop of [addVertex], from slot [ct] on, with
    [n] iterations left.  The state is the pair of the two objects the
    C++ function receives by reference. *)
Fixpoint addVertexFrom (n : nat) (ct : Z) (uX uY uZ : Z) (uMaterialIn : V)
    (ao : Z) : M (Array3 * Mesh) Z :=
  match n with
  | O => throw VertexSlotExhausted
  | S n' =>
      fun '(existingVertices, m_meshCurrent) =>
        let rEntry := existingVertices uX uY ct in
        if iIndex rEntry =? -1 then
          let cubicVertex :=
            mkCubicVertex (uint8 uX, uint8 uY, uint8 uZ) uMaterialIn ao in
          let '(idx, mesh') := meshAddVertex m_meshCurrent cubicVertex in
          Ok idx (arraySet existingVertices uX uY ct
                    (mkIndexAndMaterial idx uMaterialIn ao), mesh')
        else if bool_decide (uMaterial rEntry = uMaterialIn)
                && (entryAmbientOcclusion rEntry =? ao) then
          Ok (iIndex rEntry) (existingVertices, m_meshCurrent)
        else
          addVertexFrom n' (ct + 1) uX uY uZ uMaterialIn ao
            (existingVertices, m_meshCurrent)
  end.

Definition addVertex (uX uY uZ : Z) (uMaterialIn : V)
    (face1 face2 corner : V) (contributeToAO : V -> bool)
  : M (Array3 * Mesh) Z :=
  let ambientOcclusion :=
    vertexAmbientOcclusion (contributeToAO face1) (contributeToAO face2)
                           (contributeToAO corner) in
  addVertexFrom MaxVerticesPerPosition 0 uX uY uZ uMaterialIn ambientOcclusion.

(** *** The extractor *)

(** The locals of [extractCubicMeshCustom] that the sweep updates. *)
Record ExtractorState : Type := mkState {
  result : Mesh;
  m_previousSliceVertices : Array3;
  m_currentSliceVertices : Array3;
  m_vecQuads : FaceNames -> list (list Quad)
}.

(** Which of the two slice buffers a call of [addVertex] receives. *)
Inductive SliceRef : Type := PreviousSlice | CurrentSlice.

Definition getSlice (sel : SliceRef) (st : ExtractorState) : Array3 :=
  match sel with
  | PreviousSlice => m_previousSliceVertices st
  | CurrentSlice => m_currentSliceVertices st
  end.

Definition putSlice (sel : SliceRef) (a : Array3) (m : Mesh)
    (st : ExtractorState) : ExtractorState :=
  match sel with
  | PreviousSlice =>
      mkState m a (m_currentSliceVertices st) (m_vecQuads st)
  | CurrentSlice =>
      mkState m (m_previousSliceVertices st) a (m_vecQuads st)
  end.

(** [m_vecQuads[face][slice].push_back(q)] *)
Definition pushQuad (face : FaceNames) (slice : Z) (q : Quad)
  : M ExtractorState unit :=
  modify (fun st =>
    mkState (result st) (m_previousSliceVertices st)
            (m_currentSliceVertices st)
            (fun f => if decide (f = face)
                      then alter (fun l => l ++ [q]) (Z.to_nat slice)
                                 (m_vecQuads st f)
                      else m_vecQuads st f)).

Section Sweep.
(** The sampled volume (with its border policy), the caller's two
    predicates and the bit pattern [0xff..] read as a [V]. *)
Variable volData : Z -> Z -> Z -> V.
Variable isQuadNeeded : V -> V -> option V.
Variable contributeToAO : V -> bool.
Variable ffMaterial : V.
Variable region : Region.

(** [memset(raw, 0xff, ...)] *)
Definition clearedSlice : Array3 :=
  fun _ _ _ => mkIndexAndMaterial (-1) ffMaterial 255.

(** A call [addVertex(uX, uY, uZ, material, slice, result, ...)] inside
    the sweep; the [int32_t] it returns initialises a [uint32_t]. *)
Definition addVertexIn (sel : SliceRef) (uX uY uZ : Z) (material : V)
    (face1 face2 corner : V) : M ExtractorState Z :=
  fun st =>
    match addVertex uX uY uZ material face1 face2 corner contributeToAO
                    (getSlice sel st, result st) with
    | Ok i (a, m) => Ok (uint32 i) (putSlice sel a m st)
    | Throw e (a, m) => Throw e (putSlice sel a m st)
    end.

(** [peekVoxel<dx><dy><dz>()] of a sampler standing at [pos]. *)
Definition peekVoxel (pos : Z * Z * Z) (dx dy dz : Z) : V :=
  let '(x, y, z) := pos in volData (x + dx) (y + dy) (z + dz).

(** The body of the innermost loop, for the voxel at [(x, y, z)]. *)
Definition processVoxel (x y z : Z) : M ExtractorState unit :=
  let regX := uint32 (x - getLowerX region) in
  let regY := uint32 (y - getLowerY region) in
  let regZ := uint32 (z - getLowerZ region) in
  let regX1 := uint32 (regX + 1) in
  let regY1 := uint32 (regY + 1) in
  let regZ1 := uint32 (regZ + 1) in
  let here := peekVoxel (x, y, z) in
  let voxelCurrent := here 0 0 0 in
  let voxelLeft := here (-1) 0 0 in
  let voxelBefore := here 0 0 (-1) in
  let voxelLeftBefore := here (-1) 0 (-1) in
  let voxelRightBefore := here 1 0 (-1) in
  let voxelLeftBehind := here (-1) 0 1 in
  let voxelAboveLeft := here (-1) 1 0 in
  let voxelAboveBefore := here 0 1 (-1) in
  let voxelAboveLeftBefore := here (-1) 1 (-1) in
  let voxelAboveRightBefore := here 1 1 (-1) in
  let voxelAboveLeftBehind := here (-1) 1 1 in
  let voxelBelow := here 0 (-1) 0 in
  let voxelBelowLeft := here (-1) (-1) 0 in
  let voxelBelowRight := here 1 (-1) 0 in
  let voxelBelowBefore := here 0 (-1) (-1) in
  let voxelBelowBehind := here 0 (-1) 1 in
  let voxelBelowLeftBefore := here (-1) (-1) (-1) in
  let voxelBelowRightBefore := here 1 (-1) (-1) in
  let voxelBelowLeftBehind := here (-1) (-1) 1 in
  let voxelBelowRightBehind := here 1 (-1) 1 in
  (* X [A] LEFT *)
  match isQuadNeeded voxelCurrent voxelLeft with
  | Some material =>
      v_0_1 <- addVertexIn PreviousSlice regX regY regZ material
                 voxelLeftBefore voxelBelowLeft voxelBelowLeftBefore ;;
      v_1_4 <- addVertexIn CurrentSlice regX regY regZ1 material
                 voxelBelowLeft voxelLeftBehind voxelBelowLeftBehind ;;
      v_2_8 <- addVertexIn CurrentSlice regX regY1 regZ1 material
                 voxelLeftBehind voxelAboveLeft voxelAboveLeftBehind ;;
      v_3_5 <- addVertexIn PreviousSlice regX regY1 regZ material
                 voxelAboveLeft voxelLeftBefore voxelAboveLeftBefore ;;
      pushQuad NegativeX regX (mkQuad v_0_1 v_1_4 v_2_8 v_3_5)
  | None => ret tt
  end ;;
  (* X [B] RIGHT *)
  match isQuadNeeded voxelLeft voxelCurrent with
  | Some material =>
      let moved := peekVoxel (x - 1, y, z) in
      let _voxelRightBefore := moved 1 0 (-1) in
      let _voxelRightBehind := moved 1 0 1 in
      let _voxelAboveRight := moved 1 1 0 in
      let _voxelAboveRightBefore := moved 1 1 (-1) in
      let _voxelAboveRightBehind := moved 1 1 1 in
      let _voxelBelowRight := moved 1 (-1) 0 in
      let _voxelBelowRightBefore := moved 1 (-1) (-1) in
      let _voxelBelowRightBehind := moved 1 (-1) 1 in
      v_0_2 <- addVertexIn PreviousSlice regX regY regZ material
                 _voxelBelowRight _voxelRightBefore _voxelBelowRightBefore ;;
      v_1_3 <- addVertexIn CurrentSlice regX regY regZ1 material
                 _voxelBelowRight _voxelRightBehind _voxelBelowRightBehind ;;
      v_2_7 <- addVertexIn CurrentSlice regX regY1 regZ1 material
                 _voxelAboveRight _voxelRightBehind _voxelAboveRightBehind ;;
      v_3_6 <- addVertexIn PreviousSlice regX regY1 regZ material
                 _voxelAboveRight _voxelRightBefore _voxelAboveRightBefore ;;
      pushQuad PositiveX regX (mkQuad v_0_2 v_3_6 v_2_7 v_1_3)
  | None => ret tt
  end ;;
  (* Y [C] BELOW *)
  match isQuadNeeded voxelCurrent voxelBelow with
  | Some material =>
      v_0_1 <- addVertexIn PreviousSlice regX regY regZ material
                 voxelBelowBefore voxelBelowLeft voxelBelowLeftBefore ;;
      v_1_2 <- addVertexIn PreviousSlice regX1 regY regZ material
                 voxelBelowRight voxelBelowBefore voxelBelowRightBefore ;;
      v_2_3 <- addVertexIn CurrentSlice regX1 regY regZ1 material
                 voxelBelowBehind voxelBelowRight voxelBelowRightBehind ;;
      v_3_4 <- addVertexIn CurrentSlice regX regY regZ1 material
                 voxelBelowLeft voxelBelowBehind voxelBelowLeftBehind ;;
      pushQuad NegativeY regY (mkQuad v_0_1 v_1_2 v_2_3 v_3_4)
  | None => ret tt
  end ;;
  (* Y [D] ABOVE *)
  match isQuadNeeded voxelBelow voxelCurrent with
  | Some material =>
      let moved := peekVoxel (x, y - 1, z) in
      let _voxelAboveLeft := moved (-1) 1 0 in
      let _voxelAboveRight := moved 1 1 0 in
      let _voxelAboveBefore := moved 0 1 (-1) in
      let _voxelAboveBehind := moved 0 1 1 in
      let _voxelAboveLeftBefore := moved (-1) 1 (-1) in
      let _voxelAboveRightBefore := moved 1 1 (-1) in
      let _voxelAboveLeftBehind := moved (-1) 1 1 in
      let _voxelAboveRightBehind := moved 1 1 1 in
      v_0_5 <- addVertexIn PreviousSlice regX regY regZ material
                 _voxelAboveBefore _voxelAboveLeft _voxelAboveLeftBefore ;;
      v_1_6 <- addVertexIn PreviousSlice regX1 regY regZ material
                 _voxelAboveRight _voxelAboveBefore _voxelAboveRightBefore ;;
      v_2_7 <- addVertexIn CurrentSlice regX1 regY regZ1 material
                 _voxelAboveBehind _voxelAboveRight _voxelAboveRightBehind ;;
      v_3_8 <- addVertexIn CurrentSlice regX regY regZ1 material
                 _voxelAboveLeft _voxelAboveBehind _voxelAboveLeftBehind ;;
      pushQuad PositiveY regY (mkQuad v_0_5 v_3_8 v_2_7 v_1_6)
  | None => ret tt
  end ;;
  (* Z [E] BEFORE *)
  match isQuadNeeded voxelCurrent voxelBefore with
  | Some material =>
      v_0_1 <- addVertexIn PreviousSlice regX regY regZ material
                 voxelBelowBefore voxelLeftBefore voxelBelowLeftBefore ;;
      v_1_5 <- addVertexIn PreviousSlice regX regY1 regZ material
                 voxelAboveBefore voxelLeftBefore voxelAboveLeftBefore ;;
      v_2_6 <- addVertexIn PreviousSlice regX1 regY1 regZ material
                 voxelAboveBefore voxelRightBefore voxelAboveRightBefore ;;
      v_3_2 <- addVertexIn PreviousSlice regX1 regY regZ material
                 voxelBelowBefore voxelRightBefore voxelBelowRightBefore ;;
      pushQuad NegativeZ regZ (mkQuad v_0_1 v_1_5 v_2_6 v_3_2)
  | None => ret tt
  end ;;
  (* Z [F] BEHIND *)
  match isQuadNeeded voxelBefore voxelCurrent with
  | Some material =>
      let moved := peekVoxel (x, y, z - 1) in
      let _voxelLeftBehind := moved (-1) 0 1 in
      let _voxelRightBehind := moved 1 0 1 in
      let _voxelAboveBehind := moved 0 1 1 in
      let _voxelAboveLeftBehind := moved (-1) 1 1 in
      let _voxelAboveRightBehind := moved 1 1 1 in
      let _voxelBelowBehind := moved 0 (-1) 1 in
      let _voxelBelowLeftBehind := moved (-1) (-1) 1 in
      let _voxelBelowRightBehind := moved 1 (-1) 1 in
      v_0_4 <- addVertexIn PreviousSlice regX regY regZ material
                 _voxelBelowBehind _voxelLeftBehind _voxelBelowLeftBehind ;;
      v_1_8 <- addVertexIn PreviousSlice regX regY1 regZ material
                 _voxelAboveBehind _voxelLeftBehind _voxelAboveLeftBehind ;;
      v_2_7 <- addVertexIn PreviousSlice regX1 regY1 regZ material
                 _voxelAboveBehind _voxelRightBehind _voxelAboveRightBehind ;;
      v_3_3 <- addVertexIn PreviousSlice regX1 regY regZ material
                 _voxelBelowBehind _voxelRightBehind _voxelBelowRightBehind ;;
      pushQuad PositiveZ regZ (mkQuad v_0_4 v_3_3 v_2_7 v_1_8)
  | None => ret tt
  end.

(** [previous.swap(current); memset(current, 0xff, ...)] *)
Definition nextSlice : M ExtractorState unit :=
  modify (fun st =>
    mkState (result st) (m_currentSliceVertices st) clearedSlice
            (m_vecQuads st)).

Definition processRow (y z : Z) : M ExtractorState unit :=
  forEach (seqZ (getLowerX region) (getUpperX region - getLowerX region + 1))
          (fun x => processVoxel x y z).

Definition processSlice (z : Z) : M ExtractorState unit :=
  forEach (seqZ (getLowerY region) (getUpperY region - getLowerY region + 1))
          (fun y => processRow y z) ;;
  nextSlice.

Definition sweep : M ExtractorState unit :=
  forEach (seqZ (getLowerZ region) (getUpperZ region - getLowerZ region + 1))
          processSlice.

(** The body of the loop over the quads of one list: the two triangles
    picked by the occlusion test, then the third [addTriangle] that
    follows the [if]/[else]. *)
Definition triangulateQuad (m : Mesh) (quad : Quad) : Mesh :=
  let v00 := getVertex m (vert3 quad) in
  let v01 := getVertex m (vert0 quad) in
  let v10 := getVertex m (vert2 quad) in
  let v11 := getVertex m (vert1 quad) in
  let m' :=
    if ambientOcclusion v01 + ambientOcclusion v10
       <? ambientOcclusion v00 + ambientOcclusion v11
    then addTriangle (addTriangle m (vert1 quad) (vert2 quad) (vert3 quad))
                     (vert1 quad) (vert3 quad) (vert0 quad)
    else addTriangle (addTriangle m (vert0 quad) (vert1 quad) (vert2 quad))
                     (vert0 quad) (vert2 quad) (vert3 quad) in
  addTriangle m' (vert0 quad) (vert2 quad) (vert3 quad).

(** One [(face, slice)] list: optional merging, then triangulation. *)
Definition survivingQuads (bMergeQuads : bool) (m : Mesh)
    (listQuads : list Quad) : list Quad :=
  if bMergeQuads then mergeUntilStable (S (length listQuads)) listQuads m
  else listQuads.

Definition emitList (bMergeQuads : bool) (m : Mesh) (listQuads : list Quad)
  : Mesh :=
  foldl triangulateQuad m (survivingQuads bMergeQuads m listQuads).

Definition emitFace (bMergeQuads : bool) (m : Mesh)
    (vecListQuads : list (list Quad)) : Mesh :=
  foldl (emitList bMergeQuads) m vecListQuads.

Definition emitAll (bMergeQuads : bool) (st : ExtractorState) : Mesh :=
  foldl (fun m uFace => emitFace bMergeQuads m (m_vecQuads st uFace))
        (result st) allFaces.

Definition initialQuads (f : FaceNames) : list (list Quad) :=
  match f with
  | NegativeX | PositiveX =>
      replicate (Z.to_nat (getUpperX region - getLowerX region + 2)) []
  | NegativeY | PositiveY =>
      replicate (Z.to_nat (getUpperY region - getLowerY region + 2)) []
  | NegativeZ | PositiveZ =>
      replicate (Z.to_nat (getUpperZ region - getLowerZ region + 2)) []
  end.

Definition maxReionDimensionInVoxels : Z := 255.

(** [extractCubicMeshCustom(volData, region, result, ...)]: the state is
    the caller's mesh [*result]. *)
Definition extractCubicMeshCustom (bMergeQuads : bool) : M Mesh unit :=
  fun result0 =>
    if maxReionDimensionInVoxels <? getWidthInVoxels region then
      Throw RegionTooLargeToEncode result0
    else if maxReionDimensionInVoxels <? getHeightInVoxels region then
      Throw RegionTooLargeToEncode result0
    else if maxReionDimensionInVoxels <? getDepthInVoxels region then
      Throw RegionTooLargeToEncode result0
    else
      match sweep (mkState (clear result0) clearedSlice clearedSlice
                           initialQuads) with
      | Throw e st => Throw e (result st)
      | Ok _ st =>
          Ok tt (removeUnusedVertices
                   (setOffset (emitAll bMergeQuads st)
                              (getLowerCorner region)))
      end.

(** [extractCubicMesh]: the same into a fresh mesh. *)
Definition extractCubicMesh (bMergeQuads : bool) : Result Mesh unit :=
  extractCubicMeshCustom bMergeQuads (mkMesh [] [] (0, 0, 0)).

(** The quads that survive in all lists, in emission order. *)
Definition allSurvivingQuads (bMergeQuads : bool) (st : ExtractorState)
  : list Quad :=
  concat (map (fun uFace =>
            concat (map (survivingQuads bMergeQuads (result st))
                        (m_vecQuads st uFace)))
          allFaces).
(** The quads left when the final loop starts triangulating, [None] when
    the sweep threw. *)
Definition extractedQuads (bMergeQuads : bool) (result0 : Mesh)
  : option (list Quad) :=
  match sweep (mkState (clear result0) clearedSlice clearedSlice
                       initialQuads) with
  | Ok _ st => Some (allSurvivingQuads bMergeQuads st)
  | Throw _ _ => None
  end.
End Sweep.

End Extractor.

(** *** A binary volume with one solid voxel *)

(** Voxels are [uint8_t] densities: 0 is empty, anything else solid. *)
Definition solidEmptyQuadNeeded (back front : Z) : option Z :=
  if (0 <? back) && (front =? 0) then Some back else None.

Definition solidContributesToAO (v : Z) : bool := negb (v =? 0).

(** A volume that is empty, border included, except for the voxel [p]. *)
Definition singleVoxelVolume (p : Z * Z * Z) : Z -> Z -> Z -> Z :=
  fun x y z => if bool_decide ((x, y, z) = p) then 1 else 0.

(** The region covering a 3x3x3 volume. *)
Definition wholeVolume : Region := mkRegion 0 0 0 2 2 2.

Definition extractSingleVoxel (p : Z * Z * Z) (bMergeQuads : bool)
  : Result (Mesh (V := Z)) unit :=
  extractCubicMesh (singleVoxelVolume p) solidEmptyQuadNeeded
                   solidContributesToAO 255 wholeVolume bMergeQuads.

Definition singleVoxelQuads (p : Z * Z * Z) (bMergeQuads : bool)
  : option (list Quad) :=
  extractedQuads (singleVoxelVolume p) solidEmptyQuadNeeded
                 solidContributesToAO 255 wholeVolume bMergeQuads
                 (mkMesh [] [] (0, 0, 0)).

Arguments CubicVertex V : clear implicits.
Arguments Mesh V : clear implicits.
Arguments IndexAndMaterial V : clear implicits.
Arguments Array3 V : clear implicits.
Arguments ExtractorState V : clear implicits.

End Cubic.

(** ** Mesh decimation *)

Module Decimator.

(** Modelled from the spec: [Vector3DFloat] (Vector.h is not part of the
    sources).  Components are exact rationals. *)
Record Vector3DFloat : Type := mkVec { vecX : Q; vecY : Q; vecZ : Q }.

Definition vsub (a b : Vector3DFloat) : Vector3DFloat :=
  mkVec (vecX a - vecX b) (vecY a - vecY b) (vecZ a - vecZ b).
Definition vadd (a b : Vector3DFloat) : Vector3DFloat :=
  mkVec (vecX a + vecX b) (vecY a + vecY b) (vecZ a + vecZ b).
Definition cross (a b : Vector3DFloat) : Vector3DFloat :=
  mkVec (vecY a * vecZ b - vecZ a * vecY b)
        (vecZ a * vecX b - vecX a * vecZ b)
        (vecX a * vecY b - vecY a * vecX b).
Definition dot (a b : Vector3DFloat) : Q :=
  vecX a * vecX b + vecY a * vecY b + vecZ a * vecZ b.
Definition lengthSquared (a : Vector3DFloat) : Q := dot a a.

Definition Qltb (a b : Q) : bool := negb (Qle_bool b a).

(** [struct LodRecord] *)
Record LodRecord : Type := mkLod { beginIndex : nat; endIndex : nat }.

(** Modelled from the spec: [Region::containsPoint] on a point with real
    coordinates, the region being a closed box. *)
Definition containsPoint (r : Region) (p : Vector3DFloat) : bool :=
  Qle_bool (inject_Z (getLowerX r)) (vecX p)
  && Qle_bool (vecX p) (inject_Z (getUpperX r))
  && Qle_bool (inject_Z (getLowerY r)) (vecY p)
  && Qle_bool (vecY p) (inject_Z (getUpperY r))
  && Qle_bool (inject_Z (getLowerZ r)) (vecZ p)
  && Qle_bool (vecZ p) (inject_Z (getUpperZ r)).

Section Generic.
Context {VertexType : Type}.

(** Modelled from the spec: [SurfaceMesh<VertexType>] (SurfaceMesh.inl
    is not part of the sources): vertices, a flat index buffer read
    three indices per triangle, the region the mesh was extracted from
    and the LOD records. *)
Record SurfaceMesh : Type := mkSurfaceMesh {
  m_vecVertices : list VertexType;
  m_vecTriangleIndices : list nat;
  m_Region : Region;
  m_vecLodRecords : list LodRecord
}.

(** Modelled from the spec: [removeDegenerateTris] drops every triangle
    whose three indices are not pairwise distinct. *)
Fixpoint dropDegenerate (idx : list nat) : list nat :=
  match idx with
  | a :: b :: c :: tl =>
      if bool_decide (a ≠ b) && bool_decide (b ≠ c) && bool_decide (c ≠ a)
      then a :: b :: c :: dropDegenerate tl
      else dropDegenerate tl
  | _ => idx
  end.

Definition removeDegenerateTris (m : SurfaceMesh) : SurfaceMesh :=
  mkSurfaceMesh (m_vecVertices m) (dropDegenerate (m_vecTriangleIndices m))
                (m_Region m) (m_vecLodRecords m).

(** Modelled from the spec: [removeUnusedVertices] compacts the vertex
    table to the referenced vertices, in order, and renumbers the
    indices. *)
Definition usedVertices (idx : list nat) (n : nat) : list nat :=
  filter (fun i => i ∈ idx) (seq 0 n).

Definition newIndex (idx : list nat) (i : nat) : nat :=
  length (usedVertices idx i).

Definition removeUnusedVertices (m : SurfaceMesh) : SurfaceMesh :=
  let vs := m_vecVertices m in
  let idx := m_vecTriangleIndices m in
  mkSurfaceMesh (omap (fun i => vs !! i) (usedVertices idx (length vs)))
                (map (newIndex idx) idx)
                (m_Region m) (m_vecLodRecords m).

(** The tables a pass updates while it walks the edges. *)
Record PassState : Type := mkPass {
  vertexMapper : list nat;
  vertexLocked : list bool;
  noOfEdgesCollapsed : nat
}.

(** What [canCollapseEdge] tests after the lock test; the two
    specialisations differ only here.  It may read the mesh and the
    current [vertexMapper], never [vertexLocked]. *)
Variable collapseChecks : SurfaceMesh -> list nat -> nat -> nat -> bool.

Definition canCollapseEdge (m : SurfaceMesh) (st : PassState)
    (v0 v1 : nat) : bool :=
  if (vertexLocked st !!! v0 : bool) || (vertexLocked st !!! v1 : bool)
  then false
  else collapseChecks m (vertexMapper st) v0 v1.

(** The body of the loop over [edgeCt]. *)
Definition collapseEdge (m : SurfaceMesh) (st : PassState)
    (v0 v1 : nat) : PassState :=
  if canCollapseEdge m st v0 v1 then
    mkPass (<[v0 := v1]> (vertexMapper st))
           (<[v1 := true]> (<[v0 := true]> (vertexLocked st)))
           (S (noOfEdgesCollapsed st))
  else st.

(** The loop over the triangles: edges [(i0,i1)], [(i1,i2)], [(i2,i0)]. *)
Fixpoint collapseTriangles (m : SurfaceMesh) (idx : list nat)
    (st : PassState) : PassState :=
  match idx with
  | i0 :: i1 :: i2 :: tl =>
      collapseTriangles m tl
        (collapseEdge m (collapseEdge m (collapseEdge m st i0 i1) i1 i2) i2 i0)
  | _ => st
  end.

Definition initialPass (n : nat) : PassState :=
  mkPass (seq 0 n) (replicate n false) 0.

Definition passTables (m : SurfaceMesh) : PassState :=
  collapseTriangles m (m_vecTriangleIndices m)
                    (initialPass (length (m_vecVertices m))).

(** The largest [int], and [n - 1] as the unsigned arithmetic of
    [size() - 1] gives it (for a [size_t] of 64 bits; one of 32 bits
    makes no difference below). *)
Definition INT_MAX : Z := 2147483647.

Definition unsignedPred (n : nat) : Z := ((Z.of_nat n - 1) mod 2 ^ 64)%Z.

(** The loops of [performDecimationPass] count with an [int].  The first
    of them, [for(int outerCt = 0; outerCt < size()-1; outerCt++)],
    compares its counter with the unsigned [size()-1]: on an empty
    vertex table that bound has wrapped around, the inner loop never
    runs, and the only way out of the outer loop is the overflow of the
    signed counter, which is undefined.  The same holds of any counter
    that would have to pass [INT_MAX].  The pass has a result exactly
    when every counter reaches its bound: the vertex table is not empty
    and neither table is longer than [INT_MAX]. *)
Definition passHasResult (m : SurfaceMesh) : bool :=
  (unsignedPred (length (m_vecVertices m)) <=? INT_MAX)%Z
  && (Z.of_nat (length (m_vecVertices m)) <=? INT_MAX)%Z
  && (Z.of_nat (length (m_vecTriangleIndices m)) <=? INT_MAX)%Z.

(** What [performDecimationPass] returns when its loops end: the number
    of collapsed edges and the mesh with its index buffer rewritten
    through [vertexMapper].  The tables [hasDuplicate],
    [trianglesUsingVertex] and [noOfDifferentNormals], which the pass
    fills first and only [canCollapseEdge] reads, are functions of the
    mesh below; [materialKey] and the duplicate count sent to
    [std::cout] are read by nothing. *)
Definition passResult (m : SurfaceMesh) : nat * SurfaceMesh :=
  let st := passTables m in
  let idx := m_vecTriangleIndices m in
  (noOfEdgesCollapsed st,
   mkSurfaceMesh (m_vecVertices m)
     (if 0 <? noOfEdgesCollapsed st
      then map (fun i => vertexMapper st !!! i) idx else idx)
     (m_Region m) (m_vecLodRecords m)).

(** [performDecimationPass]: [None] where the pass has no result. *)
Definition performDecimationPass (m : SurfaceMesh)
  : option (nat * SurfaceMesh) :=
  if passHasResult m then Some (passResult m) else None.

(** One turn of the [do ... while] of [execute]: the pass, then
    [removeDegenerateTris] and [removeUnusedVertices]. *)
Definition decimationStep (m : SurfaceMesh) : option (nat * SurfaceMesh) :=
  match performDecimationPass m with
  | Some (n, m') => Some (n, removeUnusedVertices (removeDegenerateTris m'))
  | None => None
  end.

Fixpoint executeLoop (fuel : nat) (m : SurfaceMesh) : option SurfaceMesh :=
  match fuel with
  | O => None
  | S fuel' =>
      match decimationStep m with
      | Some (n, m') => if 0 <? n then executeLoop fuel' m' else Some m'
      | None => None
      end
  end.

Definition resetLod (m : SurfaceMesh) : SurfaceMesh :=
  mkSurfaceMesh (m_vecVertices m) (m_vecTriangleIndices m) (m_Region m)
                [mkLod 0 (length (m_vecTriangleIndices m))].

(** [execute]: [None] when [fuel] turns of the loop were not enough,
    which is so for every [fuel] once a pass has no result.
    [countNoOfNeighboursUsingMaterial], called first, fills a table that
    only the checks of the [PositionMaterialNormal] specialisation read. *)
Definition execute (fuel : nat) (m : SurfaceMesh) : option SurfaceMesh :=
  resetLod <$> executeLoop fuel m.


End Generic.

Arguments SurfaceMesh VertexType : clear implicits.

(** *** The specialisation for [PositionMaterial] vertices *)

Record PositionMaterial : Type := mkPositionMaterial {
  position : Vector3DFloat;
  material : Z
}.

#[global] Instance PositionMaterial_inhabited : Inhabited PositionMaterial :=
  populate (mkPositionMaterial (mkVec 0 0 0) 0).

#[global] Instance Vector3DFloat_inhabited : Inhabited Vector3DFloat :=
  populate (mkVec 0 0 0).

Section PositionMaterialDecimator.
(** The test [normalise(OldNormal).dot(normalise(NewNormal)) < 0.9f] on
    the two unnormalised face normals. *)
Variable faceFlipTest : Vector3DFloat -> Vector3DFloat -> bool.

Definition positionOf (m : SurfaceMesh PositionMaterial) (v : nat)
  : Vector3DFloat :=
  position (m_vecVertices m !!! v).

(** [(a - b).lengthSquared() < 0.001f] *)
Definition closeTogether (a b : Vector3DFloat) : bool :=
  Qltb (lengthSquared (vsub a b)) (1 # 1000).

(** The double loop that fills [hasDuplicate], for a vertex table that
    is not empty: [outerCt] runs over [0 .. size-2] and [innerCt] over
    [outerCt+1 .. size-1].  On an empty vertex table the bound
    [size()-1] has wrapped around and the loop has no defined end: the
    pass has no result there ([passHasResult]) and nothing reads the
    table. *)
Definition markDuplicates (m : SurfaceMesh PositionMaterial)
    (hd : list bool) (outerCt : nat) : list bool :=
  let n := length (m_vecVertices m) in
  foldl (fun hd innerCt =>
           if closeTogether (positionOf m innerCt) (positionOf m outerCt)
           then <[outerCt := true]> (<[innerCt := true]> hd)
           else hd)
        hd (seq (S outerCt) (n - S outerCt)).

(** [hasDuplicate] as the loops leave it when they end. *)
Definition hasDuplicate (m : SurfaceMesh PositionMaterial) : list bool :=
  let n := length (m_vecVertices m) in
  foldl (markDuplicates m) (replicate n false) (seq 0 (n - 1)).

(** [trianglesUsingVertex[indices[ct]].push_back(ct / 3)] for every [ct]. *)
Definition trianglesUsingVertex (m : SurfaceMesh PositionMaterial)
  : list (list nat) :=
  let idx := m_vecTriangleIndices m in
  foldl (fun tuv ct =>
           alter (fun l => l ++ [ct / 3]) (idx !!! ct) tuv)
        (replicate (length (m_vecVertices m)) [])
        (seq 0 (length idx)).

Definition triangleNormal (m : SurfaceMesh PositionMaterial) (triCt : nat)
  : Vector3DFloat :=
  let idx := m_vecTriangleIndices m in
  let v0 := idx !!! (triCt * 3 + 0) in
  let v1 := idx !!! (triCt * 3 + 1) in
  let v2 := idx !!! (triCt * 3 + 2) in
  cross (vsub (positionOf m v1) (positionOf m v0))
        (vsub (positionOf m v2) (positionOf m v0)).

Definition vecOfTriNormals (m : SurfaceMesh PositionMaterial)
  : list Vector3DFloat :=
  map (triangleNormal m) (seq 0 (length (m_vecTriangleIndices m) / 3)).

(** [abs(c) > 0.001].  The [assert(noOfDifferentNormals[ct] > 0)] that
    follows the count is a debug check and changes no table. *)
Definition isSignificant (c : Q) : bool := Qltb (1 # 1000) (Qabs c).

Definition countDifferentNormals (sumOfNormals : Vector3DFloat) : nat :=
  (if isSignificant (vecX sumOfNormals) then 1 else 0)
  + (if isSignificant (vecY sumOfNormals) then 1 else 0)
  + (if isSignificant (vecZ sumOfNormals) then 1 else 0).

Definition noOfDifferentNormals (m : SurfaceMesh PositionMaterial)
  : list nat :=
  let normals := vecOfTriNormals m in
  map (fun tris =>
         countDifferentNormals
           (foldl (fun sum tri => vadd sum (normals !!! tri))
                  (mkVec 0 0 0) tris))
      (trianglesUsingVertex m).

(** The body of the loop over the triangles using [v0] in the face-flip
    test: [true] when the triangle [tri] makes the loop [break] with
    [faceFlipped] set. *)
Definition triangleFlips (m : SurfaceMesh PositionMaterial)
    (vertexMapper : list nat) (v0 v1 tri : nat) : bool :=
  let idx := m_vecTriangleIndices m in
  let v0Old := idx !!! (tri * 3) in
  let v1Old := idx !!! (tri * 3 + 1) in
  let v2Old := idx !!! (tri * 3 + 2) in
  if bool_decide (v0Old = v1Old) || bool_decide (v1Old = v2Old)
     || bool_decide (v2Old = v0Old) then false
  else
    let v0New := if bool_decide (v0Old = v0) then v1 else v0Old in
    let v1New := if bool_decide (v1Old = v0) then v1 else v1Old in
    let v2New := if bool_decide (v2Old = v0) then v1 else v2Old in
    if bool_decide (v0New = v1New) || bool_decide (v1New = v2New)
       || bool_decide (v2New = v0New) then false
    else
      let pos v := positionOf m (vertexMapper !!! v) in
      let OldNormal := cross (vsub (pos v1Old) (pos v0Old))
                             (vsub (pos v2Old) (pos v1Old)) in
      let NewNormal := cross (vsub (pos v1New) (pos v0New))
                             (vsub (pos v2New) (pos v1New)) in
      faceFlipTest OldNormal NewNormal.

(** [MeshDecimator<PositionMaterial>::canCollapseEdge] after its lock
    test. *)
Definition positionMaterialChecks (m : SurfaceMesh PositionMaterial)
    (vertexMapper : list nat) (v0 v1 : nat) : bool :=
  let vs := m_vecVertices m in
  if bool_decide (material (vs !!! v0) ≠ material (vs !!! v1)) then false
  else if bool_decide (noOfDifferentNormals m !!! v0 = 3) then false
  else if (hasDuplicate m !!! v0 : bool) then false
  else if bool_decide (noOfDifferentNormals m !!! v1
                       < noOfDifferentNormals m !!! v0) then false
  else
    let offset :=
      mkVec (inject_Z (getLowerX (m_Region m)))
            (inject_Z (getLowerY (m_Region m)))
            (inject_Z (getLowerZ (m_Region m))) in
    let v0Inside := containsPoint (m_Region m) (vadd (positionOf m v0) offset) in
    if negb v0Inside then false
    else
      let faceFlipped :=
        existsb (triangleFlips m vertexMapper v0 v1)
                (trianglesUsingVertex m !!! v0) in
      negb faceFlipped.
End PositionMaterialDecimator.

(** The face-flip test over the reals: the cosine of the angle between
    the two normals is below 0.9.  A zero normal has no direction; the
    test then does not fire. *)
Definition cosineBelow09 (a b : Vector3DFloat) : bool :=
  let d := dot a b in
  let la := lengthSquared a in
  let lb := lengthSquared b in
  if Qeq_bool la 0 || Qeq_bool lb 0 then false
  else if Qltb d 0 then true
  else Qltb (d * d) ((81 # 100) * la * lb).

End Decimator.

(** * MeshDecimator.inl: the parts for vertices with normals and flags *)

Module DecimatorNormal.
Import Decimator.

(** [isSubset], the bitsets read as numbers: bit [ct] of the bitset is
    bit [ct] of the number.  The loop over [ct], with [n] turns left;
    the [break] leaves it with [result] false. *)
Fixpoint isSubsetLoop (n : nat) (ct : Z) (a b : Z) : bool :=
  match n with
  | O => true
  | S n' =>
      if Z.testbit a ct && negb (Z.testbit b ct) then false
      else isSubsetLoop n' (ct + 1) a b
  end.

Definition isSubset (a b : Z) : bool := isSubsetLoop 6 1 a b.

Section NeighbourCount.
Context {VertexType Material : Type}.
Context `{!EqDecision Material} `{!Inhabited VertexType}.
Variable getMaterial : VertexType -> Material.

(** [neighbouringVertices[v].insert(u)] *)
Definition insertNeighbour (nv : list (gset nat)) (vu : nat * nat)
  : list (gset nat) :=
  alter (fun s => {[vu.2]} ∪ s) vu.1 nv.

(** The corners of triangle [triCt]. *)
Definition triangleAt (idx : list nat) (triCt : nat) : nat * nat * nat :=
  (idx !!! (triCt * 3 + 0), idx !!! (triCt * 3 + 1), idx !!! (triCt * 3 + 2)).

(** The six insertions of one triangle, in the order of the source. *)
Definition cornerPairs (t : nat * nat * nat) : list (nat * nat) :=
  let '(v0, v1, v2) := t in
  [(v0, v1); (v0, v2); (v1, v0); (v1, v2); (v2, v0); (v2, v1)].

Definition addTriangle (idx : list nat) (nv : list (gset nat)) (triCt : nat)
  : list (gset nat) :=
  foldl insertNeighbour nv (cornerPairs (triangleAt idx triCt)).

Definition neighbouringVertices (m : SurfaceMesh VertexType)
  : list (gset nat) :=
  let idx := m_vecTriangleIndices m in
  foldl (addTriangle idx) (replicate (length (m_vecVertices m)) ∅)
        (seq 0 (length idx / 3)).

(** [countNoOfNeighboursUsingMaterial]: the table
    [m_vecNoOfNeighboursUsingMaterial]. *)
Definition countNoOfNeighboursUsingMaterial (m : SurfaceMesh VertexType)
  : list nat :=
  let vs := m_vecVertices m in
  map (fun vertCt =>
         length (filter (fun u => getMaterial (vs !!! vertCt)
                                  = getMaterial (vs !!! u))
                        (elements (neighbouringVertices m !!! vertCt))))
      (seq 0 (length vs)).
End NeighbourCount.

Section NormalDecimator.
Context {VertexType Material : Type}.
Context `{!EqDecision Material} `{!Inhabited VertexType}.
(** What the code reads of a [PositionMaterialNormal] vertex (the class
    is not part of the sources). *)
Variable getMaterial : VertexType -> Material.
Variable getPosition : VertexType -> Vector3DFloat.
Variable getNormal : VertexType -> Vector3DFloat.
Variable isOnMaterialEdge : VertexType -> bool.
Variable m_bFlags : VertexType -> Z.
(** The test [normalise(movement).dot(axis) > 0.999] on the unnormalised
    movement. *)
Variable movementAlong : Vector3DFloat -> Vector3DFloat -> bool.
(** The test [normalise(OldNormal).dot(normalise(NewNormal)) < 0.9f] on
    the two unnormalised face normals. *)
Variable faceFlipTest : Vector3DFloat -> Vector3DFloat -> bool.

(** Set by the constructor. *)
Definition fMinDotProductForCollapse : Q := 999 # 1000.

(** [bitset::any] *)
Definition any (flags : Z) : bool := negb (flags =? 0)%Z.

(** [trianglesUsingVertex], as [performDecimationPass] fills it. *)
Definition trianglesUsingVertex (m : SurfaceMesh VertexType)
  : list (list nat) :=
  let idx := m_vecTriangleIndices m in
  foldl (fun tuv ct =>
           alter (fun l => l ++ [ct / 3]) (idx !!! ct) tuv)
        (replicate (length (m_vecVertices m)) [])
        (seq 0 (length idx)).

Definition movementValid (movement : Vector3DFloat) : bool :=
  movementAlong movement (mkVec 0 0 1)
  || movementAlong movement (mkVec 0 1 0)
  || movementAlong movement (mkVec 1 0 0)
  || movementAlong movement (mkVec 0 0 (-1))
  || movementAlong movement (mkVec 0 (-1) 0)
  || movementAlong movement (mkVec (-1) 0 0).

(** The block for vertices on a material edge: the value of [pass]. *)
Definition materialEdgePass (neighbours : list nat)
    (m : SurfaceMesh VertexType) (v0 v1 : nat) : bool :=
  let vs := m_vecVertices m in
  let allMatch :=
    bool_decide (neighbours !!! v0 = neighbours !!! v1)
    && bool_decide (neighbours !!! v0 = 4) in
  let movement := vsub (getPosition (vs !!! v1)) (getPosition (vs !!! v0)) in
  movementValid movement && allMatch.

(** The block for vertices with a flag set: the value of
    [bCollapseGeometryEdgePair]. *)
Definition collapseGeometryEdgePair (m : SurfaceMesh VertexType)
    (v0 v1 : nat) : bool :=
  let vs := m_vecVertices m in
  isSubset (m_bFlags (vs !!! v0)) (m_bFlags (vs !!! v1))
  && Qltb (999 # 1000) (dot (getNormal (vs !!! v0)) (getNormal (vs !!! v1))).

(** The body of the loop of the face-flip test. *)
Definition triangleFlips (m : SurfaceMesh VertexType)
    (vertexMapper : list nat) (v0 v1 tri : nat) : bool :=
  let idx := m_vecTriangleIndices m in
  let v0Old := idx !!! (tri * 3) in
  let v1Old := idx !!! (tri * 3 + 1) in
  let v2Old := idx !!! (tri * 3 + 2) in
  if bool_decide (v0Old = v1Old) || bool_decide (v1Old = v2Old)
     || bool_decide (v2Old = v0Old) then false
  else
    let v0New := if bool_decide (v0Old = v0) then v1 else v0Old in
    let v1New := if bool_decide (v1Old = v0) then v1 else v1Old in
    let v2New := if bool_decide (v2Old = v0) then v1 else v2Old in
    if bool_decide (v0New = v1New) || bool_decide (v1New = v2New)
       || bool_decide (v2New = v0New) then false
    else
      let pos v := getPosition (m_vecVertices m !!! (vertexMapper !!! v)) in
      let OldNormal := cross (vsub (pos v1Old) (pos v0Old))
                             (vsub (pos v2Old) (pos v1Old)) in
      let NewNormal := cross (vsub (pos v1New) (pos v0New))
                             (vsub (pos v2New) (pos v1New)) in
      faceFlipTest OldNormal NewNormal.

(** [MeshDecimator<PositionMaterialNormal>::canCollapseEdge] after its
    lock test; [neighbours] is [m_vecNoOfNeighboursUsingMaterial]. *)
Definition positionMaterialNormalChecks (neighbours : list nat)
    (m : SurfaceMesh VertexType) (vertexMapper : list nat) (v0 v1 : nat)
  : bool :=
  let vs := m_vecVertices m in
  if bool_decide (getMaterial (vs !!! v0) ≠ getMaterial (vs !!! v1))
  then false
  else if (isOnMaterialEdge (vs !!! v0) || isOnMaterialEdge (vs !!! v1))
          && negb (materialEdgePass neighbours m v0 v1) then false
  else if (any (m_bFlags (vs !!! v0)) || any (m_bFlags (vs !!! v1)))
          && negb (collapseGeometryEdgePair m v0 v1) then false
  else if Qltb (dot (getNormal (vs !!! v0)) (getNormal (vs !!! v1)))
               fMinDotProductForCollapse then false
  else
    let faceFlipped :=
      existsb (triangleFlips m vertexMapper v0 v1)
              (trianglesUsingVertex m !!! v0) in
    negb faceFlipped.

(** [execute] for these vertices: the neighbour counts are taken once,
    from the mesh as it is handed in, and every pass reads that table. *)
Definition executeNormal (fuel : nat) (m : SurfaceMesh VertexType)
  : option (SurfaceMesh VertexType) :=
  execute (positionMaterialNormalChecks
             (countNoOfNeighboursUsingMaterial getMaterial m)) fuel m.
End NormalDecimator.

(** The movement test over the reals: the cosine of the angle between the
    movement and the axis is above 0.999.  A zero movement has no
    direction; the test then does not fire. *)
Definition cosineAbove0999 (movement axis : Vector3DFloat) : bool :=
  let d := dot movement axis in
  let lm := lengthSquared movement in
  let la := lengthSquared axis in
  if Qeq_bool lm 0 then false
  else Qltb 0 d && Qltb ((998001 # 1000000) * lm * la) (d * d).

End DecimatorNormal.

(** ** Decoding the vertices of a cubic mesh *)

Module CubicDecoding.
Import Cubic.

(** Modelled from the spec: the decoded [Vertex<DataType>] (Vertex.h is
    not part of the sources): position, normal, data and occlusion. *)
Module Vertex.
Record t (DataType : Type) : Type := mk {
  position : Decimator.Vector3DFloat;
  normal : Decimator.Vector3DFloat;
  data : DataType;
  ambientOcclusion : Z
}.
Arguments mk {DataType} _ _ _ _.
Arguments position {DataType} _.
Arguments normal {DataType} _.
Arguments data {DataType} _.
Arguments ambientOcclusion {DataType} _.
End Vertex.

(** [decodePosition]: the three bytes as floats, each moved by [-0.5f].
    A byte less one half is a [float], so the rationals below are the
    values the code computes. *)
Definition decodePosition (encodedPosition : Z * Z * Z)
  : Decimator.Vector3DFloat :=
  let '(x, y, z) := encodedPosition in
  Decimator.mkVec (inject_Z x - (1 # 2)) (inject_Z y - (1 # 2))
                  (inject_Z z - (1 # 2)).

(** [decodeVertex] *)
Definition decodeVertex {V : Type} (cubicVertex : CubicVertex V)
  : Vertex.t V :=
  Vertex.mk (decodePosition (encodedPosition cubicVertex))
            (Decimator.mkVec 0 0 0)
            (data cubicVertex)
            (ambientOcclusion cubicVertex).

End CubicDecoding.

(** ** The Ogre front end *)

Module Ogre.

(** *** [IntegralVector3.h] *)

(** [template <typename Type> class IntegralVector3]: [Type] is one of
    the C++ integer types, whose values and comparisons are those of
    [Z]. *)
Module IntegralVector3.
Local Open Scope Z_scope.

Record t : Type := mk { x : Z; y : Z; z : Z }.

(** [bool operator==(const IntegralVector3<Type>& rhs) const] *)
Definition operator_eq (lhs rhs : t) : bool :=
  (x lhs =? x rhs) && (y lhs =? y rhs) && (z lhs =? z rhs).

(** [bool operator<(const IntegralVector3<Type>& rhs) const] *)
Definition operator_lt (lhs rhs : t) : bool :=
  if negb (x lhs =? x rhs) then x lhs <? x rhs
  else if negb (y lhs =? y rhs) then y lhs <? y rhs
  else if negb (z lhs =? z rhs) then z lhs <? z rhs
  else false.

End IntegralVector3.

(** *** [Surface.cpp] *)

Module Surface.
Local Open Scope Q_scope.

(** [Ogre::Vector3], with the [Vertex] and [Triangle] that
    [setGeometry] reads.  A [Real] is a rational here; [setGeometry]
    only compares and copies them, which is exact. *)
Record Vector3 : Type := mkVector3 { x : Q; y : Q; z : Q }.
Record Vertex : Type := mkVertex { position : Vector3; normal : Vector3 }.
Record Triangle : Type := mkTriangle { v0 : Z; v1 : Z; v2 : Z }.

Definition Qltb (a b : Q) : bool := negb (Qle_bool b a).

(** An axis-aligned box, as [mBox.setExtents(min, max)] stores it. *)
Record AxisAlignedBox : Type := mkBox {
  getMinimum : Vector3;
  getMaximum : Vector3
}.

(** The six comparisons of the vertex loop of [setGeometry], for the
    vertex position [p]. *)
Definition growBox (box : AxisAlignedBox) (p : Vector3) : AxisAlignedBox :=
  let vaabMin := getMinimum box in
  let vaabMax := getMaximum box in
  let minX := if Qltb (x p) (x vaabMin) then x p else x vaabMin in
  let minY := if Qltb (y p) (y vaabMin) then y p else y vaabMin in
  let minZ := if Qltb (z p) (z vaabMin) then z p else z vaabMin in
  let maxX := if Qltb (x vaabMax) (x p) then x p else x vaabMax in
  let maxY := if Qltb (y vaabMax) (y p) then y p else y vaabMax in
  let maxZ := if Qltb (z vaabMax) (z p) then z p else z vaabMax in
  mkBox (mkVector3 minX minY minZ) (mkVector3 maxX maxY maxZ).

(** What [setGeometry] leaves in the render operation, the two hardware
    buffers and [mBox]. *)
Record Geometry : Type := mkGeometry {
  vertexCount : nat;
  indexCount : nat;
  indexBufferSize : nat;
  vertexBuffer : list Q;
  indexBuffer : list Z;
  mBox : AxisAlignedBox
}.

(** The narrowing of an index to [unsigned short]. *)
Definition uint16 (i : Z) : Z := (i mod 65536)%Z.

(** [Surface::setGeometry(verticesToSet, indicesToSet)].  The box starts
    from [verticesToSet[0]], which does not exist in an empty vector:
    [None]. *)
Definition setGeometry (verticesToSet : list Vertex)
    (indicesToSet : list Triangle) : option Geometry :=
  match verticesToSet with
  | [] => None
  | first :: _ =>
      let indexCount := (length indicesToSet * 3)%nat in
      Some (mkGeometry
        (length verticesToSet)
        indexCount
        (indexCount * 3)%nat
        (concat (map (fun v => [x (position v); y (position v); z (position v);
                                x (normal v); y (normal v); z (normal v)])
                     verticesToSet))
        (concat (map (fun t => [uint16 (v0 t); uint16 (v1 t); uint16 (v2 t)])
                     indicesToSet))
        (foldl growBox (mkBox (position first) (position first))
               (map position verticesToSet)))
  end.

(** **** Arithmetic in [Real]

    [Real] is a floating-point type: an operation returns the exact
    result rounded to the format.  [round] is that rounding, applied
    after every operation; results are taken to stay within the range of
    the format. *)
Section RealArithmetic.
Variable round : Q -> Q.

(** [Vector3::operator-], [operator+] and [operator*(Real)]. *)
Definition vsub (a b : Vector3) : Vector3 :=
  mkVector3 (round (x a - x b)) (round (y a - y b)) (round (z a - z b)).
Definition vadd (a b : Vector3) : Vector3 :=
  mkVector3 (round (x a + x b)) (round (y a + y b)) (round (z a + z b)).
Definition vscale (a : Vector3) (k : Q) : Vector3 :=
  mkVector3 (round (x a * k)) (round (y a * k)) (round (z a * k)).

(** [Vector3::squaredLength]: [x * x + y * y + z * z]. *)
Definition squaredLength (a : Vector3) : Q :=
  round (round (round (x a * x a) + round (y a * y a)) + round (z a * z a)).

(** The point [vMid] of [Surface::getSquaredViewDepth]:
    [((vMin - vMax) * 0.5) + vMin]. *)
Definition viewDepthPoint (box : AxisAlignedBox) : Vector3 :=
  let vMin := getMinimum box in
  let vMax := getMaximum box in
  vadd (vscale (vsub vMin vMax) (1 # 2)) vMin.

(** [Surface::getSquaredViewDepth(cam)], given the derived position of
    the camera. *)
Definition getSquaredViewDepth (box : AxisAlignedBox) (camPosition : Vector3)
  : Q :=
  let vDist := vsub camPosition (viewDepthPoint box) in
  squaredLength vDist.
End RealArithmetic.

End Surface.

End Ogre.


(** * Reasoning about monadic code *)

(** [hoare P m Q E]: from a state in [P], [m] either returns [a] in a
    state satisfying [Q a] or throws [e] in a state satisfying [E e]. *)
Definition hoare {St A} (P : St -> Prop) (m : M St A)
    (Q : A -> St -> Prop) (E : Error -> St -> Prop) : Prop :=
  forall s, P s ->
    match m s with
    | Ok a s' => Q a s'
    | Throw e s' => E e s'
    end.

Section HoareRules.
Context {St : Type}.
Implicit Types (P I : St -> Prop) (E : Error -> St -> Prop).

Lemma hoare_ret {A} P (Q : A -> St -> Prop) E (a : A) :
  (forall s, P s -> Q a s) -> hoare P (ret a) Q E.
Proof. intros HPQ s Hs. simpl. auto. Qed.

Lemma hoare_bind {A B} P (R : A -> St -> Prop) (Q : B -> St -> Prop) E
    (m : M St A) (k : A -> M St B) :
  hoare P m R E -> (forall a, hoare (R a) (k a) Q E) ->
  hoare P (bind m k) Q E.
Proof.
  intros Hm Hk s Hs. unfold bind. specialize (Hm s Hs).
  destruct (m s) as [a s'|e s']; [apply Hk; exact Hm|exact Hm].
Qed.

Lemma hoare_modify P (Q : unit -> St -> Prop) E (f : St -> St) :
  (forall s, P s -> Q tt (f s)) -> hoare P (modify f) Q E.
Proof. intros HPQ s Hs. simpl. auto. Qed.

Lemma hoare_weaken {A} P P' (Q Q' : A -> St -> Prop) E (m : M St A) :
  hoare P' m Q' E -> (forall s, P s -> P' s) ->
  (forall a s, Q' a s -> Q a s) -> hoare P m Q E.
Proof.
  intros Hm HP HQ s Hs. specialize (Hm s (HP s Hs)).
  destruct (m s); auto.
Qed.

(** A loop whose body keeps [I]. *)
Lemma hoare_forEach {A} I E (xs : list A) (body : A -> M St unit) :
  (forall x, x ∈ xs -> hoare I (body x) (fun _ => I) E) ->
  hoare I (forEach xs body) (fun _ => I) E.
Proof.
  induction xs as [|x xs IH]; intros Hbody.
  - apply hoare_ret. auto.
  - simpl. eapply hoare_bind.
    + apply Hbody. left.
    + intros u. apply IH. intros y Hy. apply Hbody. right. exact Hy.
Qed.

(** A counting loop whose invariant follows the counter. *)
Lemma hoare_forEach_seqZ (J : Z -> St -> Prop) E (body : Z -> M St unit)
    (n : nat) : forall lo : Z,
  (forall i, (lo <= i < lo + Z.of_nat n)%Z ->
     hoare (J i) (body i) (fun _ => J (i + 1)%Z) E) ->
  hoare (J lo) (forEach (seqZ lo (Z.of_nat n)) body)
        (fun _ => J (lo + Z.of_nat n)%Z) E.
Proof.
  induction n as [|n IH]; intros lo Hbody.
  - simpl. apply hoare_ret. intros s Hs.
    rewrite Z.add_0_r. exact Hs.
  - rewrite seqZ_cons by lia. simpl forEach. eapply hoare_bind.
    + apply Hbody. lia.
    + intros u.
      replace (Z.pred (Z.of_nat (S n))) with (Z.of_nat n) by lia.
      replace (lo + Z.of_nat (S n))%Z with (Z.succ lo + Z.of_nat n)%Z by lia.
      replace (lo + 1)%Z with (Z.succ lo) by lia.
      apply IH. intros i Hi. apply Hbody. lia.
Qed.

End HoareRules.

(** * Lists read as vertex tables *)

Section ListFacts.
Context {A : Type}.
Implicit Types (l vs : list A).

Lemma omap_ext_in {B C} (f g : B -> option C) (l : list B) :
  (forall x, x ∈ l -> f x = g x) -> omap f l = omap g l.
Proof.
  induction l as [|x l IH]; intros Hfg; [reflexivity|].
  assert (omap f l = omap g l) as Hl.
  { apply IH. intros y Hy. apply Hfg. right. exact Hy. }
  simpl. rewrite (Hfg x) by left.
  destruct (g x); [f_equal|]; exact Hl.
Qed.

(** Keeping the entries whose index satisfies [P] gives a sublist. *)
Lemma compact_sublist_from vs (P : nat -> Prop) `{!forall i, Decision (P i)} :
  forall k,
  omap (fun i => vs !! (i - k)%nat) (filter P (seq k (length vs)))
    `sublist_of` vs.
Proof.
  induction vs as [|v vs IH]; intros k; [constructor|].
  simpl length. simpl seq. rewrite filter_cons.
  assert (omap (fun i => (v :: vs) !! (i - k)%nat)
            (filter P (seq (S k) (length vs)))
          = omap (fun i => vs !! (i - S k)%nat)
              (filter P (seq (S k) (length vs)))) as Htail.
  { apply omap_ext_in. intros i Hi.
    apply list_elem_of_filter in Hi as [_ Hi]. apply elem_of_seq in Hi.
    replace (i - k)%nat with (S (i - S k)) by lia. reflexivity. }
  destruct (decide (P k)).
  - change (omap ?f (k :: ?t)) with
      (match f k with Some y => y :: omap f t | None => omap f t end).
    cbv beta. rewrite Nat.sub_diag. simpl lookup. rewrite Htail.
    apply sublist_skip. apply IH.
  - rewrite Htail. apply sublist_cons. apply IH.
Qed.

Lemma compact_sublist vs (P : nat -> Prop) `{!forall i, Decision (P i)} :
  omap (fun i => vs !! i) (filter P (seq 0 (length vs))) `sublist_of` vs.
Proof.
  erewrite omap_ext_in; [apply (compact_sublist_from vs P 0)|].
  intros i _. simpl. rewrite Nat.sub_0_r. reflexivity.
Qed.

Lemma filter_sublist (P : A -> Prop) `{!forall x, Decision (P x)} l1 l2 :
  l1 `sublist_of` l2 -> filter P l1 `sublist_of` filter P l2.
Proof.
  induction 1 as [|x l1 l2 Hs IH|x l1 l2 Hs IH]; [constructor| |].
  - rewrite !filter_cons. destruct (decide (P x)); [apply sublist_skip|]; exact IH.
  - rewrite filter_cons. destruct (decide (P x)); [apply sublist_cons|]; exact IH.
Qed.

(** Distinct entries that pass [P] differ under [f] when the image of
    the filtered list has no duplicate. *)
Lemma NoDup_fmap_filter_lookup {B} (f : A -> B) (P : A -> Prop)
    `{!forall x, Decision (P x)} l :
  NoDup (f <$> filter P l) ->
  forall i j x y, l !! i = Some x -> l !! j = Some y -> i <> j ->
    P x -> P y -> f x <> f y.
Proof.
  induction l as [|a l IH]; intros Hnd i j x y Hi Hj Hij Hx Hy.
  - inversion Hi.
  - rewrite filter_cons in Hnd.
    assert (forall k z, l !! k = Some z -> P z -> f z ∈ f <$> filter P l)
      as Hmem.
    { intros k z Hk Hz. apply list_elem_of_fmap_2.
      apply list_elem_of_filter. split; [exact Hz|].
      eapply list_elem_of_lookup_2. exact Hk. }
    destruct i as [|i], j as [|j]; simpl in Hi, Hj.
    + congruence.
    + inversion Hi; subst a. destruct (decide (P x)); [|contradiction].
      simpl in Hnd. apply NoDup_cons in Hnd as [Hnin _].
      intros Heq. apply Hnin. rewrite Heq. eapply Hmem; eauto.
    + inversion Hj; subst a. destruct (decide (P y)); [|contradiction].
      simpl in Hnd. apply NoDup_cons in Hnd as [Hnin _].
      intros Heq. apply Hnin. rewrite <- Heq. eapply Hmem; eauto.
    + destruct (decide (P a)).
      * simpl in Hnd. apply NoDup_cons in Hnd as [_ Hnd].
        eapply (IH Hnd i j); eauto.
      * eapply (IH Hnd i j); eauto.
Qed.

End ListFacts.

(** * Properties of the cubic extractor *)

Module CubicFacts.
Import Cubic.
Local Open Scope Z_scope.

(** ** Ambient occlusion *)

(** C6: for all booleans [side1], [side2], [corner] the occlusion value is
    0 when both sides occlude and [3 - (side1 + side2 + corner)] otherwise,
    and it always lies between 0 and 3. *)
Theorem vertexAmbientOcclusion_spec (side1 side2 corner : bool) :
  vertexAmbientOcclusion side1 side2 corner
  = (if side1 && side2 then 0
     else 3 - (Z.b2z side1 + Z.b2z side2 + Z.b2z corner))
  /\ 0 <= vertexAmbientOcclusion side1 side2 corner <= 3.
Proof.
  destruct side1, side2, corner; vm_compute; intuition congruence.
Qed.

Section QuadFacts.
Context {V : Type} `{EqDecision V} `{Inhabited V}.
Implicit Types (m : Mesh V) (q : Quad).

(** ** Quad merging *)

(** Two vertices carry the same material and the same occlusion. *)
Definition attributeEqual m (a b : Z) : Prop :=
  data (getVertex m a) = data (getVertex m b)
  /\ ambientOcclusion (getVertex m a) = ambientOcclusion (getVertex m b).

Definition cornersAttributeEqual m q1 q2 : Prop :=
  attributeEqual m (vert0 q1) (vert0 q2)
  /\ attributeEqual m (vert1 q1) (vert1 q2)
  /\ attributeEqual m (vert2 q1) (vert2 q2)
  /\ attributeEqual m (vert3 q1) (vert3 q2).

(** The four shared-edge orientations, in the order they are tried. *)
Definition sharesEdge1 q1 q2 : Prop := vert0 q1 = vert1 q2 /\ vert3 q1 = vert2 q2.
Definition sharesEdge2 q1 q2 : Prop := vert3 q1 = vert0 q2 /\ vert2 q1 = vert1 q2.
Definition sharesEdge3 q1 q2 : Prop := vert1 q1 = vert0 q2 /\ vert2 q1 = vert3 q2.
Definition sharesEdge4 q1 q2 : Prop := vert0 q1 = vert3 q2 /\ vert1 q1 = vert2 q2.

Definition sharesEdge q1 q2 : Prop :=
  sharesEdge1 q1 q2 \/ sharesEdge2 q1 q2 \/ sharesEdge3 q1 q2 \/ sharesEdge4 q1 q2.

Lemma isSameVertex_iff m a b :
  isSameVertex (getVertex m a) (getVertex m b) = true <-> attributeEqual m a b.
Proof.
  unfold isSameVertex, attributeEqual.
  rewrite andb_true_iff, bool_decide_eq_true, Z.eqb_eq. tauto.
Qed.

Lemma sameCorners_iff m q1 q2 :
  isSameVertex (getVertex m (vert0 q1)) (getVertex m (vert0 q2))
  && isSameVertex (getVertex m (vert1 q1)) (getVertex m (vert1 q2))
  && isSameVertex (getVertex m (vert2 q1)) (getVertex m (vert2 q2))
  && isSameVertex (getVertex m (vert3 q1)) (getVertex m (vert3 q2)) = true
  <-> cornersAttributeEqual m q1 q2.
Proof.
  unfold cornersAttributeEqual.
  rewrite !andb_true_iff, !isSameVertex_iff. tauto.
Qed.

Lemma edgeTest_iff (a b c d : Z) :
  (a =? b) && (c =? d) = true <-> a = b /\ c = d.
Proof. rewrite andb_true_iff, !Z.eqb_eq. tauto. Qed.

Lemma edgeTest_false (a b c d : Z) :
  (a =? b) && (c =? d) = false <-> ~ (a = b /\ c = d).
Proof. rewrite <- edgeTest_iff. destruct ((a =? b) && (c =? d)); intuition congruence. Qed.

(** [mergeQuads] when the attribute test fails. *)
Lemma mergeQuads_attr_fail m q1 q2 :
  ~ cornersAttributeEqual m q1 q2 -> mergeQuads q1 q2 m = (false, q1).
Proof.
  intros Hn. unfold mergeQuads. cbv zeta.
  destruct (_ && _ && _ && _) eqn:E; [|reflexivity].
  apply sameCorners_iff in E. contradiction.
Qed.

(** [mergeQuads] when the attribute test passes: the cascade of the four
    orientation tests. *)
Lemma mergeQuads_attr_ok m q1 q2 :
  cornersAttributeEqual m q1 q2 ->
  mergeQuads q1 q2 m =
    if (vert0 q1 =? vert1 q2) && (vert3 q1 =? vert2 q2) then
      (true, mkQuad (vert0 q2) (vert1 q1) (vert2 q1) (vert3 q2))
    else if (vert3 q1 =? vert0 q2) && (vert2 q1 =? vert1 q2) then
      (true, mkQuad (vert0 q1) (vert1 q1) (vert2 q2) (vert3 q2))
    else if (vert1 q1 =? vert0 q2) && (vert2 q1 =? vert3 q2) then
      (true, mkQuad (vert0 q1) (vert1 q2) (vert2 q2) (vert3 q1))
    else if (vert0 q1 =? vert3 q2) && (vert1 q1 =? vert2 q2) then
      (true, mkQuad (vert0 q2) (vert1 q2) (vert2 q1) (vert3 q1))
    else (false, q1).
Proof.
  intros Ha. apply sameCorners_iff in Ha.
  unfold mergeQuads. cbv zeta. rewrite Ha. reflexivity.
Qed.

Lemma mergeQuads_true_iff m q1 q2 :
  fst (mergeQuads q1 q2 m) = true
  <-> cornersAttributeEqual m q1 q2 /\ sharesEdge q1 q2.
Proof.
  destruct (decide (cornersAttributeEqual m q1 q2)) as [Ha|Hn].
  - rewrite (mergeQuads_attr_ok _ _ _ Ha).
    unfold sharesEdge, sharesEdge1, sharesEdge2, sharesEdge3, sharesEdge4.
    rewrite <- !edgeTest_iff.
    destruct (_ && _); [simpl; tauto|].
    destruct (_ && _); [simpl; tauto|].
    destruct (_ && _); [simpl; tauto|].
    destruct (_ && _); simpl; intuition congruence.
  - rewrite (mergeQuads_attr_fail _ _ _ Hn). simpl. intuition congruence.
Qed.

(** A pass over a list of two quads. *)
Lemma performQuadMerging_pair m q1 q2 :
  performQuadMerging [q1; q2] m =
    if fst (mergeQuads q1 q2 m) then ([snd (mergeQuads q1 q2 m)], true)
    else ([q1; q2], false).
Proof.
  unfold performQuadMerging. simpl.
  destruct (mergeQuads q1 q2 m) as [[] q]; reflexivity.
Qed.

(** C7: [mergeQuads] merges exactly when the four corresponding corners
    are attribute-equal and the index arrays satisfy one of the four
    shared-edge orientations; the first orientation that matches replaces
    the two shared corners of [q1] by the opposite corners of [q2]; a
    merged [q2] is erased from the list, and when nothing matches both
    quads stay as they were. *)
Theorem mergeQuads_spec m q1 q2 :
  (fst (mergeQuads q1 q2 m) = true
   <-> cornersAttributeEqual m q1 q2 /\ sharesEdge q1 q2)
  /\ (cornersAttributeEqual m q1 q2 -> sharesEdge1 q1 q2 ->
      mergeQuads q1 q2 m
      = (true, mkQuad (vert0 q2) (vert1 q1) (vert2 q1) (vert3 q2)))
  /\ (cornersAttributeEqual m q1 q2 ->
      ~ sharesEdge1 q1 q2 -> sharesEdge2 q1 q2 ->
      mergeQuads q1 q2 m
      = (true, mkQuad (vert0 q1) (vert1 q1) (vert2 q2) (vert3 q2)))
  /\ (cornersAttributeEqual m q1 q2 ->
      ~ sharesEdge1 q1 q2 -> ~ sharesEdge2 q1 q2 -> sharesEdge3 q1 q2 ->
      mergeQuads q1 q2 m
      = (true, mkQuad (vert0 q1) (vert1 q2) (vert2 q2) (vert3 q1)))
  /\ (cornersAttributeEqual m q1 q2 ->
      ~ sharesEdge1 q1 q2 -> ~ sharesEdge2 q1 q2 -> ~ sharesEdge3 q1 q2 ->
      sharesEdge4 q1 q2 ->
      mergeQuads q1 q2 m
      = (true, mkQuad (vert0 q2) (vert1 q2) (vert2 q1) (vert3 q1)))
  /\ (~ (cornersAttributeEqual m q1 q2 /\ sharesEdge q1 q2) ->
      mergeQuads q1 q2 m = (false, q1)
      /\ performQuadMerging [q1; q2] m = ([q1; q2], false))
  /\ (cornersAttributeEqual m q1 q2 /\ sharesEdge q1 q2 ->
      performQuadMerging [q1; q2] m = ([snd (mergeQuads q1 q2 m)], true)).
Proof.
  split; [apply mergeQuads_true_iff|].
  unfold sharesEdge1, sharesEdge2, sharesEdge3, sharesEdge4.
  refine (conj _ (conj _ (conj _ (conj _ (conj _ _))))).
  - intros Ha H1. rewrite (mergeQuads_attr_ok _ _ _ Ha).
    apply edgeTest_iff in H1. rewrite H1. reflexivity.
  - intros Ha H1 H2. rewrite (mergeQuads_attr_ok _ _ _ Ha).
    apply edgeTest_false in H1. apply edgeTest_iff in H2.
    rewrite H1, H2. reflexivity.
  - intros Ha H1 H2 H3. rewrite (mergeQuads_attr_ok _ _ _ Ha).
    apply edgeTest_false in H1. apply edgeTest_false in H2.
    apply edgeTest_iff in H3. rewrite H1, H2, H3. reflexivity.
  - intros Ha H1 H2 H3 H4. rewrite (mergeQuads_attr_ok _ _ _ Ha).
    apply edgeTest_false in H1. apply edgeTest_false in H2.
    apply edgeTest_false in H3. apply edgeTest_iff in H4.
    rewrite H1, H2, H3, H4. reflexivity.
  - intros Hn. rewrite performQuadMerging_pair.
    pose proof (mergeQuads_true_iff m q1 q2) as Hiff.
    destruct (mergeQuads q1 q2 m) as [[] q] eqn:E; simpl in Hiff |- *.
    + exfalso. apply Hn. apply Hiff. reflexivity.
    + split; [|reflexivity]. f_equal.
      unfold mergeQuads in E. cbv zeta in E.
      repeat (destruct (_ && _) in E; try discriminate); congruence.
  - intros Hm. rewrite performQuadMerging_pair.
    apply mergeQuads_true_iff in Hm. rewrite Hm. reflexivity.
Qed.

(** *** The merging loops run to their end *)

Lemma mergeInner_cons q1 q2 tl m :
  mergeInner q1 (q2 :: tl) m =
    if fst (mergeQuads q1 q2 m) then
      ((mergeInner (snd (mergeQuads q1 q2 m)) tl m).1.1,
       (mergeInner (snd (mergeQuads q1 q2 m)) tl m).1.2, true)
    else
      ((mergeInner q1 tl m).1.1, q2 :: (mergeInner q1 tl m).1.2,
       (mergeInner q1 tl m).2).
Proof.
  simpl. destruct (mergeQuads q1 q2 m) as [[] q1']; simpl.
  - destruct (mergeInner q1' tl m) as [[? ?] ?]. reflexivity.
  - destruct (mergeInner q1 tl m) as [[? ?] ?]. reflexivity.
Qed.

Lemma mergeInner_length m : forall rest q1,
  (length (mergeInner q1 rest m).1.2 <= length rest)%nat
  /\ ((mergeInner q1 rest m).2 = true ->
      (length (mergeInner q1 rest m).1.2 < length rest)%nat).
Proof.
  induction rest as [|q2 tl IH]; intros q1.
  - simpl. split; [lia|discriminate].
  - rewrite mergeInner_cons. destruct (fst (mergeQuads q1 q2 m)); simpl.
    + destruct (IH (snd (mergeQuads q1 q2 m))) as [Hle _]. lia.
    + destruct (IH q1) as [Hle Hlt]. split; [lia|].
      intros Hb. specialize (Hlt Hb). lia.
Qed.

Lemma mergeInner_unchanged m : forall rest q1,
  (mergeInner q1 rest m).2 = false -> mergeInner q1 rest m = (q1, rest, false).
Proof.
  induction rest as [|q2 tl IH]; intros q1 Hb; [reflexivity|].
  rewrite mergeInner_cons in Hb |- *.
  destruct (fst (mergeQuads q1 q2 m)); simpl in Hb; [discriminate|].
  rewrite (IH q1 Hb). reflexivity.
Qed.

Lemma mergeOuter_cons fuel q1 rest m :
  mergeOuter (S fuel) (q1 :: rest) m =
    ((mergeInner q1 rest m).1.1
       :: fst (mergeOuter fuel (mergeInner q1 rest m).1.2 m),
     (mergeInner q1 rest m).2
     || snd (mergeOuter fuel (mergeInner q1 rest m).1.2 m)).
Proof.
  simpl. destruct (mergeInner q1 rest m) as [[q1' rest'] b]. simpl.
  destruct (mergeOuter fuel rest' m). reflexivity.
Qed.

(** With at least as much fuel as quads the outer loop never stops
    early. *)
Lemma mergeOuter_fuel m : forall f1 f2 quads,
  (length quads <= f1)%nat -> (length quads <= f2)%nat ->
  mergeOuter f1 quads m = mergeOuter f2 quads m.
Proof.
  induction f1 as [|f1 IH]; intros f2 quads H1 H2.
  - destruct quads; [|simpl in H1; lia]. destruct f2; reflexivity.
  - destruct quads as [|q1 rest]; [destruct f2; reflexivity|].
    destruct f2 as [|f2]; [simpl in H2; lia|].
    rewrite !mergeOuter_cons.
    pose proof (mergeInner_length m rest q1) as [Hle _].
    simpl in H1, H2.
    rewrite (IH f2) by lia. reflexivity.
Qed.

Lemma mergeOuter_length m : forall fuel quads,
  (length (mergeOuter fuel quads m).1 <= length quads)%nat
  /\ ((mergeOuter fuel quads m).2 = true ->
      (length (mergeOuter fuel quads m).1 < length quads)%nat).
Proof.
  induction fuel as [|fuel IH]; intros quads.
  - simpl. split; [lia|discriminate].
  - destruct quads as [|q1 rest]; [simpl; split; [lia|discriminate]|].
    rewrite mergeOuter_cons. simpl.
    pose proof (mergeInner_length m rest q1) as [Hle Hlt].
    destruct (IH (mergeInner q1 rest m).1.2) as [Hle' Hlt'].
    split; [lia|]. intros Hb. apply orb_true_iff in Hb as [Hb|Hb].
    + specialize (Hlt Hb). lia.
    + specialize (Hlt' Hb). lia.
Qed.

Lemma mergeOuter_unchanged m : forall fuel quads,
  (mergeOuter fuel quads m).2 = false -> (mergeOuter fuel quads m).1 = quads.
Proof.
  induction fuel as [|fuel IH]; intros quads Hb; [reflexivity|].
  destruct quads as [|q1 rest]; [reflexivity|].
  rewrite mergeOuter_cons in Hb |- *. simpl in Hb |- *.
  apply orb_false_iff in Hb as [Hb1 Hb2].
  rewrite (mergeInner_unchanged m rest q1 Hb1) in Hb2 |- *. simpl in Hb2 |- *.
  rewrite (IH rest Hb2). reflexivity.
Qed.

(** A pass that merges shortens the list; a pass that does not leaves it
    as it is. *)
Lemma performQuadMerging_length quads m :
  (length (performQuadMerging quads m).1 <= length quads)%nat
  /\ ((performQuadMerging quads m).2 = true ->
      (length (performQuadMerging quads m).1 < length quads)%nat)
  /\ ((performQuadMerging quads m).2 = false ->
      (performQuadMerging quads m).1 = quads).
Proof.
  unfold performQuadMerging.
  destruct (mergeOuter_length m (length quads) quads) as [Hle Hlt].
  split; [exact Hle|]. split; [exact Hlt|]. apply mergeOuter_unchanged.
Qed.

(** The fuel given to [mergeUntilStable] is enough: the list it returns
    is one on which [performQuadMerging] reports no merge, as when the
    [while] loop exits. *)
Lemma mergeUntilStable_stable m : forall fuel quads,
  (length quads < fuel)%nat ->
  (performQuadMerging (mergeUntilStable fuel quads m) m).2 = false.
Proof.
  induction fuel as [|fuel IH]; intros quads Hfuel; [lia|].
  simpl. destruct (performQuadMerging_length quads m) as (Hle & Hlt & Hsame).
  destruct (performQuadMerging quads m) as [quads' b] eqn:Hp.
  simpl in Hle, Hlt, Hsame. destruct b.
  - apply IH. specialize (Hlt eq_refl). lia.
  - rewrite (Hsame eq_refl), Hp. reflexivity.
Qed.

(** *** Merging reads the vertex table only *)

Lemma getVertex_ext m m' i :
  m_vecVertices m = m_vecVertices m' -> getVertex m i = getVertex m' i.
Proof. intros Hv. unfold getVertex. rewrite Hv. reflexivity. Qed.

Lemma mergeQuads_ext m m' q1 q2 :
  m_vecVertices m = m_vecVertices m' -> mergeQuads q1 q2 m = mergeQuads q1 q2 m'.
Proof.
  intros Hv. unfold mergeQuads.
  rewrite !(getVertex_ext m m' _ Hv). reflexivity.
Qed.

Lemma mergeInner_ext m m' :
  m_vecVertices m = m_vecVertices m' ->
  forall rest q1, mergeInner q1 rest m = mergeInner q1 rest m'.
Proof.
  intros Hv. induction rest as [|q2 tl IH]; intros q1; [reflexivity|].
  rewrite !mergeInner_cons, (mergeQuads_ext m m' _ _ Hv), !IH. reflexivity.
Qed.

Lemma mergeOuter_ext m m' :
  m_vecVertices m = m_vecVertices m' ->
  forall fuel quads, mergeOuter fuel quads m = mergeOuter fuel quads m'.
Proof.
  intros Hv. induction fuel as [|fuel IH]; intros quads; [reflexivity|].
  destruct quads as [|q1 rest]; [reflexivity|].
  rewrite !mergeOuter_cons, (mergeInner_ext m m' Hv), !IH. reflexivity.
Qed.

Lemma mergeUntilStable_ext m m' :
  m_vecVertices m = m_vecVertices m' ->
  forall fuel quads, mergeUntilStable fuel quads m = mergeUntilStable fuel quads m'.
Proof.
  intros Hv. induction fuel as [|fuel IH]; intros quads; [reflexivity|].
  simpl. unfold performQuadMerging. rewrite (mergeOuter_ext m m' Hv).
  destruct (mergeOuter _ _ _) as [quads' []]; [apply IH|reflexivity].
Qed.

Lemma survivingQuads_ext b m m' l :
  m_vecVertices m = m_vecVertices m' ->
  survivingQuads b m l = survivingQuads b m' l.
Proof.
  intros Hv. unfold survivingQuads. destruct b; [|reflexivity].
  apply mergeUntilStable_ext. exact Hv.
Qed.

(** *** What the triangulation appends *)

(** The nine indices [triangulateQuad] appends for [q]. *)
Definition emittedIndices m q : list Z :=
  (if ambientOcclusion (getVertex m (vert0 q))
      + ambientOcclusion (getVertex m (vert2 q))
      <? ambientOcclusion (getVertex m (vert3 q))
         + ambientOcclusion (getVertex m (vert1 q))
   then [vert1 q; vert2 q; vert3 q; vert1 q; vert3 q; vert0 q]
   else [vert0 q; vert1 q; vert2 q; vert0 q; vert2 q; vert3 q])
  ++ [vert0 q; vert2 q; vert3 q].

Lemma emittedIndices_length m q : length (emittedIndices m q) = 9%nat.
Proof. unfold emittedIndices. destruct (_ <? _); reflexivity. Qed.

Lemma emittedIndices_ext m m' q :
  m_vecVertices m = m_vecVertices m' -> emittedIndices m q = emittedIndices m' q.
Proof.
  intros Hv. unfold emittedIndices.
  rewrite !(getVertex_ext m m' _ Hv). reflexivity.
Qed.

Lemma triangulateQuad_appends m q :
  m_vecIndices (triangulateQuad m q) = m_vecIndices m ++ emittedIndices m q
  /\ m_vecVertices (triangulateQuad m q) = m_vecVertices m.
Proof.
  unfold triangulateQuad, emittedIndices. cbv zeta.
  destruct (_ <? _); simpl; rewrite <- !app_assoc; split; reflexivity.
Qed.

Lemma triangulate_all_appends : forall qs m,
  m_vecIndices (foldl triangulateQuad m qs)
  = m_vecIndices m ++ concat (map (emittedIndices m) qs)
  /\ m_vecVertices (foldl triangulateQuad m qs) = m_vecVertices m.
Proof.
  induction qs as [|q qs IH]; intros m.
  - simpl. rewrite app_nil_r. split; reflexivity.
  - simpl. destruct (triangulateQuad_appends m q) as [Hi Hv].
    destruct (IH (triangulateQuad m q)) as [Hi' Hv'].
    rewrite Hi', Hv', Hi, <- app_assoc. split; [|exact Hv].
    assert (map (emittedIndices (triangulateQuad m q)) qs
            = map (emittedIndices m) qs) as ->; [|reflexivity].
    apply map_ext. intros q'. apply emittedIndices_ext. exact Hv.
Qed.

Lemma emitList_appends b m l :
  m_vecIndices (emitList b m l)
  = m_vecIndices m ++ concat (map (emittedIndices m) (survivingQuads b m l))
  /\ m_vecVertices (emitList b m l) = m_vecVertices m.
Proof. unfold emitList. apply triangulate_all_appends. Qed.

Lemma emitFace_appends b : forall ls m,
  m_vecIndices (emitFace b m ls)
  = m_vecIndices m
    ++ concat (map (emittedIndices m) (concat (map (survivingQuads b m) ls)))
  /\ m_vecVertices (emitFace b m ls) = m_vecVertices m.
Proof.
  unfold emitFace.
  induction ls as [|l ls IH]; intros m.
  - simpl. rewrite app_nil_r. split; reflexivity.
  - simpl. destruct (emitList_appends b m l) as [Hi Hv].
    destruct (IH (emitList b m l)) as [Hi' Hv'].
    rewrite Hi', Hv', Hi, <- app_assoc, map_app, concat_app.
    split; [|exact Hv].
    assert (map (survivingQuads b (emitList b m l)) ls
            = map (survivingQuads b m) ls) as ->.
    { apply map_ext. intros l'. apply survivingQuads_ext. exact Hv. }
    assert (forall qs, map (emittedIndices (emitList b m l)) qs
                       = map (emittedIndices m) qs) as ->; [|reflexivity].
    intros qs. apply map_ext. intros q. apply emittedIndices_ext. exact Hv.
Qed.

Lemma emitFaces_appends b (st : ExtractorState V) : forall faces m,
  m_vecVertices m = m_vecVertices (result st) ->
  m_vecIndices
    (foldl (fun m uFace => emitFace b m (m_vecQuads st uFace)) m faces)
  = m_vecIndices m
    ++ concat (map (emittedIndices (result st))
         (concat (map (fun uFace =>
                    concat (map (survivingQuads b (result st))
                                (m_vecQuads st uFace)))
                  faces))).
Proof.
  induction faces as [|f faces IH]; intros m Hv.
  - simpl. rewrite app_nil_r. reflexivity.
  - simpl. destruct (emitFace_appends b (m_vecQuads st f) m) as [Hi Hv'].
    rewrite IH by congruence.
    rewrite Hi, <- app_assoc, map_app, concat_app.
    assert (map (survivingQuads b m) (m_vecQuads st f)
            = map (survivingQuads b (result st)) (m_vecQuads st f)) as ->.
    { apply map_ext. intros l. apply survivingQuads_ext. exact Hv. }
    assert (forall qs, map (emittedIndices m) qs
                       = map (emittedIndices (result st)) qs) as ->;
      [|reflexivity].
    intros qs. apply map_ext. intros q. apply emittedIndices_ext. exact Hv.
Qed.

Lemma emitAll_appends b (st : ExtractorState V) :
  m_vecIndices (emitAll b st)
  = m_vecIndices (result st)
    ++ concat (map (emittedIndices (result st)) (allSurvivingQuads b st)).
Proof. unfold emitAll, allSurvivingQuads. apply emitFaces_appends. reflexivity. Qed.

Lemma emitted_total_length m qs :
  length (concat (map (emittedIndices m) qs)) = (9 * length qs)%nat.
Proof.
  induction qs as [|q qs IH]; [reflexivity|].
  simpl concat. rewrite length_app, emittedIndices_length, IH. simpl. lia.
Qed.

End QuadFacts.

(** ** Vertex deduplication *)

Section AddVertexFacts.
Context {V : Type} `{EqDecision V} `{Inhabited V}.
Variables (uX uY uZ : Z) (uMaterialIn : V) (ao : Z).
Variables (existing : Array3 V) (mesh : Mesh V).

(** Slot [ct] at [(uX, uY)] holds a vertex. *)
Definition slotOccupied (ct : Z) : Prop := iIndex (existing uX uY ct) <> -1.

(** Slot [ct] at [(uX, uY)] records the material and occlusion asked for. *)
Definition slotMatches (ct : Z) : Prop :=
  uMaterial (existing uX uY ct) = uMaterialIn
  /\ entryAmbientOcclusion (existing uX uY ct) = ao.

(** Slots [lo .. hi-1] are all occupied and none matches. *)
Definition slotsBlocked (lo hi : Z) : Prop :=
  forall j, lo <= j < hi -> slotOccupied j /\ ~ slotMatches j.

(** What [addVertex] leaves behind when it allocates in slot [ct]. *)
Definition allocatedIn (ct : Z) : Array3 V * Mesh V :=
  (arraySet existing uX uY ct
     (mkIndexAndMaterial (Z.of_nat (length (m_vecVertices mesh))) uMaterialIn ao),
   mkMesh (m_vecVertices mesh
             ++ [mkCubicVertex (uint8 uX, uint8 uY, uint8 uZ) uMaterialIn ao])
          (m_vecIndices mesh) (m_offset mesh)).

Lemma matchTest_iff ct :
  bool_decide (uMaterial (existing uX uY ct) = uMaterialIn)
  && (entryAmbientOcclusion (existing uX uY ct) =? ao) = true
  <-> slotMatches ct.
Proof.
  unfold slotMatches. rewrite andb_true_iff, bool_decide_eq_true, Z.eqb_eq.
  tauto.
Qed.

Lemma addVertexFrom_skip n ct :
  slotOccupied ct -> ~ slotMatches ct ->
  addVertexFrom (S n) ct uX uY uZ uMaterialIn ao (existing, mesh)
  = addVertexFrom n (ct + 1) uX uY uZ uMaterialIn ao (existing, mesh).
Proof.
  intros Ho Hm. simpl.
  apply Z.eqb_neq in Ho. rewrite Ho.
  destruct (_ && _) eqn:E; [|reflexivity].
  apply matchTest_iff in E. contradiction.
Qed.

Lemma addVertexFrom_reuse n ct :
  slotOccupied ct -> slotMatches ct ->
  addVertexFrom (S n) ct uX uY uZ uMaterialIn ao (existing, mesh)
  = Ok (iIndex (existing uX uY ct)) (existing, mesh).
Proof.
  intros Ho Hm. simpl.
  apply Z.eqb_neq in Ho. rewrite Ho.
  apply matchTest_iff in Hm. rewrite Hm. reflexivity.
Qed.

Lemma addVertexFrom_fresh n ct :
  ~ slotOccupied ct ->
  addVertexFrom (S n) ct uX uY uZ uMaterialIn ao (existing, mesh)
  = Ok (Z.of_nat (length (m_vecVertices mesh))) (allocatedIn ct).
Proof.
  intros Ho. simpl.
  assert (iIndex (existing uX uY ct) = -1) as ->
    by (unfold slotOccupied in Ho; lia).
  reflexivity.
Qed.

Lemma slotsBlocked_head lo hi :
  lo < hi -> slotsBlocked lo hi ->
  slotOccupied lo /\ ~ slotMatches lo /\ slotsBlocked (lo + 1) hi.
Proof.
  intros Hlt Hb. split; [|split].
  - apply (Hb lo). lia.
  - apply (Hb lo). lia.
  - intros j Hj. apply Hb. lia.
Qed.

(** The loop passes over a blocked prefix. *)
Lemma addVertexFrom_advance k : forall n ct,
  slotsBlocked ct (ct + Z.of_nat k) ->
  addVertexFrom (k + n) ct uX uY uZ uMaterialIn ao (existing, mesh)
  = addVertexFrom n (ct + Z.of_nat k) uX uY uZ uMaterialIn ao (existing, mesh).
Proof.
  induction k as [|k IH]; intros n ct Hb.
  - simpl. rewrite Z.add_0_r. reflexivity.
  - replace (S k + n)%nat with (S (k + n)) by lia.
    destruct (slotsBlocked_head ct (ct + Z.of_nat (S k))) as (Ho & Hm & Hb');
      [lia|assumption|].
    rewrite addVertexFrom_skip by assumption.
    rewrite IH.
    + f_equal. lia.
    + intros j Hj. apply Hb'. lia.
Qed.

Lemma addVertexFrom_exhausted n ct :
  slotsBlocked ct (ct + Z.of_nat n) ->
  addVertexFrom n ct uX uY uZ uMaterialIn ao (existing, mesh)
  = Throw VertexSlotExhausted (existing, mesh).
Proof.
  intros Hb. replace n with (n + 0)%nat at 1 by lia.
  rewrite addVertexFrom_advance by assumption. reflexivity.
Qed.

Lemma addVertexFrom_throw_inv : forall n ct e s,
  addVertexFrom n ct uX uY uZ uMaterialIn ao (existing, mesh) = Throw e s ->
  e = VertexSlotExhausted /\ s = (existing, mesh)
  /\ slotsBlocked ct (ct + Z.of_nat n).
Proof.
  induction n as [|n IH]; intros ct e s Hr.
  - simpl in Hr. inversion Hr. split; [reflexivity|split; [reflexivity|]].
    intros j Hj. lia.
  - simpl in Hr.
    destruct (iIndex (existing uX uY ct) =? -1) eqn:Ho; [discriminate|].
    destruct (_ && _) eqn:Hm; [discriminate|].
    apply IH in Hr as (-> & -> & Hb).
    split; [reflexivity|split; [reflexivity|]].
    intros j Hj. destruct (decide (j = ct)) as [->|Hne].
    + split.
      * apply Z.eqb_neq in Ho. exact Ho.
      * intros Hc. apply matchTest_iff in Hc. congruence.
    + apply Hb. lia.
Qed.

(** Every run of the probing loop ends in one of three ways. *)
Lemma addVertexFrom_outcome : forall n ct,
  let run := addVertexFrom n ct uX uY uZ uMaterialIn ao (existing, mesh) in
  (exists k, ct <= k < ct + Z.of_nat n /\ slotsBlocked ct k
             /\ slotOccupied k /\ slotMatches k
             /\ run = Ok (iIndex (existing uX uY k)) (existing, mesh))
  \/ (exists k, ct <= k < ct + Z.of_nat n /\ slotsBlocked ct k
                /\ ~ slotOccupied k
                /\ run = Ok (Z.of_nat (length (m_vecVertices mesh)))
                            (allocatedIn k))
  \/ (slotsBlocked ct (ct + Z.of_nat n)
      /\ run = Throw VertexSlotExhausted (existing, mesh)).
Proof.
  induction n as [|n IH]; intros ct run; subst run.
  - right. right. split; [intros j Hj; lia|reflexivity].
  - destruct (decide (slotOccupied ct)) as [Ho|Ho].
    + destruct (decide (slotMatches ct)) as [Hm|Hm].
      * left. exists ct. split; [lia|]. split; [intros j Hj; lia|].
        split; [exact Ho|]. split; [exact Hm|].
        apply addVertexFrom_reuse; assumption.
      * rewrite addVertexFrom_skip by assumption.
        assert (forall k, slotsBlocked (ct + 1) k -> slotsBlocked ct k) as Hext.
        { intros k Hb j Hj. destruct (decide (j = ct)) as [->|Hne];
            [split; assumption|apply Hb; lia]. }
        destruct (IH (ct + 1)) as [(k & Hk & Hb & Hr)|[(k & Hk & Hb & Hr)|(Hb & Hr)]].
        -- left. exists k. split; [lia|]. split; [auto|exact Hr].
        -- right. left. exists k. split; [lia|]. split; [auto|exact Hr].
        -- right. right. split; [|exact Hr].
           apply Hext. intros j Hj. apply Hb. lia.
    + right. left. exists ct. split; [lia|]. split; [intros j Hj; lia|].
      split; [exact Ho|]. apply addVertexFrom_fresh. exact Ho.
Qed.

End AddVertexFacts.

Section AddVertexSpec.
Context {V : Type} `{EqDecision V} `{Inhabited V}.

(** C4: [addVertex] probes the eight slots at [(uX, uY)] in order.  The
    first slot that is occupied and matches [(material, ao)] gives its
    stored index and nothing is added; the first slot that is empty gets
    exactly one new vertex with the given position, material and
    occlusion, recorded in the slot, and its index is returned; the
    slot-exhausted error is raised, leaving buffer and mesh as they were,
    exactly when all eight slots are occupied and none matches. *)
Theorem addVertex_spec (uX uY uZ : Z) (uMaterialIn face1 face2 corner : V)
    (contributeToAO : V -> bool) (existing : Array3 V) (mesh : Mesh V) :
  let ao := vertexAmbientOcclusion (contributeToAO face1)
              (contributeToAO face2) (contributeToAO corner) in
  let run := addVertex uX uY uZ uMaterialIn face1 face2 corner contributeToAO
               (existing, mesh) in
  let blocked := slotsBlocked uX uY uMaterialIn ao existing in
  (forall k, 0 <= k < 8 -> blocked 0 k ->
     slotOccupied uX uY existing k ->
     slotMatches uX uY uMaterialIn ao existing k ->
     run = Ok (iIndex (existing uX uY k)) (existing, mesh))
  /\ (forall k, 0 <= k < 8 -> blocked 0 k ->
        ~ slotOccupied uX uY existing k ->
        run = Ok (Z.of_nat (length (m_vecVertices mesh)))
                 (allocatedIn uX uY uZ uMaterialIn ao existing mesh k))
  /\ ((exists e s, run = Throw e s) <-> blocked 0 8)
  /\ (forall e s, run = Throw e s ->
        e = VertexSlotExhausted /\ s = (existing, mesh)).
Proof.
  intros ao run blocked. subst run blocked. unfold addVertex.
  fold ao. unfold MaxVerticesPerPosition.
  refine (conj _ (conj _ (conj _ _))).
  - intros k Hk Hb Ho Hm.
    replace 8%nat with (Z.to_nat k + S (Z.to_nat (7 - k)))%nat by lia.
    rewrite addVertexFrom_advance by (rewrite Z2Nat.id by lia; exact Hb).
    rewrite Z.add_0_l, Z2Nat.id by lia.
    apply addVertexFrom_reuse; assumption.
  - intros k Hk Hb Ho.
    replace 8%nat with (Z.to_nat k + S (Z.to_nat (7 - k)))%nat by lia.
    rewrite addVertexFrom_advance by (rewrite Z2Nat.id by lia; exact Hb).
    rewrite Z.add_0_l, Z2Nat.id by lia.
    apply addVertexFrom_fresh; assumption.
  - split.
    + intros (e & s & Hr). apply addVertexFrom_throw_inv in Hr.
      apply Hr.
    + intros Hb. eexists _, _. apply addVertexFrom_exhausted. exact Hb.
  - intros e s Hr. apply addVertexFrom_throw_inv in Hr. tauto.
Qed.

End AddVertexSpec.

(** ** The invariant of the sweep *)

Section SweepInvariant.
Context {V : Type} `{EqDecision V} `{Inhabited V}.
Implicit Types (vs : list (CubicVertex V)) (a : Array3 V) (p : Z * Z * Z).

Definition attributes (v : CubicVertex V) : V * Z :=
  (data v, ambientOcclusion v).

(** The vertices of [vs] that sit at the encoded position [p]. *)
Definition verticesAt vs p : list (CubicVertex V) :=
  filter (fun v => encodedPosition v = p) vs.

Definition attributesAt vs p : list (V * Z) := attributes <$> verticesAt vs p.

(** The (material, occlusion) pairs recorded in the first [n] slots. *)
Definition slotAttributes a (x y : Z) (n : nat) : list (V * Z) :=
  (fun ct => (uMaterial (a x y ct), entryAmbientOcclusion (a x y ct)))
    <$> seqZ 0 (Z.of_nat n).

(** The first [n] slots at [(x, y)] are taken, the others are free. *)
Definition slotsFilled a (x y : Z) (n : nat) : Prop :=
  (forall ct, 0 <= ct < Z.of_nat n -> iIndex (a x y ct) <> -1)
  /\ (forall ct, Z.of_nat n <= ct < 8 -> iIndex (a x y ct) = -1).

(** A slice buffer mirrors the vertices of the lattice plane [z]. *)
Definition planeInv vs a (z : Z) : Prop :=
  forall x y, 0 <= x <= 255 -> 0 <= y <= 255 ->
    exists n : nat, (n <= 8)%nat /\ slotsFilled a x y n
      /\ attributesAt vs (x, y, z) = slotAttributes a x y n
      /\ NoDup (slotAttributes a x y n).

(** At most eight vertices per position, pairwise different in
    (material, occlusion). *)
Definition meshInv vs : Prop :=
  forall p, NoDup (attributesAt vs p) /\ (length (attributesAt vs p) <= 8)%nat.

Definition boundedBy vs (zmax : Z) : Prop :=
  forall v, v ∈ vs ->
    0 <= (encodedPosition v).1.1 <= 255
    /\ 0 <= (encodedPosition v).1.2 <= 255
    /\ 0 <= (encodedPosition v).2 <= zmax.

Definition sweepInv (regZ : Z) (st : ExtractorState V) : Prop :=
  let vs := m_vecVertices (result st) in
  meshInv vs /\ boundedBy vs (regZ + 1)
  /\ planeInv vs (m_previousSliceVertices st) regZ
  /\ planeInv vs (m_currentSliceVertices st) (regZ + 1).

Lemma arraySet_eq a x y ct e : arraySet a x y ct e x y ct = e.
Proof. unfold arraySet. rewrite bool_decide_eq_true_2; auto. Qed.

Lemma arraySet_ne a x y ct e x' y' ct' :
  (x', y', ct') <> (x, y, ct) -> arraySet a x y ct e x' y' ct' = a x' y' ct'.
Proof.
  intros Hne. unfold arraySet. rewrite bool_decide_eq_false_2; [reflexivity|].
  intros (-> & -> & ->). congruence.
Qed.

Lemma attributesAt_snoc_here vs v :
  attributesAt (vs ++ [v]) (encodedPosition v)
  = attributesAt vs (encodedPosition v) ++ [attributes v].
Proof.
  unfold attributesAt, verticesAt. rewrite filter_app, fmap_app.
  f_equal. rewrite filter_cons_True by reflexivity. reflexivity.
Qed.

Lemma attributesAt_snoc_other vs v p :
  encodedPosition v <> p -> attributesAt (vs ++ [v]) p = attributesAt vs p.
Proof.
  intros Hne. unfold attributesAt, verticesAt. rewrite filter_app, fmap_app.
  rewrite filter_cons_False by exact Hne. simpl. apply app_nil_r.
Qed.

Lemma slotAttributes_S a x y n :
  slotAttributes a x y (S n)
  = slotAttributes a x y n
    ++ [(uMaterial (a x y (Z.of_nat n)),
         entryAmbientOcclusion (a x y (Z.of_nat n)))].
Proof.
  unfold slotAttributes. rewrite seqZ_S, fmap_app. simpl.
  rewrite Z.add_0_l. reflexivity.
Qed.

Lemma slotAttributes_ext a a' x y n :
  (forall ct, 0 <= ct < Z.of_nat n -> a' x y ct = a x y ct) ->
  slotAttributes a' x y n = slotAttributes a x y n.
Proof.
  intros Hext. unfold slotAttributes. apply list_fmap_ext.
  intros i ct Hct. apply lookup_seqZ in Hct as [-> Hi].
  rewrite Hext by lia. reflexivity.
Qed.

Lemma elem_of_slotAttributes a x y n ma :
  ma ∈ slotAttributes a x y n ->
  exists ct, 0 <= ct < Z.of_nat n
    /\ ma = (uMaterial (a x y ct), entryAmbientOcclusion (a x y ct)).
Proof.
  unfold slotAttributes. intros Hin.
  apply list_elem_of_fmap in Hin as (ct & -> & Hct).
  apply elem_of_seqZ in Hct. exists ct. split; [lia|reflexivity].
Qed.

Lemma length_slotAttributes a x y n : length (slotAttributes a x y n) = n.
Proof. unfold slotAttributes. rewrite length_fmap, length_seqZ. lia. Qed.

Lemma planeInv_snoc_other vs a z v :
  planeInv vs a z -> (encodedPosition v).2 <> z -> planeInv (vs ++ [v]) a z.
Proof.
  intros Hp Hz x y Hx Hy. destruct (Hp x y Hx Hy) as (n & Hn & Hf & Ha & Hd).
  exists n. rewrite attributesAt_snoc_other; [auto|].
  intros Heq. rewrite Heq in Hz. simpl in Hz. congruence.
Qed.

(** The free slot the probing loop stops at is the first free one. *)
Lemma first_free_slot a x y n k mat ao :
  slotsFilled a x y n -> (n <= 8)%nat -> 0 <= k < 8 ->
  slotsBlocked x y mat ao a 0 k -> ~ slotOccupied x y a k ->
  k = Z.of_nat n.
Proof.
  intros [Hocc Hfree] Hn Hk Hb Hempty.
  destruct (Z.lt_trichotomy k (Z.of_nat n)) as [Hlt|[Heq|Hgt]]; [|exact Heq|].
  - exfalso. apply Hempty. apply Hocc. lia.
  - exfalso. destruct (Hb (Z.of_nat n)) as [Ho _]; [lia|].
    apply Ho. apply Hfree. lia.
Qed.

Lemma planeInv_alloc vs a z x0 y0 k mat ao :
  planeInv vs a z -> 0 <= x0 <= 255 -> 0 <= y0 <= 255 -> 0 <= k < 8 ->
  slotsBlocked x0 y0 mat ao a 0 k -> ~ slotOccupied x0 y0 a k ->
  planeInv (vs ++ [mkCubicVertex (x0, y0, z) mat ao])
           (arraySet a x0 y0 k
              (mkIndexAndMaterial (Z.of_nat (length vs)) mat ao)) z
  /\ ((mat, ao) ∉ attributesAt vs (x0, y0, z))
  /\ (length (attributesAt vs (x0, y0, z)) < 8)%nat.
Proof.
  intros Hp Hx0 Hy0 Hk Hb Hempty.
  destruct (Hp x0 y0 Hx0 Hy0) as (n0 & Hn0 & Hf0 & Ha0 & Hd0).
  pose proof (first_free_slot _ _ _ _ _ _ _ Hf0 Hn0 Hk Hb Hempty) as Hkn.
  assert ((mat, ao) ∉ slotAttributes a x0 y0 n0) as Hfresh.
  { intros Hin. apply elem_of_slotAttributes in Hin as (ct & Hct & Heq).
    destruct (Hb ct) as [_ Hnm]; [lia|]. apply Hnm.
    unfold slotMatches. inversion Heq. split; reflexivity. }
  split; [|split].
  - intros x y Hx Hy.
    destruct (decide ((x, y) = (x0, y0))) as [Heq|Hne].
    + inversion Heq; subst x y. exists (S n0).
      split; [lia|]. split; [|split].
      * destruct Hf0 as [Hocc Hfree]. split.
        -- intros ct Hct. destruct (decide (ct = k)) as [->|Hck].
           ++ rewrite arraySet_eq. simpl. lia.
           ++ rewrite arraySet_ne by congruence. apply Hocc. lia.
        -- intros ct Hct. rewrite arraySet_ne by (intros [=]; lia).
           apply Hfree. lia.
      * change (x0, y0, z) with
          (encodedPosition (mkCubicVertex (x0, y0, z) mat ao)) at 2.
        rewrite attributesAt_snoc_here. simpl encodedPosition.
        rewrite Ha0, slotAttributes_S. f_equal.
        -- symmetry. apply slotAttributes_ext. intros ct Hct.
           apply arraySet_ne. intros [=]. lia.
        -- rewrite <- Hkn, arraySet_eq. reflexivity.
      * rewrite slotAttributes_S. apply NoDup_app. split; [|split].
        -- erewrite slotAttributes_ext; [exact Hd0|].
           intros ct Hct. apply arraySet_ne. intros [=]. lia.
        -- intros ma Hin Hin'. apply list_elem_of_singleton in Hin'.
           subst ma. rewrite <- Hkn, arraySet_eq in Hin. simpl in Hin.
           apply Hfresh. erewrite <- slotAttributes_ext; [exact Hin|].
           intros ct Hct. apply arraySet_ne. intros [=]. lia.
        -- apply NoDup_singleton.
    + destruct (Hp x y Hx Hy) as (n & Hn & Hf & Ha & Hd).
      exists n. split; [exact Hn|].
      assert (forall ct, arraySet a x0 y0 k
                (mkIndexAndMaterial (Z.of_nat (length vs)) mat ao) x y ct
              = a x y ct) as Hsame.
      { intros ct. apply arraySet_ne. intros [=]. congruence. }
      split; [|split].
      * destruct Hf as [Hocc Hfree].
        split; intros ct Hct; rewrite Hsame; auto.
      * rewrite attributesAt_snoc_other by (simpl; congruence).
        rewrite Ha. symmetry. apply slotAttributes_ext. auto.
      * erewrite slotAttributes_ext; [exact Hd|]. auto.
  - rewrite Ha0. exact Hfresh.
  - rewrite Ha0, length_slotAttributes. lia.
Qed.

Lemma meshInv_snoc vs v :
  meshInv vs ->
  attributes v ∉ attributesAt vs (encodedPosition v) ->
  (length (attributesAt vs (encodedPosition v)) < 8)%nat ->
  meshInv (vs ++ [v]).
Proof.
  intros Hm Hfresh Hlen p.
  destruct (decide (encodedPosition v = p)) as [<-|Hne].
  - rewrite attributesAt_snoc_here. split.
    + apply NoDup_app. split; [apply Hm|]. split; [|apply NoDup_singleton].
      intros ma Hin Hin'. apply list_elem_of_singleton in Hin'. subst ma.
      contradiction.
    + rewrite length_app. simpl. lia.
  - rewrite attributesAt_snoc_other by exact Hne. apply Hm.
Qed.

Lemma boundedBy_snoc vs v zmax :
  boundedBy vs zmax ->
  0 <= (encodedPosition v).1.1 <= 255 ->
  0 <= (encodedPosition v).1.2 <= 255 ->
  0 <= (encodedPosition v).2 <= zmax ->
  boundedBy (vs ++ [v]) zmax.
Proof.
  intros Hb Hx Hy Hz w Hw. apply elem_of_app in Hw as [Hw|Hw].
  - apply Hb. exact Hw.
  - apply list_elem_of_singleton in Hw. subst w. auto.
Qed.

Lemma uint8_small z : 0 <= z <= 255 -> uint8 z = z.
Proof. intros Hz. unfold uint8. apply Z.mod_small. lia. Qed.

Lemma uint32_small z : 0 <= z <= 255 -> uint32 z = z.
Proof. intros Hz. unfold uint32. apply Z.mod_small. lia. Qed.

End SweepInvariant.

Section SweepFacts.
Context {V : Type} `{EqDecision V} `{Inhabited V}.
Variable volData : Z -> Z -> Z -> V.
Variable isQuadNeeded : V -> V -> option V.
Variable contributeToAO : V -> bool.
Variable ffMaterial : V.
Variable region : Region.
Implicit Types (vs : list (CubicVertex V)).

(** The only exception the sweep can raise. *)
Definition onlyExhausted (e : Error) (_ : ExtractorState V) : Prop :=
  e = VertexSlotExhausted.

(** The lattice plane a slice buffer stands for while slice [regZ] is
    swept. *)
Definition planeOf (sel : SliceRef) (regZ : Z) : Z :=
  match sel with PreviousSlice => regZ | CurrentSlice => regZ + 1 end.

Lemma addVertexIn_inv regZ sel uX uY uZ material face1 face2 corner :
  0 <= regZ <= 254 -> 0 <= uX <= 255 -> 0 <= uY <= 255 ->
  uZ = planeOf sel regZ ->
  hoare (sweepInv regZ)
        (addVertexIn contributeToAO sel uX uY uZ material face1 face2 corner)
        (fun _ => sweepInv regZ) onlyExhausted.
Proof.
  intros HrZ HX HY HZ s (Hm & Hb & Hp & Hc).
  unfold addVertexIn, addVertex. cbv zeta.
  change MaxVerticesPerPosition with 8%nat.
  set (ao := vertexAmbientOcclusion _ _ _).
  destruct (addVertexFrom_outcome uX uY uZ material ao (getSlice sel s)
              (result s) 8 0)
    as [(k & Hk & Hblk & Ho & Hma & Hr)|[(k & Hk & Hblk & Ho & Hr)|(Hblk & Hr)]];
    rewrite Hr; clear Hr.
  - destruct sel; unfold sweepInv; simpl; tauto.
  - assert (0 <= uZ <= 255) as HZr by (subst uZ; destruct sel; simpl; lia).
    assert (0 <= k < 8) as Hk8 by lia.
    unfold allocatedIn. rewrite !uint8_small by assumption.
    destruct sel; simpl in HZ, Ho, Hblk; subst uZ; unfold sweepInv; simpl.
    + destruct (planeInv_alloc _ _ _ _ _ _ _ _ Hp HX HY Hk8 Hblk Ho)
        as (Hp' & Hfresh & Hlen).
      split; [|split; [|split]].
      * apply meshInv_snoc; assumption.
      * apply boundedBy_snoc; simpl; try lia. exact Hb.
      * exact Hp'.
      * apply planeInv_snoc_other; [exact Hc|simpl; lia].
    + destruct (planeInv_alloc _ _ _ _ _ _ _ _ Hc HX HY Hk8 Hblk Ho)
        as (Hc' & Hfresh & Hlen).
      split; [|split; [|split]].
      * apply meshInv_snoc; assumption.
      * apply boundedBy_snoc; simpl; try lia. exact Hb.
      * apply planeInv_snoc_other; [exact Hp|simpl; lia].
      * exact Hc'.
  - reflexivity.
Qed.

Lemma pushQuad_inv regZ face slice q :
  hoare (sweepInv regZ) (pushQuad face slice q)
        (fun _ => sweepInv regZ) onlyExhausted.
Proof. apply hoare_modify. intros s Hs. exact Hs. Qed.

(** The region passed the size check of [extractCubicMeshCustom]. *)
Definition regionFits : Prop :=
  getWidthInVoxels region <= 255 /\ getHeightInVoxels region <= 255
  /\ getDepthInVoxels region <= 255.

Ltac sweep_step :=
  match goal with
  | |- hoare _ (bind (match ?c with _ => _ end) _) _ _ =>
      eapply hoare_bind; [destruct c|intros ?]
  | |- hoare _ (match ?c with _ => _ end) _ _ => destruct c
  | |- hoare _ (bind (addVertexIn _ _ _ _ _ _ _ _ _) _) _ _ =>
      eapply hoare_bind;
      [apply addVertexIn_inv; [lia|lia|lia|simpl; lia]|intros ?]
  | |- hoare _ (pushQuad _ _ _) _ _ => apply pushQuad_inv
  | |- hoare _ (ret tt) _ _ => apply hoare_ret; intros; assumption
  end.

Lemma processVoxel_inv x y z :
  regionFits ->
  getLowerX region <= x <= getUpperX region ->
  getLowerY region <= y <= getUpperY region ->
  getLowerZ region <= z <= getUpperZ region ->
  hoare (sweepInv (z - getLowerZ region))
        (processVoxel volData isQuadNeeded contributeToAO region x y z)
        (fun _ => sweepInv (z - getLowerZ region)) onlyExhausted.
Proof.
  unfold regionFits, getWidthInVoxels, getHeightInVoxels, getDepthInVoxels.
  intros (HW & HH & HD) Hx Hy Hz.
  unfold processVoxel. cbv zeta.
  rewrite (uint32_small (x - getLowerX region)) by lia.
  rewrite (uint32_small (y - getLowerY region)) by lia.
  rewrite (uint32_small (z - getLowerZ region)) by lia.
  rewrite (uint32_small (x - getLowerX region + 1)) by lia.
  rewrite (uint32_small (y - getLowerY region + 1)) by lia.
  rewrite (uint32_small (z - getLowerZ region + 1)) by lia.
  repeat sweep_step.
Qed.

Lemma processRow_inv y z :
  regionFits ->
  getLowerY region <= y <= getUpperY region ->
  getLowerZ region <= z <= getUpperZ region ->
  hoare (sweepInv (z - getLowerZ region))
        (processRow volData isQuadNeeded contributeToAO region y z)
        (fun _ => sweepInv (z - getLowerZ region)) onlyExhausted.
Proof.
  intros Hfit Hy Hz. apply hoare_forEach. intros x Hx.
  apply elem_of_seqZ in Hx. apply processVoxel_inv; auto. lia.
Qed.

Lemma attributesAt_beyond vs x y z zmax :
  boundedBy vs zmax -> zmax < z -> attributesAt vs (x, y, z) = [].
Proof.
  intros Hb Hz. unfold attributesAt, verticesAt.
  induction vs as [|v vs IH]; [reflexivity|].
  rewrite filter_cons_False.
  - apply IH. intros w Hw. apply Hb. right. exact Hw.
  - intros Heq. destruct (Hb v) as (_ & _ & Hvz); [left|].
    rewrite Heq in Hvz. simpl in Hvz. lia.
Qed.

Lemma planeInv_cleared vs z zmax :
  boundedBy vs zmax -> zmax < z -> planeInv vs (clearedSlice ffMaterial) z.
Proof.
  intros Hb Hz x y Hx Hy. exists 0%nat.
  split; [lia|]. split; [|split].
  - split; intros ct Hct; [lia|reflexivity].
  - rewrite (attributesAt_beyond _ _ _ _ _ Hb Hz). reflexivity.
  - apply NoDup_nil_2.
Qed.

Lemma boundedBy_mono vs z1 z2 : boundedBy vs z1 -> z1 <= z2 -> boundedBy vs z2.
Proof.
  intros Hb Hle v Hv. destruct (Hb v Hv) as (Hx & Hy & Hz).
  repeat split; lia.
Qed.

Lemma nextSlice_inv regZ :
  hoare (sweepInv regZ) (nextSlice ffMaterial)
        (fun _ => sweepInv (regZ + 1)) onlyExhausted.
Proof.
  apply hoare_modify. intros s (Hm & Hb & Hp & Hc).
  unfold sweepInv. simpl. split; [exact Hm|]. split; [|split].
  - eapply boundedBy_mono; [exact Hb|lia].
  - exact Hc.
  - eapply planeInv_cleared; [exact Hb|lia].
Qed.

Lemma processSlice_inv z :
  regionFits ->
  getLowerZ region <= z <= getUpperZ region ->
  hoare (sweepInv (z - getLowerZ region))
        (processSlice volData isQuadNeeded contributeToAO ffMaterial region z)
        (fun _ => sweepInv (z + 1 - getLowerZ region)) onlyExhausted.
Proof.
  intros Hfit Hz. unfold processSlice. eapply hoare_bind.
  - apply hoare_forEach. intros y Hy. apply elem_of_seqZ in Hy.
    apply processRow_inv; auto. lia.
  - intros u.
    replace (z + 1 - getLowerZ region) with (z - getLowerZ region + 1) by lia.
    apply nextSlice_inv.
Qed.

Lemma seqZ_to_nat lo n : seqZ lo n = seqZ lo (Z.of_nat (Z.to_nat n)).
Proof.
  destruct (Z.le_gt_cases 0 n) as [Hn|Hn].
  - rewrite Z2Nat.id by exact Hn. reflexivity.
  - rewrite !seqZ_nil by lia. reflexivity.
Qed.

Lemma sweep_inv :
  regionFits ->
  hoare (sweepInv 0)
        (sweep volData isQuadNeeded contributeToAO ffMaterial region)
        (fun _ st => meshInv (m_vecVertices (result st))) onlyExhausted.
Proof.
  intros Hfit. unfold sweep. rewrite seqZ_to_nat.
  eapply hoare_weaken.
  - apply (hoare_forEach_seqZ
             (fun i => sweepInv (i - getLowerZ region)) onlyExhausted).
    intros i Hi. apply processSlice_inv; [exact Hfit|lia].
  - intros s Hs. simpl. rewrite Z.sub_diag. exact Hs.
  - intros u s Hs. apply Hs.
Qed.

Lemma sweepInv_initial (result0 : Mesh V) quads :
  sweepInv 0 (mkState (clear result0) (clearedSlice ffMaterial)
                      (clearedSlice ffMaterial) quads).
Proof.
  assert (boundedBy ([] : list (CubicVertex V)) (-1)) as Hb.
  { intros v Hv. inversion Hv. }
  unfold sweepInv. simpl. split; [|split; [|split]].
  - intros p. split; [apply NoDup_nil_2|simpl; lia].
  - eapply boundedBy_mono; [exact Hb|lia].
  - eapply planeInv_cleared; [exact Hb|lia].
  - eapply planeInv_cleared; [exact Hb|lia].
Qed.

Lemma triangulateQuad_vertices (m : Mesh V) q :
  m_vecVertices (triangulateQuad m q) = m_vecVertices m.
Proof. unfold triangulateQuad. cbv zeta. destruct (_ <? _); reflexivity. Qed.

Lemma foldl_vertices {X} (f : Mesh V -> X -> Mesh V) (l : list X) :
  (forall m x, m_vecVertices (f m x) = m_vecVertices m) ->
  forall m, m_vecVertices (foldl f m l) = m_vecVertices m.
Proof.
  intros Hf. induction l as [|x l IH]; intros m; [reflexivity|].
  simpl. rewrite IH. apply Hf.
Qed.

Lemma emitAll_vertices b (st : ExtractorState V) :
  m_vecVertices (emitAll b st) = m_vecVertices (result st).
Proof.
  unfold emitAll. apply foldl_vertices. intros m uFace.
  unfold emitFace. apply foldl_vertices. intros m' l.
  unfold emitList. apply foldl_vertices. apply triangulateQuad_vertices.
Qed.

Lemma removeUnusedVertices_sublist (m : Mesh V) :
  m_vecVertices (removeUnusedVertices m) `sublist_of` m_vecVertices m.
Proof. unfold removeUnusedVertices, usedPositions. simpl. apply compact_sublist. Qed.

Lemma meshInv_sublist vs vs' : vs' `sublist_of` vs -> meshInv vs -> meshInv vs'.
Proof.
  intros Hsub Hm p. destruct (Hm p) as [Hnd Hlen].
  assert (attributesAt vs' p `sublist_of` attributesAt vs p) as Hs.
  { unfold attributesAt, verticesAt. apply fmap_sublist.
    apply filter_sublist. exact Hsub. }
  split.
  - eapply sublist_NoDup; eassumption.
  - apply sublist_length in Hs. lia.
Qed.

Lemma regionFits_checks :
  (maxReionDimensionInVoxels <? getWidthInVoxels region) = false ->
  (maxReionDimensionInVoxels <? getHeightInVoxels region) = false ->
  (maxReionDimensionInVoxels <? getDepthInVoxels region) = false ->
  regionFits.
Proof.
  unfold regionFits, maxReionDimensionInVoxels.
  rewrite !Z.ltb_ge. auto.
Qed.

(** A normal return hands back a mesh that satisfies [meshInv]. *)
Lemma extract_meshInv bMergeQuads (result0 m : Mesh V) :
  extractCubicMeshCustom volData isQuadNeeded contributeToAO ffMaterial
    region bMergeQuads result0 = Ok tt m ->
  meshInv (m_vecVertices m).
Proof.
  unfold extractCubicMeshCustom.
  destruct (_ <? getWidthInVoxels region) eqn:HW; [discriminate|].
  destruct (_ <? getHeightInVoxels region) eqn:HH; [discriminate|].
  destruct (_ <? getDepthInVoxels region) eqn:HD; [discriminate|].
  pose proof (sweep_inv (regionFits_checks HW HH HD) _
                (sweepInv_initial result0 (initialQuads region))) as Hsw.
  destruct (sweep _ _ _ _ _ _) as [u st|e st]; [|discriminate].
  intros [= <-].
  eapply meshInv_sublist; [apply removeUnusedVertices_sublist|].
  simpl. rewrite emitAll_vertices. exact Hsw.
Qed.

(** C5: in every mesh the extractor returns, at most eight vertices share
    an encoded position, and two distinct vertices with the same encoded
    position differ in their (data, ambientOcclusion) pair. *)
Theorem extracted_vertices_per_position bMergeQuads (result0 m : Mesh V) :
  extractCubicMeshCustom volData isQuadNeeded contributeToAO ffMaterial
    region bMergeQuads result0 = Ok tt m ->
  (forall p, (length (verticesAt (m_vecVertices m) p) <= 8)%nat)
  /\ (forall i j vi vj,
        m_vecVertices m !! i = Some vi -> m_vecVertices m !! j = Some vj ->
        i <> j -> encodedPosition vi = encodedPosition vj ->
        (data vi, ambientOcclusion vi) <> (data vj, ambientOcclusion vj)).
Proof.
  intros Hrun. apply extract_meshInv in Hrun. split.
  - intros p. destruct (Hrun p) as [_ Hlen].
    unfold attributesAt in Hlen. rewrite length_fmap in Hlen. exact Hlen.
  - intros i j vi vj Hi Hj Hij Hpos.
    destruct (Hrun (encodedPosition vi)) as [Hnd _].
    apply (NoDup_fmap_filter_lookup attributes
             (fun v => encodedPosition v = encodedPosition vi)
             (m_vecVertices m) Hnd i j vi vj Hi Hj Hij);
      [reflexivity|symmetry; exact Hpos].
Qed.

(** The sweep raises nothing but the slot-exhausted error. *)
Lemma sweep_throws_only (st0 st : ExtractorState V) e :
  regionFits -> sweepInv 0 st0 ->
  sweep volData isQuadNeeded contributeToAO ffMaterial region st0 = Throw e st ->
  e = VertexSlotExhausted.
Proof.
  intros Hfit Hinv Hrun. pose proof (sweep_inv Hfit st0 Hinv) as Hsw.
  rewrite Hrun in Hsw. exact Hsw.
Qed.

(** C3: when the width, height or depth of the region exceeds 255 voxels
    the extraction raises the region-too-large error and leaves the
    caller's mesh as it was; when all three are at most 255 that error is
    not raised. *)
Theorem region_size_check bMergeQuads (result0 : Mesh V) :
  (255 < getWidthInVoxels region \/ 255 < getHeightInVoxels region
   \/ 255 < getDepthInVoxels region ->
   extractCubicMeshCustom volData isQuadNeeded contributeToAO ffMaterial
     region bMergeQuads result0 = Throw RegionTooLargeToEncode result0)
  /\ (getWidthInVoxels region <= 255 /\ getHeightInVoxels region <= 255
      /\ getDepthInVoxels region <= 255 ->
      forall m, extractCubicMeshCustom volData isQuadNeeded contributeToAO
                  ffMaterial region bMergeQuads result0
                <> Throw RegionTooLargeToEncode m).
Proof.
  unfold extractCubicMeshCustom, maxReionDimensionInVoxels. split.
  - intros Hbig.
    destruct (255 <? getWidthInVoxels region) eqn:HW; [reflexivity|].
    destruct (255 <? getHeightInVoxels region) eqn:HH; [reflexivity|].
    destruct (255 <? getDepthInVoxels region) eqn:HD; [reflexivity|].
    apply Z.ltb_ge in HW, HH, HD. lia.
  - intros (HW & HH & HD) m.
    destruct (255 <? getWidthInVoxels region) eqn:HW'; [apply Z.ltb_lt in HW'; lia|].
    destruct (255 <? getHeightInVoxels region) eqn:HH'; [apply Z.ltb_lt in HH'; lia|].
    destruct (255 <? getDepthInVoxels region) eqn:HD'; [apply Z.ltb_lt in HD'; lia|].
    destruct (sweep _ _ _ _ _ _) as [u st|e st] eqn:Hsw; [discriminate|].
    apply sweep_throws_only in Hsw;
      [|repeat split; assumption|apply sweepInv_initial].
    subst e. discriminate.
Qed.

(** The sweep adds vertices only. *)
Definition indicesAre (l : list Z) (st : ExtractorState V) : Prop :=
  m_vecIndices (result st) = l.

Lemma addVertexIn_indices l sel uX uY uZ material face1 face2 corner :
  hoare (indicesAre l)
        (addVertexIn contributeToAO sel uX uY uZ material face1 face2 corner)
        (fun _ => indicesAre l) (fun _ _ => True).
Proof.
  intros s Hs. unfold addVertexIn, addVertex. cbv zeta.
  set (ao := vertexAmbientOcclusion _ _ _).
  destruct (addVertexFrom_outcome uX uY uZ material ao (getSlice sel s)
              (result s) MaxVerticesPerPosition 0)
    as [(k & _ & _ & _ & _ & Hr)|[(k & _ & _ & _ & Hr)|(_ & Hr)]];
    rewrite Hr; clear Hr; [| |exact I];
    destruct sel; unfold indicesAre in *; simpl; exact Hs.
Qed.

Lemma pushQuad_indices l face slice q :
  hoare (indicesAre l) (pushQuad face slice q)
        (fun _ => indicesAre l) (fun _ _ => True).
Proof. apply hoare_modify. intros s Hs. exact Hs. Qed.

Ltac indices_step :=
  match goal with
  | |- hoare _ (bind (match ?c with _ => _ end) _) _ _ =>
      eapply hoare_bind; [destruct c|intros ?]
  | |- hoare _ (match ?c with _ => _ end) _ _ => destruct c
  | |- hoare _ (bind (addVertexIn _ _ _ _ _ _ _ _ _) _) _ _ =>
      eapply hoare_bind; [apply addVertexIn_indices|intros ?]
  | |- hoare _ (pushQuad _ _ _) _ _ => apply pushQuad_indices
  | |- hoare _ (ret tt) _ _ => apply hoare_ret; intros; assumption
  end.

Lemma sweep_indices l :
  hoare (indicesAre l)
        (sweep volData isQuadNeeded contributeToAO ffMaterial region)
        (fun _ => indicesAre l) (fun _ _ => True).
Proof.
  unfold sweep. apply hoare_forEach. intros z _.
  unfold processSlice. eapply hoare_bind.
  - apply hoare_forEach. intros y _.
    unfold processRow. apply hoare_forEach. intros x _.
    unfold processVoxel. cbv zeta. repeat indices_step.
  - intros u. apply hoare_modify. intros s Hs. exact Hs.
Qed.

(** Whatever the volume, a returned mesh holds nine indices, that is
    three triangles, for every quad that survived merging. *)
Lemma extraction_index_count bMergeQuads (result0 m : Mesh V) quads :
  extractCubicMeshCustom volData isQuadNeeded contributeToAO ffMaterial
    region bMergeQuads result0 = Ok tt m ->
  extractedQuads volData isQuadNeeded contributeToAO ffMaterial region
    bMergeQuads result0 = Some quads ->
  length (m_vecIndices m) = (9 * length quads)%nat.
Proof.
  unfold extractCubicMeshCustom, extractedQuads.
  destruct (_ <? getWidthInVoxels region); [discriminate|].
  destruct (_ <? getHeightInVoxels region); [discriminate|].
  destruct (_ <? getDepthInVoxels region); [discriminate|].
  pose proof (sweep_indices [] (mkState (clear result0)
                (clearedSlice ffMaterial) (clearedSlice ffMaterial)
                (initialQuads region)) eq_refl) as Hidx.
  destruct (sweep _ _ _ _ _ _) as [u st|e st]; [|discriminate].
  intros [= <-] [= <-]. unfold indicesAre in Hidx.
  unfold removeUnusedVertices. simpl. rewrite length_map.
  rewrite emitAll_appends, Hidx. simpl. apply emitted_total_length.
Qed.

(** C1 (what the code does): the loop body appends three triangles for
    each quad, the two picked by the occlusion test and then
    [(0, 2, 3)] once more. *)
Theorem triangulateQuad_indices (m : Mesh V) q :
  let v00 := getVertex m (vert3 q) in
  let v01 := getVertex m (vert0 q) in
  let v10 := getVertex m (vert2 q) in
  let v11 := getVertex m (vert1 q) in
  m_vecIndices (triangulateQuad m q)
  = m_vecIndices m
    ++ (if ambientOcclusion v01 + ambientOcclusion v10
           <? ambientOcclusion v00 + ambientOcclusion v11
        then [vert1 q; vert2 q; vert3 q; vert1 q; vert3 q; vert0 q]
        else [vert0 q; vert1 q; vert2 q; vert0 q; vert2 q; vert3 q])
    ++ [vert0 q; vert2 q; vert3 q].
Proof.
  cbv zeta. unfold triangulateQuad. cbv zeta.
  destruct (_ <? _); simpl; rewrite <- !app_assoc; reflexivity.
Qed.

End SweepFacts.

(** A quad over four corners of occlusion 3: the test takes the [else]
    branch and [(0, 2, 3)] is emitted twice. *)
Example triangulateQuad_unit_face :
  m_vecIndices
    (triangulateQuad
       (mkMesh [mkCubicVertex (0, 0, 0) 1 3; mkCubicVertex (0, 0, 1) 1 3;
                mkCubicVertex (0, 1, 1) 1 3; mkCubicVertex (0, 1, 0) 1 3]
               [] (0, 0, 0))
       (mkQuad 0 1 2 3))
  = [0; 1; 2; 0; 2; 3; 0; 2; 3].
Proof. reflexivity. Qed.

(** ** One solid voxel in a 3x3x3 volume *)

(** The scenario as the design document words it: six quads, twelve
    triangles, twenty-four vertices, occlusion 3 everywhere. *)
Definition singleVoxelScenario (p : Z * Z * Z) (bMergeQuads : bool) : Prop :=
  exists quads m,
    singleVoxelQuads p bMergeQuads = Some quads
    /\ extractSingleVoxel p bMergeQuads = Ok tt m
    /\ length quads = 6%nat
    /\ length (m_vecIndices m) = (3 * 12)%nat
    /\ length (m_vecVertices m) = 24%nat
    /\ Forall (fun v => ambientOcclusion v = 3) (m_vecVertices m).

(** C2 (counterexample): with the solid voxel in the centre the mesh has 8
    vertices, not 24; with the solid voxel in the upper corner only three
    faces lie in the region. *)
Lemma single_voxel_not_24_vertices :
  ~ singleVoxelScenario (1, 1, 1) false
  /\ ~ singleVoxelScenario (2, 2, 2) false.
Proof.
  split.
  - intros (quads & m & _ & Hm & _ & _ & Hv & _).
    vm_compute in Hm. inversion Hm; subst m. vm_compute in Hv. discriminate.
  - intros (quads & m & Hq & _ & Hlen & _).
    vm_compute in Hq. inversion Hq; subst quads. vm_compute in Hlen.
    discriminate.
Qed.

(** C2 (amended): when the solid voxel does not touch the upper faces of
    the volume, the extraction over the whole volume yields exactly six
    quads and exactly eight vertices, one per corner of the voxel, each
    with occlusion 3. *)
Theorem single_voxel_extraction (x y z : Z) (bMergeQuads : bool) :
  0 <= x <= 1 -> 0 <= y <= 1 -> 0 <= z <= 1 ->
  exists quads m,
    singleVoxelQuads (x, y, z) bMergeQuads = Some quads
    /\ extractSingleVoxel (x, y, z) bMergeQuads = Ok tt m
    /\ length quads = 6%nat
    /\ length (m_vecVertices m) = 8%nat
    /\ Forall (fun v => ambientOcclusion v = 3) (m_vecVertices m).
Proof.
  intros Hx Hy Hz.
  assert (x = 0 \/ x = 1) as [-> | ->] by lia;
    (assert (y = 0 \/ y = 1) as [-> | ->] by lia);
    (assert (z = 0 \/ z = 1) as [-> | ->] by lia);
    destruct bMergeQuads;
    (eexists _, _; split; [vm_compute; reflexivity|];
     split; [vm_compute; reflexivity|];
     split; [reflexivity|]; split; [reflexivity|];
     repeat constructor).
Qed.

(** The six faces of the centre voxel give eighteen triangles. *)
Example single_voxel_index_count :
  length (m_vecIndices (finalState (extractSingleVoxel (1, 1, 1) false)))
  = (3 * 18)%nat.
Proof. vm_compute. reflexivity. Qed.

(** The amended scenario at the centre voxel, with merging. *)
Lemma single_voxel_extraction_witness :
  exists quads m,
    singleVoxelQuads (1, 1, 1) true = Some quads
    /\ extractSingleVoxel (1, 1, 1) true = Ok tt m
    /\ length quads = 6%nat
    /\ length (m_vecVertices m) = 8%nat
    /\ Forall (fun v => ambientOcclusion v = 3) (m_vecVertices m).
Proof.
  apply (single_voxel_extraction 1 1 1 true); lia.
Defined.

(** The mesh of the centre voxel, and a region one voxel too wide. *)
Definition centreVoxelMesh : Mesh Z :=
  finalState (extractSingleVoxel (1, 1, 1) false).

Definition tooWide : Region := mkRegion 0 0 0 255 0 0.

(** Two solid voxels side by side, of materials 1 and 2: the four
    lattice corners they share carry one vertex of each material. *)
Definition twoMaterialVolume : Z -> Z -> Z -> Z :=
  fun x y z =>
    if bool_decide ((x, y, z) = (0, 1, 1)) then 1
    else if bool_decide ((x, y, z) = (1, 1, 1)) then 2
    else 0.

Definition twoMaterialMesh : Mesh Z :=
  finalState (extractCubicMesh twoMaterialVolume solidEmptyQuadNeeded
                               solidContributesToAO 255 wholeVolume false).

Lemma twoMaterialMesh_extracted :
  extractCubicMeshCustom twoMaterialVolume solidEmptyQuadNeeded
    solidContributesToAO 255 wholeVolume false (mkMesh [] [] (0, 0, 0))
  = Ok tt twoMaterialMesh.
Proof. vm_compute. reflexivity. Qed.

(** In the mesh of the two voxels the corner (1, 1, 1) has two vertices,
    numbers 4 and 7, which differ in their material. *)
Lemma extracted_vertices_per_position_witness :
  length (m_vecVertices twoMaterialMesh) = 16%nat
  /\ length (verticesAt (m_vecVertices twoMaterialMesh) (1, 1, 1)) = 2%nat
  /\ (forall p,
        (length (verticesAt (m_vecVertices twoMaterialMesh) p) <= 8)%nat)
  /\ m_vecVertices twoMaterialMesh !! 4%nat
     = Some (mkCubicVertex (1, 1, 1) 1 3)
  /\ m_vecVertices twoMaterialMesh !! 7%nat
     = Some (mkCubicVertex (1, 1, 1) 2 3)
  /\ (data (mkCubicVertex (1, 1, 1) 1 3),
      ambientOcclusion (mkCubicVertex (1, 1, 1) 1 3))
     <> (data (mkCubicVertex (1, 1, 1) 2 3),
         ambientOcclusion (mkCubicVertex (1, 1, 1) 2 3)).
Proof.
  pose proof (extracted_vertices_per_position twoMaterialVolume
                solidEmptyQuadNeeded solidContributesToAO 255 wholeVolume
                false (mkMesh [] [] (0, 0, 0)) twoMaterialMesh
                twoMaterialMesh_extracted) as [Hbound Hdiffer].
  assert (m_vecVertices twoMaterialMesh !! 4%nat
          = Some (mkCubicVertex (1, 1, 1) 1 3)) as H4
    by (vm_compute; reflexivity).
  assert (m_vecVertices twoMaterialMesh !! 7%nat
          = Some (mkCubicVertex (1, 1, 1) 2 3)) as H7
    by (vm_compute; reflexivity).
  split; [vm_compute; reflexivity|]. split; [vm_compute; reflexivity|].
  split; [exact Hbound|]. split; [exact H4|]. split; [exact H7|].
  apply (Hdiffer 4%nat 7%nat _ _ H4 H7); [lia|reflexivity].
Defined.

(** A region 256 voxels wide is refused and the caller's mesh is handed
    back untouched; the 3x3x3 region is not refused. *)
Lemma region_size_check_witness :
  extractCubicMeshCustom (singleVoxelVolume (1, 1, 1)) solidEmptyQuadNeeded
    solidContributesToAO 255 tooWide false centreVoxelMesh
  = Throw RegionTooLargeToEncode centreVoxelMesh
  /\ forall m, extractCubicMeshCustom (singleVoxelVolume (1, 1, 1))
                 solidEmptyQuadNeeded solidContributesToAO 255 wholeVolume
                 false centreVoxelMesh
               <> Throw RegionTooLargeToEncode m.
Proof.
  split.
  - apply (region_size_check (singleVoxelVolume (1, 1, 1))
             solidEmptyQuadNeeded solidContributesToAO 255 tooWide false
             centreVoxelMesh).
    left. vm_compute. reflexivity.
  - apply (region_size_check (singleVoxelVolume (1, 1, 1))
             solidEmptyQuadNeeded solidContributesToAO 255 wholeVolume false
             centreVoxelMesh).
    vm_compute. repeat split; discriminate.
Defined.

(** Probing an untouched buffer allocates vertex 0 in slot 0. *)
Lemma addVertex_spec_witness :
  addVertex 1 1 1 7 0 0 0 solidContributesToAO
    (clearedSlice 255, mkMesh [] [] (0, 0, 0))
  = Ok 0 (allocatedIn 1 1 1 7 3 (clearedSlice 255) (mkMesh [] [] (0, 0, 0)) 0).
Proof.
  apply (proj1 (proj2 (addVertex_spec 1 1 1 7 0 0 0 solidContributesToAO
                         (clearedSlice 255) (mkMesh [] [] (0, 0, 0)))) 0).
  - lia.
  - intros j Hj. lia.
  - unfold slotOccupied. simpl. intros Hne. apply Hne. reflexivity.
Defined.

(** Two unit quads of one face that share an edge. *)
Definition flatMesh : Mesh Z :=
  mkMesh [mkCubicVertex (1, 0, 0) 1 3; mkCubicVertex (1, 0, 1) 1 3;
          mkCubicVertex (1, 1, 1) 1 3; mkCubicVertex (1, 1, 0) 1 3;
          mkCubicVertex (0, 0, 0) 1 3; mkCubicVertex (0, 1, 0) 1 3]
         [] (0, 0, 0).

(** The first orientation: corners 0 and 3 of the first quad are corners
    1 and 2 of the second. *)
Lemma mergeQuads_spec_witness :
  mergeQuads (mkQuad 0 1 2 3) (mkQuad 4 0 3 5) flatMesh
  = (true, mkQuad 4 1 2 5).
Proof.
  apply (proj1 (proj2 (mergeQuads_spec flatMesh (mkQuad 0 1 2 3)
                         (mkQuad 4 0 3 5)))).
  - repeat split; reflexivity.
  - split; reflexivity.
Defined.

End CubicFacts.

(** * Properties of the mesh decimator *)

Module DecimatorFacts.
Import Decimator.

(** Induction over an index buffer, one triangle at a time. *)
Lemma triangle_ind {A} (P : list A -> Prop) :
  P [] -> (forall a, P [a]) -> (forall a b, P [a; b]) ->
  (forall a b c tl, P tl -> P (a :: b :: c :: tl)) ->
  forall l, P l.
Proof.
  intros H0 H1 H2 H3 l.
  assert (P l /\ (forall a, P (a :: l)) /\ (forall a b, P (a :: b :: l)))
    as [Hl _].
  { induction l as [|x l (IH0 & IH1 & IH2)].
    - auto.
    - split; [apply IH1|]. split; [intros a; apply IH2|].
      intros a b. apply H3. exact IH0. }
  exact Hl.
Qed.

Lemma insert_true_lookup (l : list bool) (k t : nat) :
  l !!! t = true -> <[k := true]> l !!! t = true.
Proof.
  intros Ht. rewrite list_lookup_total_insert. case_decide; [reflexivity|exact Ht].
Qed.

Section PassFacts.
Context {VertexType : Type}.
Variable collapseChecks : SurfaceMesh VertexType -> list nat -> nat -> nat -> bool.
Implicit Types (m : SurfaceMesh VertexType) (st : PassState).

(** Every index of the buffer names a vertex of the table. *)
Definition wellFormed m : Prop :=
  Forall (fun i => i < length (m_vecVertices m)) (m_vecTriangleIndices m).

(** What the locking rule maintains over the tables of a pass on [n]
    vertices. *)
Record lockInv (n : nat) st : Prop := mkLockInv {
  mapper_length : length (vertexMapper st) = n;
  locked_length : length (vertexLocked st) = n;
  mapper_range : forall i, i < n -> vertexMapper st !!! i < n;
  unlocked_fixed : forall i, i < n ->
    vertexLocked st !!! i = false -> vertexMapper st !!! i = i;
  target_locked : forall i, i < n ->
    vertexMapper st !!! i <> i ->
    vertexLocked st !!! (vertexMapper st !!! i) = true;
  mapper_idempotent : forall i, i < n ->
    vertexMapper st !!! (vertexMapper st !!! i) = vertexMapper st !!! i
}.

Lemma canCollapseEdge_locked m st v0 v1 :
  vertexLocked st !!! v0 = true \/ vertexLocked st !!! v1 = true ->
  canCollapseEdge collapseChecks m st v0 v1 = false.
Proof.
  intros [Hl|Hl]; unfold canCollapseEdge; rewrite Hl;
    [reflexivity|rewrite orb_true_r; reflexivity].
Qed.

Lemma canCollapseEdge_unlocked m st v0 v1 :
  canCollapseEdge collapseChecks m st v0 v1 = true ->
  vertexLocked st !!! v0 = false /\ vertexLocked st !!! v1 = false.
Proof.
  unfold canCollapseEdge.
  destruct (vertexLocked st !!! v0), (vertexLocked st !!! v1);
    simpl; intros Hc; try discriminate; auto.
Qed.

Lemma collapseEdge_accept m st v0 v1 :
  canCollapseEdge collapseChecks m st v0 v1 = true ->
  collapseEdge collapseChecks m st v0 v1
  = mkPass (<[v0 := v1]> (vertexMapper st))
           (<[v1 := true]> (<[v0 := true]> (vertexLocked st)))
           (S (noOfEdgesCollapsed st)).
Proof. intros Hc. unfold collapseEdge. rewrite Hc. reflexivity. Qed.

Lemma collapseEdge_reject m st v0 v1 :
  canCollapseEdge collapseChecks m st v0 v1 = false ->
  collapseEdge collapseChecks m st v0 v1 = st.
Proof. intros Hc. unfold collapseEdge. rewrite Hc. reflexivity. Qed.

Lemma collapseEdge_lockInv n m st v0 v1 :
  lockInv n st -> v0 < n -> v1 < n ->
  lockInv n (collapseEdge collapseChecks m st v0 v1).
Proof.
  intros [Hlm Hll Hrg Hfix Htl Hid] Hv0 Hv1.
  destruct (canCollapseEdge collapseChecks m st v0 v1) eqn:Hc;
    [|rewrite collapseEdge_reject by exact Hc; constructor; assumption].
  rewrite collapseEdge_accept by exact Hc.
  apply canCollapseEdge_unlocked in Hc as [Hu0 Hu1].
  pose proof (Hfix v0 Hv0 Hu0) as Hm0.
  pose proof (Hfix v1 Hv1 Hu1) as Hm1.
  assert (forall i, i < n -> vertexMapper st !!! i = v0 -> i = v0) as Honly.
  { intros i Hi Hmi. destruct (decide (i = v0)) as [|Hne]; [assumption|].
    assert (vertexMapper st !!! i <> i) as Hmoved by congruence.
    apply Htl in Hmoved; [|exact Hi]. congruence. }
  constructor; simpl.
  - rewrite length_insert. exact Hlm.
  - rewrite !length_insert. exact Hll.
  - intros i Hi. rewrite list_lookup_total_insert.
    case_decide; [exact Hv1|apply Hrg; exact Hi].
  - intros i Hi Hu.
    destruct (decide (i = v1)) as [->|Hn1].
    { rewrite list_lookup_total_insert_eq in Hu
        by (rewrite length_insert; lia). discriminate. }
    rewrite list_lookup_total_insert_ne in Hu by congruence.
    destruct (decide (i = v0)) as [->|Hn0].
    { rewrite list_lookup_total_insert_eq in Hu by lia. discriminate. }
    rewrite list_lookup_total_insert_ne in Hu by congruence.
    rewrite list_lookup_total_insert_ne by congruence.
    apply Hfix; assumption.
  - intros i Hi Hmoved.
    destruct (decide (i = v0)) as [->|Hn0].
    + rewrite list_lookup_total_insert_eq by lia.
      apply list_lookup_total_insert_eq. rewrite length_insert. lia.
    + rewrite (list_lookup_total_insert_ne (vertexMapper st) v0 i)
        in Hmoved |- * by congruence.
      apply insert_true_lookup, insert_true_lookup, Htl; assumption.
  - intros i Hi.
    destruct (decide (i = v0)) as [->|Hn0].
    + rewrite (list_lookup_total_insert_eq _ v0) by lia.
      rewrite list_lookup_total_insert. case_decide; [reflexivity|exact Hm1].
    + rewrite (list_lookup_total_insert_ne _ v0 i) by congruence.
      rewrite list_lookup_total_insert_ne; [apply Hid; exact Hi|].
      intros Heq. apply Hn0. apply Honly; [exact Hi|congruence].
Qed.

Lemma initialPass_lockInv n : lockInv n (initialPass n).
Proof.
  constructor; simpl.
  - apply length_seq.
  - apply length_replicate.
  - intros i Hi. rewrite lookup_total_seq_lt by exact Hi. simpl. exact Hi.
  - intros i Hi _. rewrite lookup_total_seq_lt by exact Hi. reflexivity.
  - intros i Hi Hne. rewrite lookup_total_seq_lt in Hne by exact Hi.
    simpl in Hne. congruence.
  - intros i Hi. rewrite (lookup_total_seq_lt 0 n i) by exact Hi. simpl.
    rewrite lookup_total_seq_lt by exact Hi. reflexivity.
Qed.

Lemma collapseTriangles_lockInv n m : forall idx st,
  Forall (fun i => i < n) idx -> lockInv n st ->
  lockInv n (collapseTriangles collapseChecks m idx st).
Proof.
  induction idx as [|a|a b|a b c tl IH] using triangle_ind;
    intros st Hwf Hinv; try exact Hinv.
  inversion Hwf as [|? ? Ha Hwf1]; subst.
  inversion Hwf1 as [|? ? Hb Hwf2]; subst.
  inversion Hwf2 as [|? ? Hc Hwf3]; subst.
  simpl. apply IH; [exact Hwf3|].
  repeat apply collapseEdge_lockInv; assumption.
Qed.

Lemma passTables_lockInv m :
  wellFormed m -> lockInv (length (m_vecVertices m)) (passTables collapseChecks m).
Proof.
  intros Hwf. unfold passTables.
  apply collapseTriangles_lockInv; [exact Hwf|apply initialPass_lockInv].
Qed.

(** C8: [canCollapseEdge] rejects every edge with a locked endpoint, a
    collapse of [(v0, v1)] locks both endpoints and maps [v0] to [v1],
    and therefore, on a mesh whose indices are in range, the mapper built
    by a pass has no chain: [vertexMapper[vertexMapper[i]]] is
    [vertexMapper[i]] for every vertex, so rewriting the index buffer
    through it once is the same as rewriting it again. *)
Theorem vertexMapper_no_chain m :
  wellFormed m ->
  let tables := passTables collapseChecks m in
  let remap := map (fun i => vertexMapper tables !!! i) in
  (forall st v0 v1,
     vertexLocked st !!! v0 = true \/ vertexLocked st !!! v1 = true ->
     canCollapseEdge collapseChecks m st v0 v1 = false)
  /\ (forall st v0 v1,
        v0 < length (vertexMapper st) -> v0 < length (vertexLocked st) ->
        v1 < length (vertexLocked st) ->
        canCollapseEdge collapseChecks m st v0 v1 = true ->
        let st' := collapseEdge collapseChecks m st v0 v1 in
        vertexLocked st' !!! v0 = true /\ vertexLocked st' !!! v1 = true
        /\ vertexMapper st' !!! v0 = v1)
  /\ (forall i, i < length (m_vecVertices m) ->
        vertexMapper tables !!! (vertexMapper tables !!! i)
        = vertexMapper tables !!! i)
  /\ remap (remap (m_vecTriangleIndices m))
     = remap (m_vecTriangleIndices m).
Proof.
  intros Hwf tables remap.
  pose proof (passTables_lockInv m Hwf) as Hinv. fold tables in Hinv.
  refine (conj _ (conj _ (conj _ _))).
  - intros st v0 v1. apply canCollapseEdge_locked.
  - intros st v0 v1 Hm0 Hl0 Hl1 Hc st'. subst st'.
    rewrite collapseEdge_accept by exact Hc. simpl.
    split; [|split].
    + apply insert_true_lookup. apply list_lookup_total_insert_eq. exact Hl0.
    + apply list_lookup_total_insert_eq. rewrite length_insert. exact Hl1.
    + apply list_lookup_total_insert_eq. exact Hm0.
  - apply (mapper_idempotent _ _ Hinv).
  - subst remap. cbv beta. rewrite map_map. apply map_ext_in.
    intros i Hi. apply (mapper_idempotent _ _ Hinv).
    unfold wellFormed in Hwf. rewrite Forall_forall in Hwf. apply Hwf.
    apply list_elem_of_In. exact Hi.
Qed.

End PassFacts.

(** ** Termination of [execute] *)

(** The triangles of an index buffer. *)
Fixpoint triangles (idx : list nat) : list (nat * nat * nat) :=
  match idx with
  | a :: b :: c :: tl => (a, b, c) :: triangles tl
  | _ => []
  end.


Definition degenerate (t : nat * nat * nat) : Prop :=
  t.1.1 = t.1.2 \/ t.1.2 = t.2 \/ t.2 = t.1.1.

Lemma triangles_elem idx a b c :
  (a, b, c) ∈ triangles idx -> a ∈ idx /\ b ∈ idx /\ c ∈ idx.
Proof.
  induction idx as [|x|x y|x y z tl IH] using triangle_ind;
    simpl; intros Hin; try (inversion Hin; fail).
  apply elem_of_cons in Hin as [[= -> -> ->]|Hin].
  - repeat split; repeat (try left; right).
  - destruct (IH Hin) as (Ha & Hb & Hc).
    repeat split; do 3 right; assumption.
Qed.

Lemma triangles_map (f : nat -> nat) idx :
  triangles (map f idx)
  = map (fun t => (f t.1.1, f t.1.2, f t.2)) (triangles idx).
Proof.
  induction idx as [|x|x y|x y z tl IH] using triangle_ind;
    simpl; try reflexivity.
  rewrite IH. reflexivity.
Qed.

Lemma dropDegenerate_length idx : length (dropDegenerate idx) <= length idx.
Proof.
  induction idx as [|x|x y|x y z tl IH] using triangle_ind;
    simpl; try lia.
  destruct (_ && _ && _); simpl; lia.
Qed.


Lemma dropDegenerate_subset idx x : x ∈ dropDegenerate idx -> x ∈ idx.
Proof.
  induction idx as [|a|a b|a b c tl IH] using triangle_ind;
    simpl; intros Hin; try exact Hin.
  destruct (_ && _ && _).
  - rewrite !elem_of_cons in Hin |- *. intuition.
  - do 3 right. apply IH. exact Hin.
Qed.

Lemma length_compact {A} (vs : list A) (l : list nat) :
  Forall (fun i => i < length vs) l ->
  length (omap (fun i => vs !! i) l) = length l.
Proof.
  induction 1 as [|i l Hi Hl IH]; [reflexivity|].
  destruct (lookup_lt_is_Some_2 vs i Hi) as [v Hv].
  change (omap ?f (i :: l)) with
    (match f i with Some y => y :: omap f l | None => omap f l end).
  cbv beta. rewrite Hv. simpl length. rewrite IH. reflexivity.
Qed.

Lemma usedVertices_bound idx n : Forall (fun i => i < n) (usedVertices idx n).
Proof.
  apply Forall_forall. intros i Hi. unfold usedVertices in Hi.
  apply list_elem_of_filter in Hi as [_ Hi].
  apply elem_of_seq in Hi. lia.
Qed.

Lemma usedVertices_length idx n : length (usedVertices idx n) <= n.
Proof.
  unfold usedVertices.
  pose proof (length_filter (fun i => i ∈ idx) (seq 0 n)) as Hle.
  rewrite length_seq in Hle. exact Hle.
Qed.


(** The new number of a referenced vertex is below the new table size. *)
Lemma newIndex_bound idx n i :
  i < n -> i ∈ idx -> newIndex idx i < length (usedVertices idx n).
Proof.
  intros Hi Hin. unfold newIndex, usedVertices.
  replace n with (i + S (n - S i)) by lia.
  rewrite seq_app, filter_app, length_app. simpl seq.
  rewrite filter_cons_True by exact Hin. simpl. lia.
Qed.

Lemma newIndex_lt idx i j :
  i < j -> i ∈ idx -> newIndex idx i < newIndex idx j.
Proof. intros Hij Hin. apply (newIndex_bound idx j i Hij Hin). Qed.

Lemma newIndex_inj idx i j :
  i ∈ idx -> j ∈ idx -> newIndex idx i = newIndex idx j -> i = j.
Proof.
  intros Hi Hj Heq. destruct (Nat.lt_total i j) as [Hlt|[Heq'|Hgt]].
  - pose proof (newIndex_lt idx i j Hlt Hi). lia.
  - exact Heq'.
  - pose proof (newIndex_lt idx j i Hgt Hj). lia.
Qed.

(** No triangle of the buffer repeats an index. *)
Definition noDegenerate (idx : list nat) : Prop :=
  forall t, t ∈ triangles idx -> ~ degenerate t.

Lemma dropDegenerate_clean idx : noDegenerate (dropDegenerate idx).
Proof.
  unfold noDegenerate.
  induction idx as [|x|x y|x y z tl IH] using triangle_ind;
    simpl; intros t Hin; try (inversion Hin; fail).
  destruct (bool_decide (x <> y)) eqn:E1; [|apply IH; exact Hin].
  destruct (bool_decide (y <> z)) eqn:E2; [|apply IH; exact Hin].
  destruct (bool_decide (z <> x)) eqn:E3; [|apply IH; exact Hin].
  simpl in Hin. apply elem_of_cons in Hin as [->|Hin]; [|apply IH; exact Hin].
  apply bool_decide_eq_true in E1, E2, E3.
  unfold degenerate. simpl. intros [?|[?|?]]; contradiction.
Qed.

Lemma noDegenerate_renumbered idx :
  noDegenerate idx -> noDegenerate (map (newIndex idx) idx).
Proof.
  intros Hnd t Hin. rewrite triangles_map in Hin.
  apply list_elem_of_fmap in Hin as ([[a b] c] & -> & Hin).
  pose proof (triangles_elem _ _ _ _ Hin) as (Ha & Hb & Hc).
  specialize (Hnd _ Hin). unfold degenerate in *. simpl in *.
  intros [E|[E|E]]; apply newIndex_inj in E; try assumption; tauto.
Qed.

Section StepFacts.
Context {VertexType : Type}.
Variable collapseChecks : SurfaceMesh VertexType -> list nat -> nat -> nat -> bool.
Implicit Types (m : SurfaceMesh VertexType) (st : PassState).





(** The index buffer after the rewrite, and after the degenerate
    triangles are dropped. *)
Definition rewrittenIndices m : list nat :=
  let st := passTables collapseChecks m in
  if 0 <? noOfEdgesCollapsed st
  then map (fun i => vertexMapper st !!! i) (m_vecTriangleIndices m)
  else m_vecTriangleIndices m.

Definition keptIndices m : list nat := dropDegenerate (rewrittenIndices m).

(** What one turn of the loop of [execute] hands on when its pass has a
    result. *)
Definition stepResult m : nat * SurfaceMesh VertexType :=
  (fst (passResult collapseChecks m),
   removeUnusedVertices
     (removeDegenerateTris (snd (passResult collapseChecks m)))).



Lemma step_vertices m :
  m_vecVertices (snd (stepResult m))
  = omap (fun i => m_vecVertices m !! i)
         (usedVertices (keptIndices m) (length (m_vecVertices m))).
Proof. reflexivity. Qed.

Lemma step_indices m :
  m_vecTriangleIndices (snd (stepResult m))
  = map (newIndex (keptIndices m)) (keptIndices m).
Proof. reflexivity. Qed.

Lemma step_vertex_count m :
  length (m_vecVertices (snd (stepResult m)))
  = length (usedVertices (keptIndices m) (length (m_vecVertices m))).
Proof. rewrite step_vertices. apply length_compact, usedVertices_bound. Qed.

Lemma rewrittenIndices_length m :
  length (rewrittenIndices m) = length (m_vecTriangleIndices m).
Proof.
  unfold rewrittenIndices. cbv zeta.
  destruct (0 <? _); [apply length_map|reflexivity].
Qed.

Lemma rewrittenIndices_bound m :
  wellFormed m ->
  Forall (fun i => i < length (m_vecVertices m)) (rewrittenIndices m).
Proof.
  intros Hwf. pose proof (passTables_lockInv collapseChecks m Hwf) as Hinv.
  unfold rewrittenIndices. cbv zeta.
  destruct (0 <? _); [|exact Hwf].
  apply Forall_forall. intros j Hj.
  apply list_elem_of_fmap in Hj as (i & -> & Hi).
  apply (mapper_range _ _ Hinv).
  unfold wellFormed in Hwf. rewrite Forall_forall in Hwf. apply Hwf, Hi.
Qed.

Lemma keptIndices_bound m :
  wellFormed m ->
  Forall (fun i => i < length (m_vecVertices m)) (keptIndices m).
Proof.
  intros Hwf. pose proof (rewrittenIndices_bound m Hwf) as Hb.
  rewrite Forall_forall in Hb. apply Forall_forall. intros i Hi.
  apply Hb. apply dropDegenerate_subset. exact Hi.
Qed.

Lemma step_wellFormed m :
  wellFormed m -> wellFormed (snd (stepResult m)).
Proof.
  intros Hwf. unfold wellFormed.
  rewrite step_vertex_count, step_indices.
  pose proof (keptIndices_bound m Hwf) as Hb. rewrite Forall_forall in Hb.
  apply Forall_forall. intros j Hj.
  apply list_elem_of_fmap in Hj as (i & -> & Hi).
  apply newIndex_bound; [apply Hb|]; exact Hi.
Qed.

Lemma step_size_parts m :
  length (m_vecVertices (snd (stepResult m)))
    <= length (m_vecVertices m)
  /\ length (m_vecTriangleIndices (snd (stepResult m)))
     <= length (m_vecTriangleIndices m).
Proof.
  rewrite step_vertex_count, step_indices, length_map. split.
  - apply usedVertices_length.
  - unfold keptIndices. rewrite <- rewrittenIndices_length.
    apply dropDegenerate_length.
Qed.








Lemma step_clean m :
  noDegenerate (m_vecTriangleIndices (snd (stepResult m))).
Proof.
  rewrite step_indices. apply noDegenerate_renumbered.
  apply dropDegenerate_clean.
Qed.

(** *** Where a pass has a result *)






Lemma passHasResult_empty m :
  m_vecVertices m = [] -> passHasResult m = false.
Proof.
  intros E. unfold passHasResult. rewrite E. reflexivity.
Qed.


Lemma performDecimationPass_eq m :
  performDecimationPass collapseChecks m
  = if passHasResult m then Some (passResult collapseChecks m) else None.
Proof. reflexivity. Qed.

Lemma decimationStep_eq m :
  decimationStep collapseChecks m
  = if passHasResult m then Some (stepResult m) else None.
Proof.
  unfold decimationStep, performDecimationPass, stepResult.
  destruct (passHasResult m); [|reflexivity].
  destruct (passResult collapseChecks m); reflexivity.
Qed.


Lemma executeLoop_S fuel m :
  executeLoop collapseChecks (S fuel) m
  = if passHasResult m then
      if 0 <? fst (stepResult m)
      then executeLoop collapseChecks fuel (snd (stepResult m))
      else Some (snd (stepResult m))
    else None.
Proof.
  cbn [executeLoop]. rewrite decimationStep_eq.
  destruct (passHasResult m); [|reflexivity].
  destruct (stepResult m); reflexivity.
Qed.









End StepFacts.

(** ** The marking loops *)

(** A fold that only ever sets flags keeps a flag that one of its steps
    sets. *)
Lemma foldl_marks {A} (g : list bool -> A -> list bool) (x : A)
    (k n : nat) :
  (forall hd a, length hd = n -> length (g hd a) = n) ->
  (forall hd a, length hd = n -> hd !!! k = true -> g hd a !!! k = true) ->
  (forall hd, length hd = n -> g hd x !!! k = true) ->
  forall l, x ∈ l -> forall hd, length hd = n -> foldl g hd l !!! k = true.
Proof.
  intros Hlen Hkeep Hset.
  assert (forall l hd, length hd = n -> hd !!! k = true ->
                       foldl g hd l !!! k = true) as Hstay.
  { induction l as [|a l IH]; intros hd Hn Hk; [exact Hk|].
    simpl. apply IH; [apply Hlen|apply Hkeep]; assumption. }
  induction l as [|a l IH]; intros Hin hd Hn; [inversion Hin|].
  simpl. apply elem_of_cons in Hin as [<-|Hin].
  - apply Hstay; [apply Hlen|apply Hset]; assumption.
  - apply IH; [exact Hin|apply Hlen; exact Hn].
Qed.

Lemma foldl_length {A B} (g : list B -> A -> list B) (n : nat) :
  (forall hd a, length hd = n -> length (g hd a) = n) ->
  forall l hd, length hd = n -> length (foldl g hd l) = n.
Proof.
  intros Hlen. induction l as [|a l IH]; intros hd Hn; [exact Hn|].
  simpl. apply IH. apply Hlen. exact Hn.
Qed.

Section PositionMaterialFacts.
Variable faceFlipTest : Vector3DFloat -> Vector3DFloat -> bool.
Implicit Types (m : SurfaceMesh PositionMaterial).

Local Open Scope Q_scope.

Lemma lengthSquared_vsub_sym a b :
  lengthSquared (vsub a b) == lengthSquared (vsub b a).
Proof. unfold lengthSquared, dot, vsub. simpl. ring. Qed.

(** Two points within 1e-3 of each other pass the duplicate test. *)
Lemma closeTogether_within a b :
  lengthSquared (vsub a b) <= (1 # 1000) * (1 # 1000) ->
  closeTogether a b = true.
Proof.
  intros Hd. unfold closeTogether, Qltb.
  destruct (Qle_bool _ _) eqn:E; [|reflexivity].
  apply Qle_bool_iff in E. lra.
Qed.

Local Close Scope Q_scope.

(** One step of the inner loop of the duplicate search. *)
Definition markPair m (outerCt : nat) (hd : list bool) (innerCt : nat)
  : list bool :=
  if closeTogether (positionOf m innerCt) (positionOf m outerCt)
  then <[outerCt := true]> (<[innerCt := true]> hd)
  else hd.

Lemma markDuplicates_fold m hd outerCt :
  markDuplicates m hd outerCt
  = foldl (markPair m outerCt) hd
      (seq (S outerCt) (length (m_vecVertices m) - S outerCt)).
Proof. reflexivity. Qed.

Lemma markPair_length m outerCt hd innerCt :
  length (markPair m outerCt hd innerCt) = length hd.
Proof.
  unfold markPair. destruct (closeTogether _ _); [|reflexivity].
  rewrite !length_insert. reflexivity.
Qed.

Lemma markPair_keeps m outerCt hd innerCt k :
  hd !!! k = true -> markPair m outerCt hd innerCt !!! k = true.
Proof.
  intros Hk. unfold markPair. destruct (closeTogether _ _); [|exact Hk].
  apply insert_true_lookup, insert_true_lookup, Hk.
Qed.

Lemma markDuplicates_length m hd outerCt :
  length (markDuplicates m hd outerCt) = length hd.
Proof.
  rewrite markDuplicates_fold.
  apply (foldl_length _ (length hd)); [|reflexivity].
  intros hd' a Hn. rewrite markPair_length. exact Hn.
Qed.

Lemma markDuplicates_keeps m hd outerCt k :
  hd !!! k = true -> markDuplicates m hd outerCt !!! k = true.
Proof.
  rewrite markDuplicates_fold.
  generalize (seq (S outerCt) (length (m_vecVertices m) - S outerCt)).
  intros l. revert hd. induction l as [|a l IH]; intros hd Hk; [exact Hk|].
  simpl. apply IH. apply markPair_keeps. exact Hk.
Qed.

Lemma markDuplicates_marks m hd i j :
  length hd = length (m_vecVertices m) ->
  i < j < length (m_vecVertices m) ->
  closeTogether (positionOf m j) (positionOf m i) = true ->
  markDuplicates m hd i !!! i = true /\ markDuplicates m hd i !!! j = true.
Proof.
  intros Hn Hij Hclose. rewrite markDuplicates_fold.
  assert (j ∈ seq (S i) (length (m_vecVertices m) - S i)) as Hin
    by (apply elem_of_seq; lia).
  split.
  - apply (foldl_marks (markPair m i) j i (length (m_vecVertices m)));
      try assumption.
    + intros hd' a Hn'. rewrite markPair_length. exact Hn'.
    + intros hd' a _ Hk. apply markPair_keeps. exact Hk.
    + intros hd' Hn'. unfold markPair. rewrite Hclose.
      apply list_lookup_total_insert_eq. rewrite length_insert. lia.
  - apply (foldl_marks (markPair m i) j j (length (m_vecVertices m)));
      try assumption.
    + intros hd' a Hn'. rewrite markPair_length. exact Hn'.
    + intros hd' a _ Hk. apply markPair_keeps. exact Hk.
    + intros hd' Hn'. unfold markPair. rewrite Hclose.
      apply insert_true_lookup. apply list_lookup_total_insert_eq. lia.
Qed.

(** The duplicate search flags both vertices of every close pair. *)
Lemma hasDuplicate_marks m i j :
  i < j < length (m_vecVertices m) ->
  closeTogether (positionOf m j) (positionOf m i) = true ->
  hasDuplicate m !!! i = true /\ hasDuplicate m !!! j = true.
Proof.
  intros Hij Hclose. unfold hasDuplicate. cbv zeta.
  set (n := length (m_vecVertices m)) in *.
  assert (i ∈ seq 0 (n - 1)) as Hin by (apply elem_of_seq; lia).
  split.
  - apply (foldl_marks (markDuplicates m) i i n); try assumption.
    + intros hd a Hn. rewrite markDuplicates_length. exact Hn.
    + intros hd a _ Hk. apply markDuplicates_keeps. exact Hk.
    + intros hd Hn. apply (markDuplicates_marks m hd i j); assumption.
    + apply length_replicate.
  - apply (foldl_marks (markDuplicates m) i j n); try assumption.
    + intros hd a Hn. rewrite markDuplicates_length. exact Hn.
    + intros hd a _ Hk. apply markDuplicates_keeps. exact Hk.
    + intros hd Hn. apply (markDuplicates_marks m hd i j); assumption.
    + apply length_replicate.
Qed.

(** [v0] has another vertex of the mesh within distance 1e-3. *)
Definition hasNearbyDuplicate m (v0 : nat) : Prop :=
  exists j, j < length (m_vecVertices m) /\ j <> v0
    /\ (lengthSquared (vsub (positionOf m v0) (positionOf m j))
        <= (1 # 1000) * (1 # 1000))%Q.

Lemma hasDuplicate_nearby m v0 :
  v0 < length (m_vecVertices m) -> hasNearbyDuplicate m v0 ->
  hasDuplicate m !!! v0 = true.
Proof.
  intros Hv0 (j & Hj & Hne & Hd).
  destruct (Nat.lt_total v0 j) as [Hlt|[Heq|Hgt]]; [| congruence |].
  - apply (hasDuplicate_marks m v0 j); [lia|].
    apply closeTogether_within. rewrite lengthSquared_vsub_sym. exact Hd.
  - apply (hasDuplicate_marks m j v0); [lia|].
    apply closeTogether_within. exact Hd.
Qed.

(** [v0], moved by the offset of the mesh, lies outside its region. *)
Definition outsideRegion m (v0 : nat) : Prop :=
  containsPoint (m_Region m)
    (vadd (positionOf m v0)
          (mkVec (inject_Z (getLowerX (m_Region m)))
                 (inject_Z (getLowerY (m_Region m)))
                 (inject_Z (getLowerZ (m_Region m))))) = false.

(** C9: in the variant for position+material vertices [canCollapseEdge]
    answers false whenever [noOfDifferentNormals[v0]] is 3, whenever [v0]
    lies outside the region of the mesh, whenever
    [noOfDifferentNormals[v0]] exceeds [noOfDifferentNormals[v1]], and
    whenever another vertex of the mesh lies within distance 1e-3 of
    [v0]. *)
Theorem canCollapseEdge_rejects m (st : PassState) (v0 v1 : nat) :
  v0 < length (m_vecVertices m) ->
  noOfDifferentNormals m !!! v0 = 3
  \/ outsideRegion m v0
  \/ noOfDifferentNormals m !!! v1 < noOfDifferentNormals m !!! v0
  \/ hasNearbyDuplicate m v0 ->
  canCollapseEdge (positionMaterialChecks faceFlipTest) m st v0 v1 = false.
Proof.
  intros Hv0 Hcase. unfold canCollapseEdge.
  destruct (_ || _); [reflexivity|].
  unfold positionMaterialChecks. cbv zeta.
  destruct (bool_decide (material _ <> material _)); [reflexivity|].
  destruct (bool_decide (noOfDifferentNormals m !!! v0 = 3)) eqn:H3;
    [reflexivity|].
  destruct (hasDuplicate m !!! v0) eqn:Hdup; [reflexivity|].
  destruct (bool_decide (noOfDifferentNormals m !!! v1
                         < noOfDifferentNormals m !!! v0)) eqn:Hgt;
    [reflexivity|].
  destruct (containsPoint _ _) eqn:Hin; [|reflexivity].
  exfalso. destruct Hcase as [Hc|[Hc|[Hc|Hc]]].
  - apply bool_decide_eq_false in H3. contradiction.
  - unfold outsideRegion in Hc. congruence.
  - apply bool_decide_eq_false in Hgt. contradiction.
  - apply hasDuplicate_nearby in Hc; [congruence|exact Hv0].
Qed.

End PositionMaterialFacts.

(** ** Sample meshes *)

Definition vertexAt (x y z : Z) (mat : Z) : PositionMaterial :=
  mkPositionMaterial (mkVec (inject_Z x) (inject_Z y) (inject_Z z)) mat.

Definition sampleRegion : Region := mkRegion 0 0 0 4 4 4.

(** A triangle whose corners carry three materials, followed by a
    degenerate triangle on two of its corners; all inside the region. *)
Definition degenerateMesh : SurfaceMesh PositionMaterial :=
  mkSurfaceMesh [vertexAt 1 1 1 1; vertexAt 2 1 1 2; vertexAt 1 2 1 3]
                [0; 1; 2; 0; 0; 1] sampleRegion [].

(** A unit square of one material, as two triangles. *)
Definition flatQuadMesh : SurfaceMesh PositionMaterial :=
  mkSurfaceMesh [vertexAt 1 1 1 1; vertexAt 2 1 1 1; vertexAt 1 2 1 1;
                 vertexAt 2 2 1 1]
                [0; 1; 2; 1; 3; 2] sampleRegion [].

(** A triangle with a second copy of its first corner in the table. *)
Definition duplicateMesh : SurfaceMesh PositionMaterial :=
  mkSurfaceMesh [vertexAt 1 1 1 1; vertexAt 2 1 1 1; vertexAt 1 2 1 1;
                 vertexAt 1 1 1 1]
                [0; 1; 2] sampleRegion [].

Definition idealChecks :
  SurfaceMesh PositionMaterial -> list nat -> nat -> nat -> bool :=
  positionMaterialChecks cosineBelow09.


Lemma degenerateMesh_wellFormed : wellFormed degenerateMesh.
Proof. unfold wellFormed. simpl. repeat (constructor; [lia|]). constructor. Qed.

Lemma flatQuadMesh_wellFormed : wellFormed flatQuadMesh.
Proof. unfold wellFormed. simpl. repeat (constructor; [lia|]). constructor. Qed.

(** On [degenerateMesh] every vertex has one significant normal
    component, no vertex has a duplicate, and the first pass locks vertex
    0 only, mapping it to itself. *)
Example degenerateMesh_tables :
  noOfDifferentNormals degenerateMesh = [1; 1; 1]
  /\ hasDuplicate degenerateMesh = [false; false; false]
  /\ passTables idealChecks degenerateMesh
     = mkPass [0; 1; 2] [true; false; false] 1.
Proof. vm_compute. repeat split. Qed.





(** Rewriting the index buffer of the unit square twice is rewriting it
    once. *)
Lemma vertexMapper_no_chain_witness :
  let tables := passTables idealChecks flatQuadMesh in
  map (fun i => vertexMapper tables !!! i)
      (map (fun i => vertexMapper tables !!! i) [0; 1; 2; 1; 3; 2])
  = map (fun i => vertexMapper tables !!! i) [0; 1; 2; 1; 3; 2].
Proof.
  pose proof (vertexMapper_no_chain idealChecks flatQuadMesh
                flatQuadMesh_wellFormed) as (_ & _ & _ & Hremap).
  exact Hremap.
Defined.

(** Vertex 0 of [duplicateMesh] has vertex 3 at distance 0. *)
Lemma canCollapseEdge_rejects_witness :
  canCollapseEdge idealChecks duplicateMesh (initialPass 4) 0 1 = false.
Proof.
  apply (canCollapseEdge_rejects cosineBelow09 duplicateMesh (initialPass 4) 0 1).
  - simpl. lia.
  - right. right. right. exists 3. split; [simpl; lia|]. split; [lia|].
    vm_compute. discriminate.
Defined.

End DecimatorFacts.

(** * Further properties of the cubic extractor *)

Module CubicMergeFacts.
Import Cubic CubicFacts.
Local Open Scope Z_scope.

Section MergeFacts.
Context {V : Type} `{EqDecision V} `{Inhabited V}.
Implicit Types (m : Mesh V) (q : Quad) (l : list Quad).

(** The four vertex indices of a quad. *)
Definition quadVertices q : list Z := [vert0 q; vert1 q; vert2 q; vert3 q].

Lemma cornersAttributeEqual_refl m q : cornersAttributeEqual m q q.
Proof. repeat split. Qed.

Lemma cornersAttributeEqual_trans m q1 q2 q3 :
  cornersAttributeEqual m q1 q2 -> cornersAttributeEqual m q2 q3 ->
  cornersAttributeEqual m q1 q3.
Proof.
  unfold cornersAttributeEqual, attributeEqual.
  intros (H0 & H1 & H2 & H3) (K0 & K1 & K2 & K3).
  repeat split; (etransitivity; [|first [apply K0|apply K1|apply K2|apply K3]]);
    first [apply H0|apply H1|apply H2|apply H3].
Qed.

(** The quad [mergeQuads] leaves in [q1] has at each corner the
    attributes [q1] had there, and its indices come from the two quads. *)
Lemma mergeQuads_sound m q1 q2 :
  cornersAttributeEqual m (snd (mergeQuads q1 q2 m)) q1
  /\ (forall i, i ∈ quadVertices (snd (mergeQuads q1 q2 m)) ->
        i ∈ quadVertices q1 \/ i ∈ quadVertices q2).
Proof.
  destruct (decide (cornersAttributeEqual m q1 q2)) as [Ha|Hn].
  - rewrite (mergeQuads_attr_ok _ _ _ Ha).
    destruct Ha as ((A0 & B0) & (A1 & B1) & (A2 & B2) & (A3 & B3)).
    unfold quadVertices.
    repeat (destruct (_ && _)); simpl; split;
      try (unfold cornersAttributeEqual, attributeEqual; simpl;
           repeat split; congruence);
      intros i; rewrite !elem_of_cons; intuition.
  - rewrite (mergeQuads_attr_fail _ _ _ Hn). simpl.
    split; [apply cornersAttributeEqual_refl|auto].
Qed.

(** [q] descends from the quads of [l0]: it has, corner by corner, the
    attributes of one of them, and its indices occur in them. *)
Definition derivedFrom m l0 q : Prop :=
  (exists q0, q0 ∈ l0 /\ cornersAttributeEqual m q q0)
  /\ (forall i, i ∈ quadVertices q -> exists q0, q0 ∈ l0 /\ i ∈ quadVertices q0).

Lemma derivedFrom_self m l0 q : q ∈ l0 -> derivedFrom m l0 q.
Proof.
  intros Hq. split.
  - exists q. split; [exact Hq|apply cornersAttributeEqual_refl].
  - intros i Hi. exists q. auto.
Qed.

Lemma derivedFrom_merge m l0 q1 q2 :
  derivedFrom m l0 q1 -> derivedFrom m l0 q2 ->
  derivedFrom m l0 (snd (mergeQuads q1 q2 m)).
Proof.
  intros [(q0 & Hq0 & Ha) Hi1] [_ Hi2].
  destruct (mergeQuads_sound m q1 q2) as [Hattr Hidx]. split.
  - exists q0. split; [exact Hq0|].
    eapply cornersAttributeEqual_trans; eassumption.
  - intros i Hi. destruct (Hidx i Hi); auto.
Qed.

Lemma mergeInner_derived m l0 : forall rest q1,
  derivedFrom m l0 q1 -> Forall (derivedFrom m l0) rest ->
  derivedFrom m l0 (mergeInner q1 rest m).1.1
  /\ Forall (derivedFrom m l0) (mergeInner q1 rest m).1.2.
Proof.
  induction rest as [|q2 tl IH]; intros q1 H1 Hrest; [simpl; auto|].
  inversion Hrest as [|? ? H2 Htl]; subst.
  rewrite mergeInner_cons. destruct (fst (mergeQuads q1 q2 m)); simpl.
  - apply IH; [apply derivedFrom_merge; assumption|exact Htl].
  - destruct (IH q1 H1 Htl) as [Hq Hl]. split; [exact Hq|].
    constructor; assumption.
Qed.

Lemma mergeOuter_derived m l0 : forall fuel quads,
  Forall (derivedFrom m l0) quads ->
  Forall (derivedFrom m l0) (mergeOuter fuel quads m).1.
Proof.
  induction fuel as [|fuel IH]; intros quads Hq; [exact Hq|].
  destruct quads as [|q1 rest]; [exact Hq|].
  inversion Hq as [|? ? H1 Hrest]; subst.
  rewrite mergeOuter_cons. simpl.
  destruct (mergeInner_derived m l0 rest q1 H1 Hrest) as [Hq1 Hl].
  constructor; [exact Hq1|]. apply IH. exact Hl.
Qed.

Lemma mergeUntilStable_derived m l0 : forall fuel quads,
  Forall (derivedFrom m l0) quads ->
  Forall (derivedFrom m l0) (mergeUntilStable fuel quads m).
Proof.
  induction fuel as [|fuel IH]; intros quads Hq; [exact Hq|].
  simpl. pose proof (mergeOuter_derived m l0 (length quads) quads Hq) as Hd.
  unfold performQuadMerging.
  destruct (mergeOuter (length quads) quads m) as [quads' []];
    [apply IH|]; exact Hd.
Qed.

Lemma mergeUntilStable_length m : forall fuel quads,
  (length (mergeUntilStable fuel quads m) <= length quads)%nat.
Proof.
  induction fuel as [|fuel IH]; intros quads; [reflexivity|].
  simpl. destruct (performQuadMerging_length quads m) as (Hle & _ & _).
  destruct (performQuadMerging quads m) as [quads' []]; simpl in Hle;
    [specialize (IH quads')|]; lia.
Qed.

(** Merging never invents anything: with or without merging, the list
    that is triangulated is no longer than the list the sweep built;
    every quad in it has at each corner the material and occlusion that
    some quad of the original list has at that corner, and refers only
    to vertices the original quads refer to. *)
Theorem merging_keeps_attributes (bMergeQuads : bool) m l :
  (length (survivingQuads bMergeQuads m l) <= length l)%nat
  /\ Forall (derivedFrom m l) (survivingQuads bMergeQuads m l).
Proof.
  assert (Forall (derivedFrom m l) l) as Hself.
  { apply Forall_forall. intros q Hq. apply derivedFrom_self. exact Hq. }
  unfold survivingQuads. destruct bMergeQuads; [|split; [reflexivity|exact Hself]].
  split; [apply mergeUntilStable_length|].
  apply mergeUntilStable_derived. exact Hself.
Qed.

(** *** The list the loop stops at *)

(** No quad of the list can absorb a later one. *)
Fixpoint unmergeable m l : Prop :=
  match l with
  | [] => True
  | q1 :: rest =>
      Forall (fun q2 => fst (mergeQuads q1 q2 m) = false) rest
      /\ unmergeable m rest
  end.

Lemma mergeInner_false m : forall rest q1,
  (mergeInner q1 rest m).2 = false ->
  Forall (fun q2 => fst (mergeQuads q1 q2 m) = false) rest.
Proof.
  induction rest as [|q2 tl IH]; intros q1 Hb; [constructor|].
  rewrite mergeInner_cons in Hb.
  destruct (fst (mergeQuads q1 q2 m)) eqn:E; simpl in Hb; [discriminate|].
  constructor; [exact E|apply IH; exact Hb].
Qed.

Lemma mergeOuter_false m : forall fuel quads,
  (length quads <= fuel)%nat ->
  (mergeOuter fuel quads m).2 = false -> unmergeable m quads.
Proof.
  induction fuel as [|fuel IH]; intros quads Hlen Hb.
  - destruct quads; [exact I|simpl in Hlen; lia].
  - destruct quads as [|q1 rest]; [exact I|].
    rewrite mergeOuter_cons in Hb. simpl in Hb, Hlen.
    apply orb_false_iff in Hb as [Hb1 Hb2].
    rewrite (mergeInner_unchanged m rest q1 Hb1) in Hb2. simpl in Hb2.
    split; [apply mergeInner_false; exact Hb1|].
    apply IH; [lia|exact Hb2].
Qed.

Lemma unmergeable_lookup m : forall l i j q1 q2,
  unmergeable m l -> (i < j)%nat -> l !! i = Some q1 -> l !! j = Some q2 ->
  fst (mergeQuads q1 q2 m) = false.
Proof.
  induction l as [|q l IH]; intros i j q1 q2 Hun Hij Hi Hj;
    [inversion Hi|destruct Hun as [Hhd Htl]].
  destruct j as [|j]; [lia|]. simpl in Hj. destruct i as [|i].
  - inversion Hi; subst q. rewrite Forall_forall in Hhd. apply Hhd.
    eapply list_elem_of_lookup_2. exact Hj.
  - simpl in Hi. apply (IH i j); auto. lia.
Qed.

(** The loop [while (performQuadMerging(listQuads, result)) {}] stops,
    within as many passes as the list has quads plus one, at a list in
    which no quad can be merged with a later one: for every pair the
    attributes differ at some corner or no orientation shares an edge. *)
Theorem merging_reaches_fixed_point m l (i j : nat) q1 q2 :
  (i < j)%nat ->
  survivingQuads true m l !! i = Some q1 ->
  survivingQuads true m l !! j = Some q2 ->
  (performQuadMerging (survivingQuads true m l) m).2 = false
  /\ ~ (cornersAttributeEqual m q1 q2 /\ sharesEdge q1 q2).
Proof.
  intros Hij Hi Hj. unfold survivingQuads in *.
  pose proof (mergeUntilStable_stable m (S (length l)) l ltac:(lia)) as Hst.
  split; [exact Hst|].
  assert (unmergeable m (mergeUntilStable (S (length l)) l m)) as Hun
    by (eapply mergeOuter_false; [|exact Hst]; reflexivity).
  rewrite <- mergeQuads_true_iff.
  rewrite (unmergeable_lookup m _ i j q1 q2 Hun Hij Hi Hj). discriminate.
Qed.

End MergeFacts.

(** Two quads of [flatMesh] that share no edge stay as they are. *)
Lemma merging_reaches_fixed_point_witness :
  ~ (cornersAttributeEqual flatMesh (mkQuad 0 1 2 3) (mkQuad 4 5 0 1)
     /\ sharesEdge (mkQuad 0 1 2 3) (mkQuad 4 5 0 1)).
Proof.
  apply (merging_reaches_fixed_point flatMesh
           [mkQuad 0 1 2 3; mkQuad 4 5 0 1] 0 1).
  - lia.
  - vm_compute. reflexivity.
  - vm_compute. reflexivity.
Defined.

Section AddVertexTwice.
Context {V : Type} `{EqDecision V} `{Inhabited V}.

Lemma slotsBlocked_alloc uX uY uZ (mat : V) ao existing (mesh : Mesh V) k j :
  0 <= j <= k ->
  slotsBlocked uX uY mat ao existing 0 j ->
  slotsBlocked uX uY mat ao
    (fst (allocatedIn uX uY uZ mat ao existing mesh k)) 0 j.
Proof.
  intros Hj Hb i Hi. specialize (Hb i Hi).
  unfold slotOccupied, slotMatches, allocatedIn in *. simpl.
  rewrite arraySet_ne by (intros [=]; lia). exact Hb.
Qed.

(** Asking again for a vertex just obtained changes nothing: a second
    call of [addVertex] with the same position, material and neighbours
    returns the same index and leaves the slice buffer and the mesh as
    the first call left them. *)
Theorem addVertex_twice (uX uY uZ : Z) (uMaterialIn face1 face2 corner : V)
    (contributeToAO : V -> bool) (s s' : Array3 V * Mesh V) (i : Z) :
  addVertex uX uY uZ uMaterialIn face1 face2 corner contributeToAO s
    = Ok i s' ->
  addVertex uX uY uZ uMaterialIn face1 face2 corner contributeToAO s'
    = Ok i s'.
Proof.
  destruct s as [existing mesh]. unfold addVertex. cbv zeta.
  change MaxVerticesPerPosition with 8%nat.
  set (ao := vertexAmbientOcclusion _ _ _).
  destruct (addVertexFrom_outcome uX uY uZ uMaterialIn ao existing mesh 8 0)
    as [(k & Hk & Hblk & Ho & Hma & Hr)|[(k & Hk & Hblk & Ho & Hr)|(Hblk & Hr)]];
    rewrite Hr; intros Hrun; inversion Hrun; subst i s'; clear Hrun.
  - exact Hr.
  - set (s1 := allocatedIn uX uY uZ uMaterialIn ao existing mesh k).
    destruct s1 as [existing' mesh'] eqn:Hs1.
    assert (existing' = fst (allocatedIn uX uY uZ uMaterialIn ao existing mesh k))
      as Hex by (fold s1; rewrite Hs1; reflexivity).
    replace 8%nat with (Z.to_nat k + S (Z.to_nat (7 - k)))%nat by lia.
    rewrite addVertexFrom_advance.
    + rewrite Z.add_0_l, Z2Nat.id by lia.
      rewrite addVertexFrom_reuse.
      * rewrite Hex. unfold allocatedIn. simpl. rewrite arraySet_eq. reflexivity.
      * unfold slotOccupied. rewrite Hex. unfold allocatedIn. simpl.
        rewrite arraySet_eq. simpl. lia.
      * unfold slotMatches. rewrite Hex. unfold allocatedIn. simpl.
        rewrite arraySet_eq. simpl. auto.
    + rewrite Z.add_0_l, Z2Nat.id by lia. rewrite Hex.
      apply slotsBlocked_alloc; [lia|exact Hblk].
Qed.

End AddVertexTwice.

(** The vertex allocated in an untouched buffer is found again. *)
Lemma addVertex_twice_witness :
  addVertex 1 1 1 7 0 0 0 solidContributesToAO
    (allocatedIn 1 1 1 7 3 (clearedSlice 255) (mkMesh [] [] (0, 0, 0)) 0)
  = Ok 0 (allocatedIn 1 1 1 7 3 (clearedSlice 255) (mkMesh [] [] (0, 0, 0)) 0).
Proof.
  apply (addVertex_twice 1 1 1 7 0 0 0 solidContributesToAO
           (clearedSlice 255, mkMesh [] [] (0, 0, 0))).
  reflexivity.
Defined.

End CubicMergeFacts.

Module CubicSweepFacts.
Import Cubic CubicFacts CubicMergeFacts.
Local Open Scope Z_scope.

(** ** What the extraction reads *)

Lemma forEach_ext {St A} (xs : list A) (body1 body2 : A -> M St unit) :
  (forall x, x ∈ xs -> body1 x = body2 x) ->
  forEach xs body1 = forEach xs body2.
Proof.
  induction xs as [|x xs IH]; intros Hb; [reflexivity|].
  simpl. rewrite (Hb x) by left. rewrite IH; [reflexivity|].
  intros y Hy. apply Hb. right. exact Hy.
Qed.

Section Locality.
Context {V : Type} `{EqDecision V} `{Inhabited V}.
Variables volData1 volData2 : Z -> Z -> Z -> V.
Variable isQuadNeeded : V -> V -> option V.
Variable contributeToAO : V -> bool.
Variable ffMaterial : V.
Variable region : Region.

(** The two volumes hold the same voxels in the region grown by one
    voxel in every direction. *)
Definition agreeAround : Prop :=
  forall x y z,
    getLowerX region - 1 <= x <= getUpperX region + 1 ->
    getLowerY region - 1 <= y <= getUpperY region + 1 ->
    getLowerZ region - 1 <= z <= getUpperZ region + 1 ->
    volData1 x y z = volData2 x y z.

Lemma processVoxel_local x y z :
  agreeAround ->
  getLowerX region <= x <= getUpperX region ->
  getLowerY region <= y <= getUpperY region ->
  getLowerZ region <= z <= getUpperZ region ->
  processVoxel volData1 isQuadNeeded contributeToAO region x y z
  = processVoxel volData2 isQuadNeeded contributeToAO region x y z.
Proof.
  intros Hagree Hx Hy Hz.
  cbv beta iota zeta delta [processVoxel peekVoxel].
  repeat match goal with
         | |- context [volData1 ?a ?b ?c] =>
             rewrite (Hagree a b c) by lia
         end.
  reflexivity.
Qed.

Lemma sweep_local :
  agreeAround ->
  sweep volData1 isQuadNeeded contributeToAO ffMaterial region
  = sweep volData2 isQuadNeeded contributeToAO ffMaterial region.
Proof.
  intros Hagree. unfold sweep. apply forEach_ext. intros z Hz.
  apply elem_of_seqZ in Hz. unfold processSlice.
  apply (f_equal (fun body => bind body (fun _ => nextSlice ffMaterial))).
  apply forEach_ext. intros y Hy. apply elem_of_seqZ in Hy.
  unfold processRow. apply forEach_ext. intros x Hx.
  apply elem_of_seqZ in Hx. apply processVoxel_local; [exact Hagree|lia..].
Qed.

(** The extraction reads the voxels of the region and the voxels one
    step outside it, nothing else: two volumes that agree there give the
    same result, error included. *)
Theorem extraction_reads_neighbourhood bMergeQuads (result0 : Mesh V) :
  agreeAround ->
  extractCubicMeshCustom volData1 isQuadNeeded contributeToAO ffMaterial
    region bMergeQuads result0
  = extractCubicMeshCustom volData2 isQuadNeeded contributeToAO ffMaterial
      region bMergeQuads result0.
Proof.
  intros Hagree. unfold extractCubicMeshCustom.
  rewrite (sweep_local Hagree). reflexivity.
Qed.

End Locality.

(** ** Quads, corners and indices *)

Section Corners.
Context {V : Type} `{EqDecision V} `{Inhabited V}.

(** The vertices of a quad list. *)
Definition cornersOf (qs : list Quad) : list Z :=
  concat (map (fun q => [vert0 q; vert1 q; vert2 q; vert3 q]) qs).

Lemma emitted_corners (m : Mesh V) qs i :
  i ∈ concat (map (emittedIndices m) qs) -> i ∈ cornersOf qs.
Proof.
  unfold cornersOf. induction qs as [|q qs IH]; [auto|].
  simpl. rewrite elem_of_app. intros [Hi|Hi]; [|do 4 right; auto].
  unfold emittedIndices in Hi. destruct (_ <? _);
    simpl in Hi; rewrite !elem_of_cons, elem_of_nil in Hi;
    rewrite !elem_of_cons; intuition.
Qed.

Lemma length_cornersOf qs : length (cornersOf qs) = (4 * length qs)%nat.
Proof.
  unfold cornersOf. induction qs as [|q qs IH]; [reflexivity|].
  simpl. rewrite IH. lia.
Qed.

(** Compaction keeps no more vertices than there are indices to name
    them. *)
Lemma usedPositions_length_le (idx corners : list Z) (n : nat) :
  (forall i, i ∈ idx -> i ∈ corners) ->
  (length (usedPositions idx n) <= length corners)%nat.
Proof.
  intros Hsub. unfold usedPositions.
  set (used := filter (fun i => isVertexUsed idx i = true) (seq 0 n)).
  rewrite <- (length_fmap Z.of_nat used).
  apply submseteq_length, NoDup_submseteq.
  - apply NoDup_fmap_2; [intros a b; lia|].
    apply NoDup_filter, NoDup_seq.
  - intros z Hz. apply list_elem_of_fmap in Hz as (i & -> & Hi).
    apply list_elem_of_filter in Hi as [Hi _].
    unfold isVertexUsed in Hi. apply bool_decide_eq_true in Hi.
    apply Hsub. exact Hi.
Qed.

Lemma length_omap_le {A B} (f : A -> option B) (l : list A) :
  (length (omap f l) <= length l)%nat.
Proof.
  induction l as [|a l IH]; [reflexivity|].
  change (omap f (a :: l)) with
    (match f a with Some y => y :: omap f l | None => omap f l end).
  destruct (f a); simpl; lia.
Qed.

End Corners.

(** ** How many quads the sweep builds *)

Section FaceCount.
Context {V : Type} `{EqDecision V} `{Inhabited V}.
Variable volData : Z -> Z -> Z -> V.
Variable isQuadNeeded : V -> V -> option V.
Variable contributeToAO : V -> bool.
Variable ffMaterial : V.
Variable region : Region.

(** 1 when the callback asks for a quad. *)
Definition needed (back front : V) : nat :=
  match isQuadNeeded back front with Some _ => 1 | None => 0 end.

(** The number of faces the six tests of the loop body ask for at the
    voxel [(x, y, z)]: towards and from its left, lower and front
    neighbour. *)
Definition facesNeededAt (x y z : Z) : nat :=
  let voxelCurrent := volData x y z in
  let voxelLeft := volData (x - 1) y z in
  let voxelBelow := volData x (y - 1) z in
  let voxelBefore := volData x y (z - 1) in
  (needed voxelCurrent voxelLeft + needed voxelLeft voxelCurrent
   + needed voxelCurrent voxelBelow + needed voxelBelow voxelCurrent
   + needed voxelCurrent voxelBefore + needed voxelBefore voxelCurrent)%nat.

(** The same, summed over the voxels of a row, of a slice and of the
    region. *)
Definition facesNeededInRow (y z : Z) : nat :=
  sum_list_with (fun x => facesNeededAt x y z)
    (seqZ (getLowerX region) (getUpperX region - getLowerX region + 1)).

Definition facesNeededInSlice (z : Z) : nat :=
  sum_list_with (fun y => facesNeededInRow y z)
    (seqZ (getLowerY region) (getUpperY region - getLowerY region + 1)).

Definition facesNeeded : nat :=
  sum_list_with facesNeededInSlice
    (seqZ (getLowerZ region) (getUpperZ region - getLowerZ region + 1)).

(** The number of quads in all the lists. *)
Definition countQuads (vecQuads : FaceNames -> list (list Quad)) : nat :=
  sum_list_with (fun f => length (concat (vecQuads f))) allFaces.

(** [n] quads were pushed and no list of lists changed its size. *)
Definition quadsPushed (n : nat) (st : ExtractorState V) : Prop :=
  countQuads (m_vecQuads st) = n
  /\ forall f, length (m_vecQuads st f) = length (initialQuads region f).

Lemma length_concat_alter (q : Quad) (i : nat) (ls : list (list Quad)) :
  (i < length ls)%nat ->
  length (concat (alter (fun l => l ++ [q]) i ls)) = S (length (concat ls)).
Proof.
  revert i. induction ls as [|l ls IH]; intros i Hi; [simpl in Hi; lia|].
  destruct i as [|i].
  - simpl. rewrite !length_app. simpl. lia.
  - simpl in Hi.
    change (length (l ++ concat (alter (fun l0 => l0 ++ [q]) i ls))
            = S (length (l ++ concat ls))).
    rewrite !length_app, IH by lia. lia.
Qed.

Lemma addVertexIn_quads (P : (FaceNames -> list (list Quad)) -> Prop)
    sel uX uY uZ material face1 face2 corner :
  hoare (fun st => P (m_vecQuads st))
        (addVertexIn contributeToAO sel uX uY uZ material face1 face2 corner)
        (fun _ (st : ExtractorState V) => P (m_vecQuads st))
        (fun _ _ => True).
Proof.
  intros s Hs. unfold addVertexIn.
  destruct (addVertex _ _ _ _ _ _ _ _ _) as [i [a m]|e [a m]]; [|exact I].
  destruct sel; exact Hs.
Qed.

Lemma addVertexIn_pushed n sel uX uY uZ material face1 face2 corner :
  hoare (quadsPushed n)
        (addVertexIn contributeToAO sel uX uY uZ material face1 face2 corner)
        (fun _ => quadsPushed n) (fun _ _ => True).
Proof.
  apply (addVertexIn_quads
           (fun vq => countQuads vq = n
                      /\ forall f, length (vq f) = length (initialQuads region f))).
Qed.

Lemma pushQuad_pushed n face slice q :
  (Z.to_nat slice < length (initialQuads region face))%nat ->
  hoare (quadsPushed n) (pushQuad face slice q)
        (fun _ => quadsPushed (S n)) (fun _ _ => True).
Proof.
  intros Hslice. apply hoare_modify. intros s [Hn Hlen].
  unfold quadsPushed. simpl. split.
  - rewrite <- Hn. specialize (Hlen face). rewrite <- Hlen in Hslice.
    clear Hn Hlen. unfold countQuads.
    destruct face; simpl;
      repeat match goal with
             | |- context [decide (?a = ?b)] =>
                 destruct (decide (a = b)); try congruence
             end;
      rewrite length_concat_alter by exact Hslice; lia.
  - intros f. destruct (decide (f = face)) as [->|Hne]; [|apply Hlen].
    rewrite length_alter. apply Hlen.
Qed.

(** One of the six blocks of the loop body. *)
Lemma block_pushed n (c : option V)
    (block : V -> M (ExtractorState V) unit) :
  (forall material, c = Some material ->
     hoare (quadsPushed n) (block material)
           (fun _ => quadsPushed (S n)) (fun _ _ => True)) ->
  hoare (quadsPushed n)
        (match c with Some material => block material | None => ret tt end)
        (fun _ => quadsPushed
                    (n + match c with Some _ => 1 | None => 0 end))
        (fun _ _ => True).
Proof.
  intros Hblock. destruct c as [material|].
  - replace (n + 1)%nat with (S n) by lia. apply Hblock. reflexivity.
  - rewrite Nat.add_0_r. apply hoare_ret. auto.
Qed.

Ltac pushed_step :=
  match goal with
  | |- hoare _ (bind (addVertexIn _ _ _ _ _ _ _ _ _) _) _ _ =>
      eapply hoare_bind; [apply addVertexIn_pushed|intros ?]
  | |- hoare _ (pushQuad _ _ _) _ _ =>
      apply pushQuad_pushed; unfold initialQuads; rewrite length_replicate; lia
  end.

Lemma processVoxel_pushed n x y z :
  regionFits region ->
  getLowerX region <= x <= getUpperX region ->
  getLowerY region <= y <= getUpperY region ->
  getLowerZ region <= z <= getUpperZ region ->
  hoare (quadsPushed n)
        (processVoxel volData isQuadNeeded contributeToAO region x y z)
        (fun _ => quadsPushed (n + facesNeededAt x y z)) (fun _ _ => True).
Proof.
  unfold regionFits, getWidthInVoxels, getHeightInVoxels, getDepthInVoxels.
  intros (HW & HH & HD) Hx Hy Hz.
  unfold processVoxel. cbv zeta.
  rewrite (uint32_small (x - getLowerX region)) by lia.
  rewrite (uint32_small (y - getLowerY region)) by lia.
  rewrite (uint32_small (z - getLowerZ region)) by lia.
  eapply (hoare_weaken _ (quadsPushed n)); [|auto|].
  - do 5 (eapply hoare_bind;
          [apply block_pushed; intros material Hc; repeat pushed_step
          |intros ?]).
    apply block_pushed; intros material Hc; repeat pushed_step.
  - intros u s Hs. cbv beta in Hs.
    unfold facesNeededAt, needed. cbv zeta. unfold peekVoxel in Hs.
    rewrite ?Z.add_0_r in Hs.
    replace (x + -1) with (x - 1) in Hs by lia.
    replace (y + -1) with (y - 1) in Hs by lia.
    replace (z + -1) with (z - 1) in Hs by lia.
    rewrite !Nat.add_assoc. exact Hs.
Qed.

(** A loop whose body pushes [cnt x] quads. *)
Lemma forEach_pushed {A} (cnt : A -> nat) (xs : list A)
    (body : A -> M (ExtractorState V) unit) :
  (forall x n, x ∈ xs ->
     hoare (quadsPushed n) (body x) (fun _ => quadsPushed (n + cnt x))
           (fun _ _ => True)) ->
  forall n, hoare (quadsPushed n) (forEach xs body)
              (fun _ => quadsPushed (n + sum_list_with cnt xs))
              (fun _ _ => True).
Proof.
  induction xs as [|x xs IH]; intros Hbody n.
  - simpl. rewrite Nat.add_0_r. apply hoare_ret. auto.
  - simpl. eapply hoare_bind; [apply Hbody; left|].
    intros u. rewrite Nat.add_assoc. apply IH.
    intros y k Hy. apply Hbody. right. exact Hy.
Qed.

Lemma processRow_pushed n y z :
  regionFits region ->
  getLowerY region <= y <= getUpperY region ->
  getLowerZ region <= z <= getUpperZ region ->
  hoare (quadsPushed n)
        (processRow volData isQuadNeeded contributeToAO region y z)
        (fun _ => quadsPushed (n + facesNeededInRow y z)) (fun _ _ => True).
Proof.
  intros Hfit Hy Hz. unfold processRow, facesNeededInRow.
  apply forEach_pushed. intros x k Hx. apply elem_of_seqZ in Hx.
  apply processVoxel_pushed; [exact Hfit|lia..].
Qed.

Lemma processSlice_pushed n z :
  regionFits region ->
  getLowerZ region <= z <= getUpperZ region ->
  hoare (quadsPushed n)
        (processSlice volData isQuadNeeded contributeToAO ffMaterial region z)
        (fun _ => quadsPushed (n + facesNeededInSlice z)) (fun _ _ => True).
Proof.
  intros Hfit Hz. unfold processSlice, facesNeededInSlice.
  eapply hoare_bind.
  - apply forEach_pushed. intros y k Hy. apply elem_of_seqZ in Hy.
    apply processRow_pushed; [exact Hfit|lia..].
  - intros u. apply hoare_modify. intros s Hs. exact Hs.
Qed.

Lemma sweep_pushed :
  regionFits region ->
  hoare (quadsPushed 0)
        (sweep volData isQuadNeeded contributeToAO ffMaterial region)
        (fun _ => quadsPushed facesNeeded) (fun _ _ => True).
Proof.
  intros Hfit. unfold sweep, facesNeeded.
  apply (forEach_pushed facesNeededInSlice _ _) with (n := 0%nat).
  intros z n Hz. apply elem_of_seqZ in Hz.
  apply processSlice_pushed; [exact Hfit|lia].
Qed.

Lemma quadsPushed_initial (result0 : Mesh V) a1 a2 :
  quadsPushed 0 (mkState result0 a1 a2 (initialQuads region)).
Proof.
  split; [|reflexivity]. unfold countQuads. simpl.
  assert (forall k, length (concat (replicate k ([] : list Quad))) = 0%nat)
    as Hempty by (induction k; simpl; auto).
  unfold initialQuads. rewrite !Hempty. reflexivity.
Qed.

Lemma length_allSurvivingQuads_false (st : ExtractorState V) :
  length (allSurvivingQuads false st) = countQuads (m_vecQuads st).
Proof.
  unfold allSurvivingQuads, countQuads, survivingQuads.
  induction allFaces as [|f fs IH]; [reflexivity|].
  simpl. rewrite length_app, IH, map_id. reflexivity.
Qed.

Lemma length_concat_map_le {A} (f g : list A -> list A) (ls : list (list A)) :
  (forall l, (length (f l) <= length (g l))%nat) ->
  (length (concat (map f ls)) <= length (concat (map g ls)))%nat.
Proof.
  intros Hfg. induction ls as [|l ls IH]; [reflexivity|].
  simpl. rewrite !length_app. specialize (Hfg l). lia.
Qed.

Lemma length_allSurvivingQuads_le b (st : ExtractorState V) :
  (length (allSurvivingQuads b st) <= countQuads (m_vecQuads st))%nat.
Proof.
  rewrite <- length_allSurvivingQuads_false.
  unfold allSurvivingQuads.
  induction allFaces as [|f fs IH]; [reflexivity|].
  simpl. rewrite !length_app.
  pose proof (length_concat_map_le
                (survivingQuads b (result st))
                (survivingQuads false (result st)) (m_vecQuads st f)) as Hle.
  assert (forall l, (length (survivingQuads b (result st) l)
                     <= length (survivingQuads false (result st) l))%nat) as Hl.
  { intros l. destruct b; [|reflexivity].
    unfold survivingQuads. apply mergeUntilStable_length. }
  specialize (Hle Hl). lia.
Qed.

(** Whatever the volume and the callbacks, a normal return of the
    extraction comes with one quad for every face the callback asked for
    when merging is off, and with no more than that when it is on; the
    mesh holds nine indices for every quad left and at most four
    vertices for every quad left. *)
Theorem extraction_face_count bMergeQuads (result0 m : Mesh V) :
  extractCubicMeshCustom volData isQuadNeeded contributeToAO ffMaterial
    region bMergeQuads result0 = Ok tt m ->
  exists quads,
    extractedQuads volData isQuadNeeded contributeToAO ffMaterial region
      bMergeQuads result0 = Some quads
    /\ (length quads <= facesNeeded)%nat
    /\ (bMergeQuads = false -> length quads = facesNeeded)
    /\ length (m_vecIndices m) = (9 * length quads)%nat
    /\ (length (m_vecVertices m) <= 4 * length quads)%nat.
Proof.
  unfold extractCubicMeshCustom, extractedQuads.
  destruct (_ <? getWidthInVoxels region) eqn:HW; [discriminate|].
  destruct (_ <? getHeightInVoxels region) eqn:HH; [discriminate|].
  destruct (_ <? getDepthInVoxels region) eqn:HD; [discriminate|].
  set (st0 := mkState (clear result0) (clearedSlice ffMaterial)
                      (clearedSlice ffMaterial) (initialQuads region)).
  pose proof (sweep_pushed (regionFits_checks region HW HH HD) st0
                (quadsPushed_initial _ _ _)) as Hpushed.
  pose proof (sweep_indices volData isQuadNeeded contributeToAO ffMaterial
                region [] st0 eq_refl) as Hidx.
  destruct (sweep _ _ _ _ _ _) as [u st|e st]; [|discriminate].
  intros [= <-]. destruct Hpushed as [Hcount _]. unfold indicesAre in Hidx.
  exists (allSurvivingQuads bMergeQuads st).
  split; [reflexivity|].
  split; [rewrite <- Hcount; apply length_allSurvivingQuads_le|].
  split; [intros ->; rewrite <- Hcount; apply length_allSurvivingQuads_false|].
  assert (m_vecIndices (emitAll bMergeQuads st)
          = concat (map (emittedIndices (result st))
                        (allSurvivingQuads bMergeQuads st))) as Hemit
    by (rewrite emitAll_appends, Hidx; reflexivity).
  unfold removeUnusedVertices, setOffset.
  cbn [m_vecIndices m_vecVertices]. rewrite Hemit. split.
  - rewrite length_map. apply emitted_total_length.
  - etransitivity; [apply length_omap_le|].
    rewrite <- length_cornersOf. apply usedPositions_length_le.
    intros i. apply emitted_corners.
Qed.

End FaceCount.

(** A volume with a second solid voxel far away from the 3x3x3 block. *)
Definition farVoxelVolume : Z -> Z -> Z -> Z :=
  fun x y z =>
    if bool_decide ((x, y, z) = (9, 9, 9)) then 5
    else singleVoxelVolume (1, 1, 1) x y z.

(** The far voxel does not change the mesh of the 3x3x3 block. *)
Lemma extraction_reads_neighbourhood_witness :
  extractCubicMeshCustom farVoxelVolume solidEmptyQuadNeeded
    solidContributesToAO 255 wholeVolume true (mkMesh [] [] (0, 0, 0))
  = extractCubicMeshCustom (singleVoxelVolume (1, 1, 1)) solidEmptyQuadNeeded
      solidContributesToAO 255 wholeVolume true (mkMesh [] [] (0, 0, 0)).
Proof.
  apply (extraction_reads_neighbourhood farVoxelVolume
           (singleVoxelVolume (1, 1, 1)) solidEmptyQuadNeeded
           solidContributesToAO 255 wholeVolume true (mkMesh [] [] (0, 0, 0))).
  intros x y z Hx Hy Hz. unfold farVoxelVolume.
  rewrite bool_decide_eq_false_2; [reflexivity|].
  intros [= -> -> ->]. simpl in Hx. lia.
Defined.

(** The faces the centre voxel of the 3x3x3 block asks for. *)
Definition centreVoxelFaces : nat :=
  facesNeeded (singleVoxelVolume (1, 1, 1)) solidEmptyQuadNeeded wholeVolume.

Lemma extraction_face_count_witness :
  exists quads,
    singleVoxelQuads (1, 1, 1) false = Some quads
    /\ (length quads <= centreVoxelFaces)%nat
    /\ (false = false -> length quads = centreVoxelFaces)
    /\ length (m_vecIndices centreVoxelMesh) = (9 * length quads)%nat
    /\ (length (m_vecVertices centreVoxelMesh) <= 4 * length quads)%nat.
Proof.
  apply (extraction_face_count (singleVoxelVolume (1, 1, 1))
           solidEmptyQuadNeeded solidContributesToAO 255 wholeVolume false
           (mkMesh [] [] (0, 0, 0)) centreVoxelMesh).
  vm_compute. reflexivity.
Defined.

End CubicSweepFacts.

Module CubicGeometryFacts.
Import Cubic CubicFacts CubicMergeFacts CubicSweepFacts.
Local Open Scope Z_scope.

(** ** Counting a list by classes *)

Section Classes.
Context {A : Type}.

Lemma length_filter_iff (P Q : A -> Prop) `{!forall x, Decision (P x)}
    `{!forall x, Decision (Q x)} (l : list A) :
  (forall x, x ∈ l -> (P x <-> Q x)) ->
  length (filter P l) = length (filter Q l).
Proof.
  induction l as [|a l IH]; intros Hiff; [reflexivity|].
  assert (length (filter P l) = length (filter Q l)) as Hl.
  { apply IH. intros x Hx. apply Hiff. right. exact Hx. }
  rewrite !filter_cons. specialize (Hiff a ltac:(left)).
  destruct (decide (P a)), (decide (Q a)); simpl; try tauto; lia.
Qed.

(** A list whose elements fall into [N] classes of at most [k] elements
    each has at most [k * N] elements. *)
Lemma length_le_classes (code : A -> nat) (k : nat) : forall (N : nat) (l : list A),
  (forall x, x ∈ l -> (code x < N)%nat) ->
  (forall c, (c < N)%nat -> (length (filter (fun x => code x = c) l) <= k)%nat) ->
  (length l <= k * N)%nat.
Proof.
  induction N as [|N IH]; intros l Hcode Hclass.
  - destruct l as [|a l]; [simpl; lia|].
    specialize (Hcode a ltac:(left)). lia.
  - pose proof (Permutation_length (filter_app_complement
                  (fun x => code x = N) l)) as Hsplit.
    rewrite length_app in Hsplit.
    pose proof (Hclass N ltac:(lia)) as HN.
    set (rest := filter (fun x => code x <> N) l) in *.
    assert (length rest <= k * N)%nat as Hrest.
    { apply IH.
      - intros x Hx. apply list_elem_of_filter in Hx as [Hne Hx].
        specialize (Hcode x Hx). lia.
      - intros c Hc. etransitivity; [|apply (Hclass c); lia].
        apply sublist_length, filter_sublist, sublist_filter. }
    lia.
Qed.

End Classes.

Lemma vertexAmbientOcclusion_range (side1 side2 corner : bool) :
  0 <= vertexAmbientOcclusion side1 side2 corner <= 3.
Proof. destruct side1, side2, corner; vm_compute; split; discriminate. Qed.

(** ** The vertices behind the quads *)

Section Geometry.
Context {V : Type} `{EqDecision V} `{Inhabited V}.
Variable volData : Z -> Z -> Z -> V.
Variable isQuadNeeded : V -> V -> option V.
Variable contributeToAO : V -> bool.
Variable ffMaterial : V.
Variable region : Region.
Implicit Types (vs : list (CubicVertex V)) (a : Array3 V) (p : Z * Z * Z).

(** The test that decides whether the face [f] of the voxel
    [(x, y, z)] gets a quad: the negative faces test the voxel against
    its left, lower or front neighbour, the positive faces, which belong
    to that neighbour, test the neighbour against the voxel. *)
Definition faceTest (f : FaceNames) (x y z : Z) : option V :=
  match f with
  | NegativeX => isQuadNeeded (volData x y z) (volData (x - 1) y z)
  | PositiveX => isQuadNeeded (volData (x - 1) y z) (volData x y z)
  | NegativeY => isQuadNeeded (volData x y z) (volData x (y - 1) z)
  | PositiveY => isQuadNeeded (volData x (y - 1) z) (volData x y z)
  | NegativeZ => isQuadNeeded (volData x y z) (volData x y (z - 1))
  | PositiveZ => isQuadNeeded (volData x y (z - 1)) (volData x y z)
  end.

(** The lattice points of the four corners of that quad, in the order of
    [Quad::vertices], for the voxel at region-relative position [p]. *)
Definition faceCorners (f : FaceNames) p : list (Z * Z * Z) :=
  let '(x, y, z) := p in
  match f with
  | NegativeX => [(x, y, z); (x, y, z + 1); (x, y + 1, z + 1); (x, y + 1, z)]
  | PositiveX => [(x, y, z); (x, y + 1, z); (x, y + 1, z + 1); (x, y, z + 1)]
  | NegativeY => [(x, y, z); (x + 1, y, z); (x + 1, y, z + 1); (x, y, z + 1)]
  | PositiveY => [(x, y, z); (x, y, z + 1); (x + 1, y, z + 1); (x + 1, y, z)]
  | NegativeZ => [(x, y, z); (x, y + 1, z); (x + 1, y + 1, z); (x + 1, y, z)]
  | PositiveZ => [(x, y, z); (x + 1, y, z); (x + 1, y + 1, z); (x, y + 1, z)]
  end.

(** The list of [m_vecQuads[f]] the quad goes to. *)
Definition faceSlice (f : FaceNames) p : Z :=
  let '(x, y, z) := p in
  match f with
  | NegativeX | PositiveX => x
  | NegativeY | PositiveY => y
  | NegativeZ | PositiveZ => z
  end.

(** The vertex with index [i] sits at the lattice point [p] and carries
    [material]. *)
Definition vertexIs vs (i : Z) p (material : V) : Prop :=
  0 <= i
  /\ exists v, vs !! Z.to_nat i = Some v
       /\ encodedPosition v = p /\ data v = material.

Definition inRegion (x y z : Z) : Prop :=
  getLowerX region <= x <= getUpperX region
  /\ getLowerY region <= y <= getUpperY region
  /\ getLowerZ region <= z <= getUpperZ region.

(** The quad [q], stored in the list [slice] of the face [f], is the
    face [f] of a voxel of the region for which the callback answered
    with a material; its four indices name the vertices at the four
    corners of that face, each with that material. *)
Definition quadOk vs (f : FaceNames) (slice : nat) (q : Quad) : Prop :=
  exists x y z material,
    inRegion x y z
    /\ faceTest f x y z = Some material
    /\ let p := (x - getLowerX region, y - getLowerY region,
                 z - getLowerZ region) in
       Z.of_nat slice = faceSlice f p
       /\ Forall2 (fun i c => vertexIs vs i c material)
                  (quadVertices q) (faceCorners f p).

(** A vertex of the mesh lies on the lattice of the region and its
    occlusion is one of 0, 1, 2, 3. *)
Definition vertexOk (v : CubicVertex V) : Prop :=
  0 <= (encodedPosition v).1.1 <= getWidthInVoxels region
  /\ 0 <= (encodedPosition v).1.2 <= getHeightInVoxels region
  /\ 0 <= (encodedPosition v).2 <= getDepthInVoxels region
  /\ 0 <= ambientOcclusion v <= 3.

(** Every taken slot of a slice buffer holds the index of the vertex of
    its plane [z] that it describes. *)
Definition slotsSound vs a (z : Z) : Prop :=
  forall x y ct, iIndex (a x y ct) <> -1 ->
    0 <= iIndex (a x y ct)
    /\ vs !! Z.to_nat (iIndex (a x y ct))
       = Some (mkCubicVertex (x, y, z) (uMaterial (a x y ct))
                             (entryAmbientOcclusion (a x y ct))).

Definition quadsSound vs (vecQuads : FaceNames -> list (list Quad)) : Prop :=
  forall f slice l, vecQuads f !! slice = Some l -> Forall (quadOk vs f slice) l.

(** What the sweep knows about the indices [addVertex] has returned for
    the quad under construction. *)
Definition knownOk vs (k : Z * (Z * Z * Z) * V) : Prop :=
  vertexIs vs k.1.1 k.1.2 k.2.

Definition soundInv (regZ : Z) (known : list (Z * (Z * Z * Z) * V))
    (st : ExtractorState V) : Prop :=
  let vs := m_vecVertices (result st) in
  sweepInv regZ st
  /\ slotsSound vs (m_previousSliceVertices st) regZ
  /\ slotsSound vs (m_currentSliceVertices st) (regZ + 1)
  /\ quadsSound vs (m_vecQuads st)
  /\ Forall vertexOk vs
  /\ Forall (knownOk vs) known.

Lemma vertexIs_snoc vs v i p material :
  vertexIs vs i p material -> vertexIs (vs ++ [v]) i p material.
Proof.
  intros (Hi & w & Hw & Hp & Hd). split; [exact Hi|].
  exists w. split; [apply lookup_app_l_Some; exact Hw|auto].
Qed.

Lemma quadOk_snoc vs v f slice q :
  quadOk vs f slice q -> quadOk (vs ++ [v]) f slice q.
Proof.
  intros (x & y & z & material & Hin & Ht & Hs & Hc).
  exists x, y, z, material. split; [exact Hin|]. split; [exact Ht|].
  split; [exact Hs|].
  eapply Forall2_impl; [exact Hc|]. intros i c. apply vertexIs_snoc.
Qed.

Lemma quadsSound_snoc vs v vecQuads :
  quadsSound vs vecQuads -> quadsSound (vs ++ [v]) vecQuads.
Proof.
  intros Hq f slice l Hl. eapply Forall_impl; [apply (Hq f slice l Hl)|].
  intros q. apply quadOk_snoc.
Qed.

Lemma knownOk_snoc vs v known :
  Forall (knownOk vs) known -> Forall (knownOk (vs ++ [v])) known.
Proof.
  intros Hk. eapply Forall_impl; [exact Hk|].
  intros k. apply vertexIs_snoc.
Qed.

Lemma slotsSound_snoc vs v a z :
  slotsSound vs a z -> slotsSound (vs ++ [v]) a z.
Proof.
  intros Hs x y ct Hne. destruct (Hs x y ct Hne) as [Hi Hv].
  split; [exact Hi|]. apply lookup_app_l_Some. exact Hv.
Qed.

Lemma slotsSound_alloc vs a z x0 y0 k material ao :
  slotsSound vs a z ->
  slotsSound (vs ++ [mkCubicVertex (x0, y0, z) material ao])
             (arraySet a x0 y0 k
                (mkIndexAndMaterial (Z.of_nat (length vs)) material ao)) z.
Proof.
  intros Hs x y ct Hne.
  destruct (decide ((x, y, ct) = (x0, y0, k))) as [[= -> -> ->]|Hother].
  - rewrite arraySet_eq in Hne |- *. simpl. split; [lia|].
    rewrite Nat2Z.id. apply list_lookup_middle. reflexivity.
  - rewrite arraySet_ne in Hne |- * by exact Hother.
    destruct (Hs x y ct Hne) as [Hi Hv].
    split; [exact Hi|]. apply lookup_app_l_Some. exact Hv.
Qed.

Lemma slotsSound_cleared vs z : slotsSound vs (clearedSlice ffMaterial) z.
Proof. intros x y ct Hne. simpl in Hne. congruence. Qed.

(** The position of a vertex with coordinates below 256, as one
    number. *)
Definition positionCode (v : CubicVertex V) : nat :=
  Z.to_nat ((encodedPosition v).1.1 + 256 * (encodedPosition v).1.2
            + 65536 * (encodedPosition v).2).

(** Eight vertices for each of the [256^3] lattice points at most. *)
Lemma vertex_count_bound vs zmax :
  meshInv vs -> boundedBy vs zmax -> zmax <= 255 ->
  Z.of_nat (length vs) <= 2 ^ 27.
Proof.
  intros Hm Hb Hz.
  assert (length vs <= 8 * Z.to_nat (2 ^ 24))%nat as Hlen; [|lia].
  apply (length_le_classes positionCode).
  - intros v Hv. destruct (Hb v Hv) as (Hx & Hy & Hvz).
    unfold positionCode. lia.
  - intros c Hc.
    set (p := (Z.of_nat c mod 256, (Z.of_nat c / 256) mod 256,
               Z.of_nat c / 65536)).
    destruct (Hm p) as [_ Hle]. unfold attributesAt, verticesAt in Hle.
    rewrite length_fmap in Hle.
    rewrite (length_filter_iff _ (fun v => encodedPosition v = p));
      [exact Hle|].
    intros v Hv. destruct (Hb v Hv) as (Hx & Hy & Hvz).
    unfold positionCode, p.
    destruct (encodedPosition v) as [[x y] z]. simpl in *. split.
    + intros <-. rewrite Z2Nat.id by lia.
      f_equal; [f_equal|]; Z.to_euclidean_division_equations; lia.
    + intros [= -> -> ->]. Z.to_euclidean_division_equations. lia.
Qed.

Lemma addVertexIn_sound regZ known sel uX uY uZ material face1 face2 corner :
  regionFits region ->
  0 <= regZ < getDepthInVoxels region ->
  0 <= uX <= getWidthInVoxels region ->
  0 <= uY <= getHeightInVoxels region ->
  uZ = planeOf sel regZ ->
  hoare (soundInv regZ known)
        (addVertexIn contributeToAO sel uX uY uZ material face1 face2 corner)
        (fun i => soundInv regZ ((i, (uX, uY, uZ), material) :: known))
        onlyExhausted.
Proof.
  intros (HW & HH & HD) HrZ HX HY HZ s Hs.
  destruct Hs as (Hsw & Hprev & Hcur & Hquads & Hok & Hknown).
  assert (Hsw' := addVertexIn_inv volData isQuadNeeded contributeToAO
                    ffMaterial regZ sel uX uY uZ material
                    face1 face2 corner ltac:(lia) ltac:(lia) ltac:(lia) HZ
                    s Hsw).
  assert (Z.of_nat (length (m_vecVertices (result s))) <= 2 ^ 27) as Hcount.
  { destruct Hsw as (Hm & Hb & _).
    apply (vertex_count_bound _ (regZ + 1)); [assumption..|lia]. }
  assert (0 <= uZ <= getDepthInVoxels region) as HuZ
    by (subst uZ; destruct sel; simpl; lia).
  unfold addVertexIn, addVertex in *. cbv zeta in *.
  change MaxVerticesPerPosition with 8%nat in *.
  pose proof (vertexAmbientOcclusion_range (contributeToAO face1)
                (contributeToAO face2) (contributeToAO corner)) as Hao.
  set (ao := vertexAmbientOcclusion _ _ _) in *.
  assert (slotsSound (m_vecVertices (result s)) (getSlice sel s) uZ) as Hsel
    by (subst uZ; destruct sel; assumption).
  destruct (addVertexFrom_outcome uX uY uZ material ao (getSlice sel s)
              (result s) 8 0)
    as [(k & Hk & Hblk & Ho & Hma & Hr)|[(k & Hk & Hblk & Ho & Hr)|(Hblk & Hr)]];
    rewrite Hr in Hsw' |- *; clear Hr; [| |exact Hsw'].
  - (* an existing vertex is returned *)
    destruct (Hsel uX uY k Ho) as [Hi Hv].
    destruct Hma as [Hmat Hocc].
    assert (Z.to_nat (iIndex (getSlice sel s uX uY k))
            < length (m_vecVertices (result s)))%nat as Hlt
      by (eapply lookup_lt_Some; exact Hv).
    assert (uint32 (iIndex (getSlice sel s uX uY k))
            = iIndex (getSlice sel s uX uY k)) as ->
      by (unfold uint32; apply Z.mod_small; lia).
    assert (vertexIs (m_vecVertices (result s))
              (iIndex (getSlice sel s uX uY k)) (uX, uY, uZ) material) as Hnew.
    { split; [exact Hi|]. eexists. split; [exact Hv|]. simpl. auto. }
    destruct sel; unfold soundInv; simpl in *;
      (split; [exact Hsw'|]); (split; [exact Hprev|]);
      (split; [exact Hcur|]); (split; [exact Hquads|]);
      (split; [exact Hok|]); (constructor; [exact Hnew|exact Hknown]).
  - (* a new vertex is appended *)
    assert (uint32 (Z.of_nat (length (m_vecVertices (result s))))
            = Z.of_nat (length (m_vecVertices (result s)))) as ->
      by (unfold uint32; apply Z.mod_small; lia).
    unfold allocatedIn in *. rewrite !uint8_small in * by lia.
    set (v := mkCubicVertex (uX, uY, uZ) material ao) in *.
    assert (vertexIs (m_vecVertices (result s) ++ [v])
              (Z.of_nat (length (m_vecVertices (result s))))
              (uX, uY, uZ) material) as Hnew.
    { split; [lia|]. exists v. rewrite Nat2Z.id.
      split; [apply list_lookup_middle; reflexivity|]. simpl. auto. }
    assert (Forall vertexOk (m_vecVertices (result s) ++ [v])) as Hok'.
    { apply Forall_app. split; [exact Hok|]. constructor; [|constructor].
      unfold vertexOk, v. simpl. lia. }
    destruct sel; subst uZ; unfold soundInv; simpl in *;
      (split; [exact Hsw'|]).
    + split; [apply slotsSound_alloc; exact Hprev|].
      split; [apply slotsSound_snoc; exact Hcur|].
      split; [apply quadsSound_snoc; exact Hquads|].
      split; [exact Hok'|].
      constructor; [exact Hnew|apply knownOk_snoc; exact Hknown].
    + split; [apply slotsSound_snoc; exact Hprev|].
      split; [apply slotsSound_alloc; exact Hcur|].
      split; [apply quadsSound_snoc; exact Hquads|].
      split; [exact Hok'|].
      constructor; [exact Hnew|apply knownOk_snoc; exact Hknown].
Qed.

Lemma pushQuad_sound regZ known face slice q :
  0 <= slice ->
  (forall vs, Forall (knownOk vs) known ->
     quadOk vs face (Z.to_nat slice) q) ->
  hoare (soundInv regZ known) (pushQuad face slice q)
        (fun _ => soundInv regZ []) onlyExhausted.
Proof.
  intros Hslice Hq. apply hoare_modify.
  intros s (Hsw & Hprev & Hcur & Hquads & Hok & Hknown).
  unfold soundInv. simpl.
  split; [exact Hsw|]. split; [exact Hprev|]. split; [exact Hcur|].
  split; [|split; [exact Hok|constructor]].
  intros f sl l Hl. destruct (decide (f = face)) as [->|Hne];
    [|apply (Hquads f sl l Hl)].
  rewrite list_lookup_alter in Hl.
  destruct (decide (Z.to_nat slice = sl)) as [<-|Hsl];
    [|apply (Hquads face sl l Hl)].
  destruct (m_vecQuads s face !! Z.to_nat slice) as [l0|] eqn:Hl0;
    [|discriminate].
  simpl in Hl. inversion Hl; subst l. apply Forall_app. split.
  - apply (Hquads face _ l0 Hl0).
  - constructor; [|constructor]. apply Hq. exact Hknown.
Qed.

Lemma block_sound regZ (c : option V)
    (block : V -> M (ExtractorState V) unit) :
  (forall material, c = Some material ->
     hoare (soundInv regZ []) (block material)
           (fun _ => soundInv regZ []) onlyExhausted) ->
  hoare (soundInv regZ [])
        (match c with Some material => block material | None => ret tt end)
        (fun _ => soundInv regZ []) onlyExhausted.
Proof.
  intros Hblock. destruct c as [material|].
  - apply Hblock. reflexivity.
  - apply hoare_ret. auto.
Qed.

Lemma faceTest_peek x y z :
  (isQuadNeeded (peekVoxel volData (x, y, z) 0 0 0)
                (peekVoxel volData (x, y, z) (-1) 0 0)
   = faceTest NegativeX x y z)
  /\ (isQuadNeeded (peekVoxel volData (x, y, z) (-1) 0 0)
                   (peekVoxel volData (x, y, z) 0 0 0)
      = faceTest PositiveX x y z)
  /\ (isQuadNeeded (peekVoxel volData (x, y, z) 0 0 0)
                   (peekVoxel volData (x, y, z) 0 (-1) 0)
      = faceTest NegativeY x y z)
  /\ (isQuadNeeded (peekVoxel volData (x, y, z) 0 (-1) 0)
                   (peekVoxel volData (x, y, z) 0 0 0)
      = faceTest PositiveY x y z)
  /\ (isQuadNeeded (peekVoxel volData (x, y, z) 0 0 0)
                   (peekVoxel volData (x, y, z) 0 0 (-1))
      = faceTest NegativeZ x y z)
  /\ (isQuadNeeded (peekVoxel volData (x, y, z) 0 0 (-1))
                   (peekVoxel volData (x, y, z) 0 0 0)
      = faceTest PositiveZ x y z).
Proof.
  unfold peekVoxel, faceTest. rewrite !Z.add_0_r.
  replace (x + -1) with (x - 1) by lia.
  replace (y + -1) with (y - 1) by lia.
  replace (z + -1) with (z - 1) by lia.
  repeat split.
Qed.

Ltac known_vertices :=
  repeat match goal with
         | H : Forall (knownOk _) (_ :: _) |- _ =>
             apply Forall_cons in H; destruct H as [? H]
         end.

Ltac sound_step Hfit :=
  match goal with
  | |- hoare _ (bind (addVertexIn _ _ _ _ _ _ _ _ _) _) _ _ =>
      eapply hoare_bind;
      [apply addVertexIn_sound;
       [exact Hfit
       |unfold getDepthInVoxels; lia
       |unfold getWidthInVoxels; lia
       |unfold getHeightInVoxels; lia
       |simpl; lia]
      |intros ?]
  end.

Lemma processVoxel_sound x y z :
  regionFits region -> inRegion x y z ->
  hoare (soundInv (z - getLowerZ region) [])
        (processVoxel volData isQuadNeeded contributeToAO region x y z)
        (fun _ => soundInv (z - getLowerZ region) []) onlyExhausted.
Proof.
  intros Hfit Hin.
  destruct (faceTest_peek x y z) as (T1 & T2 & T3 & T4 & T5 & T6).
  pose proof Hfit as (HW & HH & HD). pose proof Hin as (Hx & Hy & Hz).
  unfold getWidthInVoxels, getHeightInVoxels, getDepthInVoxels in *.
  unfold processVoxel. cbv zeta.
  rewrite (uint32_small (x - getLowerX region)) by lia.
  rewrite (uint32_small (y - getLowerY region)) by lia.
  rewrite (uint32_small (z - getLowerZ region)) by lia.
  rewrite (uint32_small (x - getLowerX region + 1)) by lia.
  rewrite (uint32_small (y - getLowerY region + 1)) by lia.
  rewrite (uint32_small (z - getLowerZ region + 1)) by lia.
  rewrite T1, T2, T3, T4, T5, T6.
  do 5 (eapply hoare_bind;
        [apply block_sound; intros material Hc;
         do 4 sound_step Hfit;
         (apply pushQuad_sound; [lia|]; intros vs Hk; known_vertices;
          exists x, y, z, material;
          split; [exact Hin|]; split; [exact Hc|]; cbv zeta;
          split; [simpl; lia|]; simpl;
          repeat (constructor; [assumption|]); constructor)
        |intros ?]).
  apply block_sound; intros material Hc;
    do 4 sound_step Hfit;
    (apply pushQuad_sound; [lia|]; intros vs Hk; known_vertices;
     exists x, y, z, material;
     split; [exact Hin|]; split; [exact Hc|]; cbv zeta;
     split; [simpl; lia|]; simpl;
     repeat (constructor; [assumption|]); constructor).
Qed.

Lemma processRow_sound y z :
  regionFits region ->
  getLowerY region <= y <= getUpperY region ->
  getLowerZ region <= z <= getUpperZ region ->
  hoare (soundInv (z - getLowerZ region) [])
        (processRow volData isQuadNeeded contributeToAO region y z)
        (fun _ => soundInv (z - getLowerZ region) []) onlyExhausted.
Proof.
  intros Hfit Hy Hz. apply hoare_forEach. intros x Hx.
  apply elem_of_seqZ in Hx.
  apply processVoxel_sound; [exact Hfit|unfold inRegion; lia].
Qed.

Lemma nextSlice_sound regZ :
  hoare (soundInv regZ []) (nextSlice ffMaterial)
        (fun _ => soundInv (regZ + 1) []) onlyExhausted.
Proof.
  intros s (Hsw & Hprev & Hcur & Hquads & Hok & Hknown).
  pose proof (nextSlice_inv ffMaterial regZ s Hsw) as Hsw'.
  unfold nextSlice, modify in *. unfold soundInv. simpl.
  split; [exact Hsw'|]. split; [exact Hcur|].
  split; [apply slotsSound_cleared|]. auto.
Qed.

Lemma processSlice_sound z :
  regionFits region ->
  getLowerZ region <= z <= getUpperZ region ->
  hoare (soundInv (z - getLowerZ region) [])
        (processSlice volData isQuadNeeded contributeToAO ffMaterial region z)
        (fun _ => soundInv (z + 1 - getLowerZ region) []) onlyExhausted.
Proof.
  intros Hfit Hz. unfold processSlice. eapply hoare_bind.
  - apply hoare_forEach. intros y Hy. apply elem_of_seqZ in Hy.
    apply processRow_sound; [exact Hfit|lia..].
  - intros u.
    replace (z + 1 - getLowerZ region) with (z - getLowerZ region + 1) by lia.
    apply nextSlice_sound.
Qed.

(** The state in which the sweep of [extractCubicMeshCustom] starts. *)
Definition sweepStart (result0 : Mesh V) : ExtractorState V :=
  mkState (clear result0) (clearedSlice ffMaterial) (clearedSlice ffMaterial)
          (initialQuads region).

Lemma soundInv_initial (result0 : Mesh V) : soundInv 0 [] (sweepStart result0).
Proof.
  unfold soundInv, sweepStart. simpl.
  split; [apply sweepInv_initial|].
  split; [apply slotsSound_cleared|]. split; [apply slotsSound_cleared|].
  split; [|split; constructor].
  intros f slice l Hl.
  assert (l = []) as ->; [|constructor].
  destruct f; simpl in Hl; apply lookup_replicate in Hl as [-> _]; reflexivity.
Qed.

Lemma sweep_sound (result0 : Mesh V) st :
  regionFits region ->
  sweep volData isQuadNeeded contributeToAO ffMaterial region
        (sweepStart result0) = Ok tt st ->
  quadsSound (m_vecVertices (result st)) (m_vecQuads st)
  /\ Forall vertexOk (m_vecVertices (result st)).
Proof.
  intros Hfit Hrun.
  assert (hoare (soundInv 0 [])
            (sweep volData isQuadNeeded contributeToAO ffMaterial region)
            (fun _ st => quadsSound (m_vecVertices (result st)) (m_vecQuads st)
                         /\ Forall vertexOk (m_vecVertices (result st)))
            onlyExhausted) as Hsweep.
  { unfold sweep. rewrite seqZ_to_nat. eapply hoare_weaken.
    - apply (hoare_forEach_seqZ
               (fun i => soundInv (i - getLowerZ region) []) onlyExhausted).
      intros i Hi. apply processSlice_sound; [exact Hfit|lia].
    - intros s Hs. simpl. rewrite Z.sub_diag. exact Hs.
    - intros u s (_ & _ & _ & Hq & Hok & _). auto. }
  specialize (Hsweep _ (soundInv_initial result0)).
  rewrite Hrun in Hsweep. exact Hsweep.
Qed.

(** After the sweep every quad in a list of [m_vecQuads] is a face, on
    the side the list stands for, of a voxel of the region for which the
    callback asked for a quad; it is filed under the slice of its plane,
    and its four indices name the four vertices at the corners of that
    face, in the order of the six blocks of the loop body, each carrying
    the material the callback returned. *)
Theorem sweep_quads_geometry (result0 : Mesh V) st f (slice : nat) l q :
  regionFits region ->
  sweep volData isQuadNeeded contributeToAO ffMaterial region
        (sweepStart result0) = Ok tt st ->
  m_vecQuads st f !! slice = Some l -> q ∈ l ->
  quadOk (m_vecVertices (result st)) f slice q.
Proof.
  intros Hfit Hrun Hl Hq.
  destruct (sweep_sound result0 st Hfit Hrun) as [Hquads _].
  specialize (Hquads f slice l Hl). rewrite Forall_forall in Hquads.
  apply Hquads. exact Hq.
Qed.

(** *** The mesh that is returned *)

Definition validIndex (n : nat) (i : Z) : Prop := 0 <= i < Z.of_nat n.

Lemma quadOk_valid vs f slice q :
  quadOk vs f slice q -> Forall (validIndex (length vs)) (quadVertices q).
Proof.
  intros (x & y & z & material & _ & _ & _ & Hc). cbv zeta in Hc.
  induction Hc as [|i c il cl (Hi & v & Hv & _) _ IH]; constructor; [|exact IH].
  apply lookup_lt_Some in Hv. unfold validIndex. lia.
Qed.

Lemma survivingQuads_valid b (m : Mesh V) l n q :
  Forall (fun q0 => Forall (validIndex n) (quadVertices q0)) l ->
  q ∈ survivingQuads b m l -> Forall (validIndex n) (quadVertices q).
Proof.
  intros Hl Hq. rewrite Forall_forall in Hl.
  assert (derivedFrom m l q) as [_ Hidx].
  { unfold survivingQuads in Hq. destruct b.
    - assert (Forall (derivedFrom m l) l) as Hself.
      { apply Forall_forall. intros q0 Hq0. apply derivedFrom_self. exact Hq0. }
      pose proof (mergeUntilStable_derived m l (S (length l)) l Hself) as Hd.
      rewrite Forall_forall in Hd. apply Hd. exact Hq.
    - apply derivedFrom_self. exact Hq. }
  apply Forall_forall. intros i Hi.
  destruct (Hidx i Hi) as (q0 & Hq0 & Hi0).
  specialize (Hl q0 Hq0). rewrite Forall_forall in Hl. apply Hl. exact Hi0.
Qed.

Lemma allSurvivingQuads_valid b (st : ExtractorState V) i :
  quadsSound (m_vecVertices (result st)) (m_vecQuads st) ->
  i ∈ cornersOf (allSurvivingQuads b st) ->
  validIndex (length (m_vecVertices (result st))) i.
Proof.
  intros Hquads Hi. unfold cornersOf in Hi.
  apply list_elem_of_In, in_concat in Hi as (c & Hc & Hi).
  apply in_map_iff in Hc as (q & <- & Hq).
  unfold allSurvivingQuads in Hq.
  apply in_concat in Hq as (qs & Hqs & Hq).
  apply in_map_iff in Hqs as (f & <- & _).
  apply in_concat in Hq as (sv & Hsv & Hq).
  apply in_map_iff in Hsv as (l & <- & Hl).
  apply list_elem_of_In, list_elem_of_lookup_1 in Hl as [slice Hl].
  specialize (Hquads f slice l Hl).
  assert (Forall (validIndex (length (m_vecVertices (result st))))
                 (quadVertices q)) as Hvalid.
  { apply (survivingQuads_valid b (result st) l); [|apply list_elem_of_In, Hq].
    eapply Forall_impl; [exact Hquads|]. intros q0. apply quadOk_valid. }
  rewrite Forall_forall in Hvalid. apply Hvalid, list_elem_of_In, Hi.
Qed.

(** The new number of a referenced vertex is below the new table
    size. *)
Lemma newPos_bound (idx : list Z) (n : nat) (i : Z) :
  validIndex n i -> i ∈ idx ->
  validIndex (length (usedPositions idx n)) (newPos idx i).
Proof.
  intros [Hi0 Hin] Hmem. unfold validIndex, newPos, usedPositions.
  split; [lia|]. apply inj_lt.
  set (k := Z.to_nat i). assert (k < n)%nat as Hk by lia.
  assert (seq 0 n = seq 0 k ++ k :: seq (S k) (n - S k)) as ->.
  { replace n with (k + S (n - S k))%nat at 1 by lia.
    rewrite seq_app. reflexivity. }
  rewrite filter_app, length_app, filter_cons_True.
  - simpl. lia.
  - unfold isVertexUsed. apply bool_decide_eq_true.
    unfold k. rewrite Z2Nat.id by lia. exact Hmem.
Qed.

Lemma removeUnusedVertices_valid (m : Mesh V) :
  Forall (validIndex (length (m_vecVertices m))) (m_vecIndices m) ->
  Forall (validIndex (length (m_vecVertices (removeUnusedVertices m))))
         (m_vecIndices (removeUnusedVertices m)).
Proof.
  intros Hvalid. unfold removeUnusedVertices. simpl.
  rewrite DecimatorFacts.length_compact.
  - rewrite Forall_forall in Hvalid. apply Forall_forall. intros j Hj.
    apply list_elem_of_In, in_map_iff in Hj as (i & <- & Hi).
    apply list_elem_of_In in Hi. apply newPos_bound; auto.
  - apply Forall_forall. intros k Hk. unfold usedPositions in Hk.
    apply list_elem_of_filter in Hk as [_ Hk]. apply elem_of_seq in Hk. lia.
Qed.

(** Every index of a mesh the extraction returns names a vertex of that
    mesh. *)
Theorem extracted_indices_valid bMergeQuads (result0 m : Mesh V) :
  extractCubicMeshCustom volData isQuadNeeded contributeToAO ffMaterial
    region bMergeQuads result0 = Ok tt m ->
  Forall (fun i => 0 <= i < Z.of_nat (length (m_vecVertices m)))
         (m_vecIndices m).
Proof.
  unfold extractCubicMeshCustom.
  destruct (_ <? getWidthInVoxels region) eqn:HW; [discriminate|].
  destruct (_ <? getHeightInVoxels region) eqn:HH; [discriminate|].
  destruct (_ <? getDepthInVoxels region) eqn:HD; [discriminate|].
  pose proof (regionFits_checks region HW HH HD) as Hfit.
  pose proof (sweep_indices volData isQuadNeeded contributeToAO ffMaterial
                region [] (sweepStart result0) eq_refl) as Hidx.
  pose proof (sweep_sound result0) as Hsound.
  fold (sweepStart result0).
  destruct (sweep _ _ _ _ _ _) as [[] st|e st]; [|discriminate].
  intros [= <-]. destruct (Hsound st Hfit eq_refl) as [Hquads _].
  unfold indicesAre in Hidx.
  apply removeUnusedVertices_valid. unfold setOffset.
  cbn [m_vecIndices m_vecVertices].
  rewrite emitAll_vertices, emitAll_appends, Hidx. simpl app.
  apply Forall_forall. intros i Hi.
  apply (allSurvivingQuads_valid bMergeQuads st i Hquads).
  eapply emitted_corners. exact Hi.
Qed.

(** The decoded vertex, moved by the offset of the mesh, lies within
    half a voxel of the region. *)
Definition decodesNearRegion (v : CubicVertex V) : Prop :=
  let p := CubicDecoding.Vertex.position (CubicDecoding.decodeVertex v) in
  (inject_Z (getLowerX region) - (1 # 2)
     <= Decimator.vecX p + inject_Z (getLowerX region)
     <= inject_Z (getUpperX region) + (1 # 2))%Q
  /\ (inject_Z (getLowerY region) - (1 # 2)
      <= Decimator.vecY p + inject_Z (getLowerY region)
      <= inject_Z (getUpperY region) + (1 # 2))%Q
  /\ (inject_Z (getLowerZ region) - (1 # 2)
      <= Decimator.vecZ p + inject_Z (getLowerZ region)
      <= inject_Z (getUpperZ region) + (1 # 2))%Q.

Lemma vertexOk_decodes v : vertexOk v -> decodesNearRegion v.
Proof.
  unfold vertexOk, decodesNearRegion, getWidthInVoxels, getHeightInVoxels,
    getDepthInVoxels.
  destruct v as [[[x y] z] d ao]. simpl.
  intros (Hx & Hy & Hz & _).
  unfold Qle, Qminus, Qplus, Qopp, inject_Z. simpl. lia.
Qed.

(** In a mesh the extraction returns, the offset is the lower corner of
    the region; every vertex sits on a lattice point of the region, from
    0 to the size of the region along each axis, so that no byte of an
    encoded position has wrapped; its occlusion is one of 0, 1, 2, 3;
    and the decoded vertex, moved by the offset, lies within half a
    voxel of the region. *)
Theorem extracted_vertices_on_lattice bMergeQuads (result0 m : Mesh V) :
  extractCubicMeshCustom volData isQuadNeeded contributeToAO ffMaterial
    region bMergeQuads result0 = Ok tt m ->
  m_offset m = getLowerCorner region
  /\ Forall (fun v => vertexOk v /\ decodesNearRegion v) (m_vecVertices m).
Proof.
  unfold extractCubicMeshCustom.
  destruct (_ <? getWidthInVoxels region) eqn:HW; [discriminate|].
  destruct (_ <? getHeightInVoxels region) eqn:HH; [discriminate|].
  destruct (_ <? getDepthInVoxels region) eqn:HD; [discriminate|].
  pose proof (regionFits_checks region HW HH HD) as Hfit.
  pose proof (sweep_sound result0) as Hsound.
  fold (sweepStart result0).
  destruct (sweep _ _ _ _ _ _) as [[] st|e st]; [|discriminate].
  intros [= <-]. destruct (Hsound st Hfit eq_refl) as [_ Hok].
  split; [reflexivity|].
  rewrite Forall_forall in Hok. apply Forall_forall. intros v Hv.
  assert (vertexOk v) as Hv'.
  { apply Hok. rewrite <- (emitAll_vertices bMergeQuads st).
    eapply elem_of_sublist; [exact Hv|].
    apply (removeUnusedVertices_sublist
             (setOffset (emitAll bMergeQuads st) (getLowerCorner region))). }
  split; [exact Hv'|apply vertexOk_decodes; exact Hv'].
Qed.

End Geometry.

(** The sweep over the 3x3x3 block with its centre voxel solid. *)
Definition centreVoxelSweep : Result (ExtractorState Z) unit :=
  sweep (singleVoxelVolume (1, 1, 1)) solidEmptyQuadNeeded
        solidContributesToAO 255 wholeVolume
        (sweepStart 255 wholeVolume (mkMesh [] [] (0, 0, 0))).

(** The left face of the centre voxel: the quad (0, 1, 2, 3) in slice 1
    of the list of the negative x direction. *)
Lemma sweep_quads_geometry_witness :
  quadOk (singleVoxelVolume (1, 1, 1)) solidEmptyQuadNeeded wholeVolume
         (m_vecVertices (result (finalState centreVoxelSweep)))
         NegativeX 1 (mkQuad 0 1 2 3).
Proof.
  apply (sweep_quads_geometry (singleVoxelVolume (1, 1, 1))
           solidEmptyQuadNeeded solidContributesToAO 255 wholeVolume
           (mkMesh [] [] (0, 0, 0)) (finalState centreVoxelSweep)
           NegativeX 1 [mkQuad 0 1 2 3] (mkQuad 0 1 2 3)).
  - vm_compute. repeat split; discriminate.
  - vm_compute. reflexivity.
  - vm_compute. reflexivity.
  - left.
Defined.

(** The 54 indices of the mesh of the centre voxel name its 8
    vertices. *)
Lemma extracted_indices_valid_witness :
  Forall (fun i => 0 <= i < Z.of_nat (length (m_vecVertices centreVoxelMesh)))
         (m_vecIndices centreVoxelMesh).
Proof.
  apply (extracted_indices_valid (singleVoxelVolume (1, 1, 1))
           solidEmptyQuadNeeded solidContributesToAO 255 wholeVolume false
           (mkMesh [] [] (0, 0, 0)) centreVoxelMesh).
  vm_compute. reflexivity.
Defined.

Lemma extracted_vertices_on_lattice_witness :
  m_offset centreVoxelMesh = getLowerCorner wholeVolume
  /\ Forall (fun v => vertexOk wholeVolume v /\ decodesNearRegion wholeVolume v)
            (m_vecVertices centreVoxelMesh).
Proof.
  apply (extracted_vertices_on_lattice (singleVoxelVolume (1, 1, 1))
           solidEmptyQuadNeeded solidContributesToAO 255 wholeVolume false
           (mkMesh [] [] (0, 0, 0)) centreVoxelMesh).
  vm_compute. reflexivity.
Defined.

End CubicGeometryFacts.

(** * Further properties of the mesh decimator *)

Module DecimatorPassFacts.
Import Decimator DecimatorFacts.

Lemma lookup_total_map {A B} `{!Inhabited A, !Inhabited B} (f : A -> B)
    (l : list A) (i : nat) :
  i < length l -> map f l !!! i = f (l !!! i).
Proof. apply (list_lookup_total_fmap f l i). Qed.

(** ** Counting the vertices with a property *)

Section Counting.
Implicit Types (P Q : nat -> Prop).






End Counting.

(** ** What one pass may collapse *)

Section PassCount.
Context {VertexType : Type}.
Variable collapseChecks : SurfaceMesh VertexType -> list nat -> nat -> nat -> bool.
Implicit Types (m : SurfaceMesh VertexType) (st : PassState).








(** *** What the accepted collapses have in common *)

(** Every vertex the mapper moves was moved by a collapse the checks
    accepted. *)
Lemma collapseTriangles_accepted (R : nat -> nat -> Prop) n m :
  (forall mapper v0 v1, collapseChecks m mapper v0 v1 = true -> R v0 v1) ->
  forall idx st,
    Forall (fun i => i < n) idx -> lockInv n st ->
    (forall v, v < n -> vertexMapper st !!! v <> v ->
               R v (vertexMapper st !!! v)) ->
    forall v, v < n ->
      vertexMapper (collapseTriangles collapseChecks m idx st) !!! v <> v ->
      R v (vertexMapper (collapseTriangles collapseChecks m idx st) !!! v).
Proof.
  intros Hchecks.
  assert (forall st v0 v1, lockInv n st -> v0 < n ->
            (forall v, v < n -> vertexMapper st !!! v <> v ->
                       R v (vertexMapper st !!! v)) ->
            forall v, v < n ->
              vertexMapper (collapseEdge collapseChecks m st v0 v1) !!! v <> v ->
              R v (vertexMapper (collapseEdge collapseChecks m st v0 v1) !!! v))
    as Hedge.
  { intros st v0 v1 Hinv Hv0 Hst v Hv.
    destruct (canCollapseEdge collapseChecks m st v0 v1) eqn:Hc;
      [|rewrite collapseEdge_reject by exact Hc; apply Hst; exact Hv].
    rewrite collapseEdge_accept by exact Hc. simpl.
    destruct (decide (v = v0)) as [->|Hne].
    - rewrite list_lookup_total_insert_eq
        by (rewrite (mapper_length _ _ Hinv); exact Hv0).
      intros _. apply (Hchecks (vertexMapper st)).
      unfold canCollapseEdge in Hc.
      destruct (_ || _); [discriminate|exact Hc].
    - rewrite list_lookup_total_insert_ne by congruence. apply Hst. exact Hv. }
  induction idx as [|a|a b|a b c tl IH] using triangle_ind;
    intros st Hwf Hinv Hst; try exact Hst.
  inversion Hwf as [|? ? Ha Hwf1]; subst.
  inversion Hwf1 as [|? ? Hb Hwf2]; subst.
  inversion Hwf2 as [|? ? Hc Hwf3]; subst.
  simpl. apply IH.
  - exact Hwf3.
  - repeat apply collapseEdge_lockInv; assumption.
  - apply Hedge; [repeat apply collapseEdge_lockInv; assumption|exact Hc|].
    apply Hedge; [apply collapseEdge_lockInv; assumption|exact Hb|].
    apply Hedge; assumption.
Qed.

Lemma passTables_accepted (R : nat -> nat -> Prop) m :
  (forall mapper v0 v1, collapseChecks m mapper v0 v1 = true -> R v0 v1) ->
  wellFormed m ->
  forall v, v < length (m_vecVertices m) ->
    vertexMapper (passTables collapseChecks m) !!! v <> v ->
    R v (vertexMapper (passTables collapseChecks m) !!! v).
Proof.
  intros Hchecks Hwf. unfold passTables.
  apply (collapseTriangles_accepted R _ m Hchecks);
    [exact Hwf|apply initialPass_lockInv|].
  intros v Hv Hm. simpl in Hm. rewrite lookup_total_seq_lt in Hm by exact Hv.
  simpl in Hm. congruence.
Qed.

(** *** What [execute] hands back *)

Lemma step_region m :
  m_Region (snd (stepResult collapseChecks m)) = m_Region m.
Proof. reflexivity. Qed.

Lemma step_sublist m :
  m_vecVertices (snd (stepResult collapseChecks m))
    `sublist_of` m_vecVertices m.
Proof.
  rewrite step_vertices. unfold usedVertices. apply compact_sublist.
Qed.

Lemma executeLoop_result : forall fuel m m',
  wellFormed m -> executeLoop collapseChecks fuel m = Some m' ->
  wellFormed m' /\ noDegenerate (m_vecTriangleIndices m')
  /\ m_vecVertices m' `sublist_of` m_vecVertices m
  /\ length (m_vecTriangleIndices m') <= length (m_vecTriangleIndices m)
  /\ m_Region m' = m_Region m.
Proof.
  induction fuel as [|fuel IH]; intros m m' Hwf Hrun; [discriminate|].
  rewrite executeLoop_S in Hrun.
  destruct (passHasResult m); [|discriminate].
  pose proof (step_wellFormed collapseChecks m Hwf) as Hwf1.
  pose proof (step_clean collapseChecks m) as Hclean1.
  pose proof (step_sublist m) as Hsub1.
  pose proof (step_size_parts collapseChecks m) as [_ Hlen1].
  destruct (0 <? fst (stepResult collapseChecks m)).
  - destruct (IH _ m' Hwf1 Hrun) as (Hwf' & Hclean' & Hsub' & Hlen' & Hreg').
    split; [exact Hwf'|]. split; [exact Hclean'|].
    split; [etransitivity; eassumption|]. split; [lia|].
    rewrite Hreg'. apply step_region.
  - inversion Hrun; subst m'. auto using step_region.
Qed.

(** Whenever [execute] returns, on a mesh whose indices are in range:
    the vertex table is a subsequence of the one it was given (no vertex
    is created, moved or reordered), the index buffer is no longer than
    before, its indices are in range and no triangle repeats a corner,
    the region is the same, and the only level-of-detail record left
    spans the whole index buffer. *)
Theorem execute_result fuel m m' :
  wellFormed m -> execute collapseChecks fuel m = Some m' ->
  m_vecVertices m' `sublist_of` m_vecVertices m
  /\ length (m_vecTriangleIndices m') <= length (m_vecTriangleIndices m)
  /\ wellFormed m'
  /\ noDegenerate (m_vecTriangleIndices m')
  /\ m_Region m' = m_Region m
  /\ m_vecLodRecords m' = [mkLod 0 (length (m_vecTriangleIndices m'))].
Proof.
  intros Hwf Hrun. unfold execute in Hrun.
  destruct (executeLoop collapseChecks fuel m) as [m1|] eqn:Hloop;
    [|discriminate].
  simpl in Hrun. inversion Hrun; subst m'.
  destruct (executeLoop_result fuel m m1 Hwf Hloop)
    as (Hwf' & Hclean' & Hsub' & Hlen' & Hreg').
  unfold resetLod, wellFormed in *. simpl. auto 10.
Qed.

End PassCount.

End DecimatorPassFacts.

(** * The tables a pass over [PositionMaterial] vertices fills *)

Module DecimatorTableFacts.
Import Decimator DecimatorFacts DecimatorPassFacts.

Section TableFacts.
Variable faceFlipTest : Vector3DFloat -> Vector3DFloat -> bool.
Implicit Types (m : SurfaceMesh PositionMaterial).

(** ** [hasDuplicate] *)

(** [j] is another vertex of the table that passes the duplicate test
    with [k], the test being taken as the loops take it: the position
    with the higher index first. *)
Definition duplicateOf m (k j : nat) : Prop :=
  j < length (m_vecVertices m) /\ j <> k
  /\ closeTogether (positionOf m (Nat.max j k)) (positionOf m (Nat.min j k))
     = true.

Definition flagsJustified m (hd : list bool) : Prop :=
  forall k, k < length (m_vecVertices m) -> hd !!! k = true ->
    exists j, duplicateOf m k j.

Lemma markPair_justified m outerCt hd innerCt :
  outerCt < innerCt < length (m_vecVertices m) ->
  flagsJustified m hd -> flagsJustified m (markPair m outerCt hd innerCt).
Proof.
  intros Hrange Hhd k Hk. unfold markPair.
  destruct (closeTogether _ _) eqn:Hclose; [|apply Hhd; exact Hk].
  destruct (decide (k = outerCt)) as [->|Hno].
  { intros _. exists innerCt. unfold duplicateOf.
    rewrite Nat.max_l, Nat.min_r by lia. split; [lia|]. split; [lia|exact Hclose]. }
  destruct (decide (k = innerCt)) as [->|Hni].
  { intros _. exists outerCt. unfold duplicateOf.
    rewrite Nat.max_r, Nat.min_l by lia. split; [lia|]. split; [lia|exact Hclose]. }
  rewrite !list_lookup_total_insert_ne by congruence. apply Hhd. exact Hk.
Qed.

Lemma markDuplicates_justified m hd outerCt :
  flagsJustified m hd -> flagsJustified m (markDuplicates m hd outerCt).
Proof.
  rewrite markDuplicates_fold.
  assert (forall l hd0,
            Forall (fun i => outerCt < i < length (m_vecVertices m)) l ->
            flagsJustified m hd0 ->
            flagsJustified m (foldl (markPair m outerCt) hd0 l)) as Hgen.
  { induction l as [|a l IH]; intros hd0 Hl Hhd0; [exact Hhd0|].
    inversion Hl; subst. simpl. apply IH; [assumption|].
    apply markPair_justified; assumption. }
  apply Hgen. apply Forall_forall. intros i Hi. apply elem_of_seq in Hi. lia.
Qed.

Lemma hasDuplicate_justified m : flagsJustified m (hasDuplicate m).
Proof.
  unfold hasDuplicate. cbv zeta.
  generalize (seq 0 (length (m_vecVertices m) - 1)). intros l.
  assert (flagsJustified m (replicate (length (m_vecVertices m)) false)) as H0.
  { intros k Hk. rewrite lookup_total_replicate_2 by exact Hk. discriminate. }
  revert H0. generalize (replicate (length (m_vecVertices m)) false).
  induction l as [|a l IH]; intros hd Hhd; [exact Hhd|].
  simpl. apply IH. apply markDuplicates_justified. exact Hhd.
Qed.

Lemma hasDuplicate_length m :
  length (hasDuplicate m) = length (m_vecVertices m).
Proof.
  unfold hasDuplicate. cbv zeta.
  apply (foldl_length _ (length (m_vecVertices m))); [|apply length_replicate].
  intros hd a Hn. rewrite markDuplicates_length. exact Hn.
Qed.

(** The flag [hasDuplicate[k]] of a vertex of the table is set exactly
    when some other vertex of the table passes the duplicate test with
    it. *)
Theorem hasDuplicate_iff m k :
  k < length (m_vecVertices m) ->
  hasDuplicate m !!! k = true <-> exists j, duplicateOf m k j.
Proof.
  intros Hk. split; [apply hasDuplicate_justified; exact Hk|].
  intros (j & Hj & Hne & Hclose).
  destruct (Nat.lt_total j k) as [Hlt|[Heq|Hgt]]; [|congruence|].
  - rewrite Nat.max_r, Nat.min_l in Hclose by lia.
    apply (hasDuplicate_marks m j k); [lia|exact Hclose].
  - rewrite Nat.max_l, Nat.min_r in Hclose by lia.
    apply (hasDuplicate_marks m k j); [lia|exact Hclose].
Qed.

(** ** [trianglesUsingVertex] *)

(** One step of the loop over the index buffer. *)
Definition recordUse (idx : list nat) (tuv : list (list nat)) (ct : nat)
  : list (list nat) :=
  alter (fun l => l ++ [ct / 3]) (idx !!! ct) tuv.

(** The positions of the index buffer, among [cts], that hold [v]. *)
Definition usesOf (idx : list nat) (v : nat) (cts : list nat) : list nat :=
  filter (fun ct => idx !!! ct = v) cts.

Lemma recordUse_fold idx v : forall cts tuv,
  v < length tuv ->
  foldl (recordUse idx) tuv cts !!! v
  = tuv !!! v ++ map (fun ct => ct / 3) (usesOf idx v cts).
Proof.
  induction cts as [|ct cts IH]; intros tuv Hv.
  - simpl. rewrite app_nil_r. reflexivity.
  - simpl. rewrite IH by (unfold recordUse; rewrite length_alter; exact Hv).
    unfold usesOf. rewrite filter_cons. unfold recordUse at 1.
    destruct (decide (idx !!! ct = v)) as [Heq|Hne].
    + rewrite Heq, list_lookup_total_alter_eq by exact Hv.
      simpl. rewrite <- app_assoc. reflexivity.
    + rewrite list_lookup_total_alter_ne by exact Hne. reflexivity.
Qed.

Lemma trianglesUsingVertex_lookup m v :
  v < length (m_vecVertices m) ->
  trianglesUsingVertex m !!! v
  = map (fun ct => ct / 3)
        (usesOf (m_vecTriangleIndices m) v
                (seq 0 (length (m_vecTriangleIndices m)))).
Proof.
  intros Hv. unfold trianglesUsingVertex. cbv zeta.
  change (foldl _ ?a ?l) with (foldl (recordUse (m_vecTriangleIndices m)) a l).
  rewrite recordUse_fold by (rewrite length_replicate; exact Hv).
  rewrite lookup_total_replicate_2 by exact Hv. reflexivity.
Qed.

Lemma usesOf_elem idx v cts ct :
  ct ∈ usesOf idx v cts <-> idx !!! ct = v /\ ct ∈ cts.
Proof.
  unfold usesOf. apply (list_elem_of_filter (fun ct0 => idx !!! ct0 = v) cts ct).
Qed.

(** The list [trianglesUsingVertex[v]] of a vertex of the table holds,
    in increasing order, the triangle number [ct / 3] of every position
    [ct] of the index buffer that holds [v]: once for every corner, so a
    triangle that repeats [v] is listed more than once, and the length of
    the list is the number of positions that hold [v]. *)
Theorem trianglesUsingVertex_uses m v :
  v < length (m_vecVertices m) ->
  let idx := m_vecTriangleIndices m in
  trianglesUsingVertex m !!! v
  = map (fun ct => ct / 3) (usesOf idx v (seq 0 (length idx)))
  /\ (forall tri, tri ∈ trianglesUsingVertex m !!! v
        <-> exists ct, ct < length idx /\ idx !!! ct = v /\ tri = ct / 3).
Proof.
  intros Hv idx. split; [apply trianglesUsingVertex_lookup; exact Hv|].
  intros tri. rewrite trianglesUsingVertex_lookup by exact Hv. fold idx.
  rewrite list_elem_of_fmap. split.
  - intros (ct & -> & Hct). apply usesOf_elem in Hct as [Huse Hct].
    apply elem_of_seq in Hct. exists ct. split; [lia|]. split; [exact Huse|reflexivity].
  - intros (ct & Hct & Huse & ->). exists ct. split; [reflexivity|].
    apply usesOf_elem. split; [exact Huse|]. apply elem_of_seq. lia.
Qed.

Lemma trianglesUsingVertex_length m :
  length (trianglesUsingVertex m) = length (m_vecVertices m).
Proof.
  unfold trianglesUsingVertex. cbv zeta.
  apply (foldl_length _ (length (m_vecVertices m))); [|apply length_replicate].
  intros tuv ct Hn. rewrite length_alter. exact Hn.
Qed.

Lemma usesOf_unused idx v cts :
  Forall (fun ct => ct < length idx) cts -> v ∉ idx -> usesOf idx v cts = [].
Proof.
  intros Hcts Hv. unfold usesOf.
  induction cts as [|ct cts IH]; [reflexivity|].
  inversion Hcts as [|? ? Hct Hrest]; subst.
  rewrite filter_cons. destruct (decide (idx !!! ct = v)) as [Heq|Hne].
  - exfalso. apply Hv. rewrite <- Heq.
    apply list_elem_of_lookup_total_2. exact Hct.
  - apply IH. exact Hrest.
Qed.

(** ** [noOfDifferentNormals] *)

Lemma countDifferentNormals_le sum : countDifferentNormals sum <= 3.
Proof.
  unfold countDifferentNormals.
  destruct (isSignificant (vecX sum)), (isSignificant (vecY sum)),
    (isSignificant (vecZ sum)); simpl; lia.
Qed.

Lemma noOfDifferentNormals_length m :
  length (noOfDifferentNormals m) = length (m_vecVertices m).
Proof.
  unfold noOfDifferentNormals. cbv zeta.
  rewrite length_map. apply trianglesUsingVertex_length.
Qed.

Lemma noOfDifferentNormals_le m v : noOfDifferentNormals m !!! v <= 3.
Proof.
  destruct (decide (v < length (m_vecVertices m))) as [Hv|Hv].
  - unfold noOfDifferentNormals. cbv zeta.
    rewrite lookup_total_map
      by (rewrite trianglesUsingVertex_length; exact Hv).
    apply countDifferentNormals_le.
  - rewrite list_lookup_total_alt, lookup_ge_None_2
      by (rewrite noOfDifferentNormals_length; lia).
    simpl. lia.
Qed.

(** For a vertex of the table that no index refers to, the sum of the
    normals is the zero vector and [noOfDifferentNormals] is 0: the value
    the [assert] after the count excludes. *)
Theorem noOfDifferentNormals_unused m v :
  v < length (m_vecVertices m) -> v ∉ m_vecTriangleIndices m ->
  trianglesUsingVertex m !!! v = [] /\ noOfDifferentNormals m !!! v = 0.
Proof.
  intros Hv Hunused.
  assert (trianglesUsingVertex m !!! v = []) as Hnone.
  { rewrite trianglesUsingVertex_lookup by exact Hv.
    rewrite usesOf_unused; [reflexivity| |exact Hunused].
    apply Forall_forall. intros ct Hct. apply elem_of_seq in Hct. lia. }
  split; [exact Hnone|]. unfold noOfDifferentNormals. cbv zeta.
  rewrite lookup_total_map
    by (rewrite trianglesUsingVertex_length; exact Hv).
  rewrite Hnone. reflexivity.
Qed.

(** ** What a pass may move *)

(** The source and the target of a collapse the checks accept. *)
Definition compatible m (v0 v1 : nat) : Prop :=
  material (m_vecVertices m !!! v0) = material (m_vecVertices m !!! v1)
  /\ noOfDifferentNormals m !!! v0 < 3
  /\ noOfDifferentNormals m !!! v0 <= noOfDifferentNormals m !!! v1
  /\ hasDuplicate m !!! v0 = false
  /\ ~ outsideRegion m v0.

Lemma positionMaterialChecks_compatible m mapper v0 v1 :
  positionMaterialChecks faceFlipTest m mapper v0 v1 = true ->
  compatible m v0 v1.
Proof.
  unfold positionMaterialChecks, compatible, outsideRegion. cbv zeta.
  destruct (bool_decide (material _ <> material _)) eqn:Hmat; [discriminate|].
  destruct (bool_decide (noOfDifferentNormals m !!! v0 = 3)) eqn:H3;
    [discriminate|].
  destruct (hasDuplicate m !!! v0) eqn:Hdup; [discriminate|].
  destruct (bool_decide (noOfDifferentNormals m !!! v1
                         < noOfDifferentNormals m !!! v0)) eqn:Hlt;
    [discriminate|].
  destruct (containsPoint _ _) eqn:Hin; [|discriminate].
  intros _.
  apply bool_decide_eq_false in Hmat, H3, Hlt.
  pose proof (noOfDifferentNormals_le m v0).
  split; [destruct (decide (material (m_vecVertices m !!! v0)
                            = material (m_vecVertices m !!! v1)));
          [assumption|contradiction]|].
  split; [lia|]. split; [lia|]. split; [reflexivity|discriminate].
Qed.

(** Every vertex a pass maps onto another one has the material of its
    target, fewer than three significant normal components and no more of
    them than its target, no duplicate, and lies inside the region of the
    mesh; so the index rewrite of a pass that has a result leaves the
    material at every position of the index buffer as it was. *)
Theorem pass_moves_compatible m v :
  wellFormed m -> v < length (m_vecVertices m) ->
  let checks := positionMaterialChecks faceFlipTest in
  let target := vertexMapper (passTables checks m) !!! v in
  (target <> v -> compatible m v target)
  /\ (forall count m1,
        performDecimationPass checks m = Some (count, m1) ->
        map (fun i => material (m_vecVertices m !!! i))
            (m_vecTriangleIndices m1)
        = map (fun i => material (m_vecVertices m !!! i))
              (m_vecTriangleIndices m)).
Proof.
  intros Hwf Hv checks target.
  assert (forall i, i < length (m_vecVertices m) ->
            vertexMapper (passTables checks m) !!! i <> i ->
            compatible m i (vertexMapper (passTables checks m) !!! i))
    as Hmoved.
  { apply (passTables_accepted checks (compatible m) m); [|exact Hwf].
    intros mapper v0 v1. apply positionMaterialChecks_compatible. }
  split; [apply Hmoved; exact Hv|].
  intros count m1 Hpass. rewrite performDecimationPass_eq in Hpass.
  destruct (passHasResult m); [|discriminate].
  injection Hpass as _ <-. unfold passResult. cbv zeta. simpl.
  destruct (0 <? _); [|reflexivity].
  rewrite map_map. apply map_ext_in. intros i Hi.
  apply list_elem_of_In in Hi.
  unfold wellFormed in Hwf. rewrite Forall_forall in Hwf.
  specialize (Hwf i Hi).
  destruct (decide (vertexMapper (passTables checks m) !!! i = i)) as [->|Hne];
    [reflexivity|].
  symmetry. apply (Hmoved i Hwf Hne).
Qed.

End TableFacts.


(** Vertex 0 of [duplicateMesh] is flagged, vertex 3 being its copy. *)
Lemma hasDuplicate_iff_witness :
  hasDuplicate duplicateMesh !!! 0 = true
  <-> exists j, duplicateOf duplicateMesh 0 j.
Proof. apply (hasDuplicate_iff duplicateMesh 0). simpl. lia. Defined.

(** Vertex 0 of the unit square is the first corner of the first
    triangle. *)
Lemma trianglesUsingVertex_uses_witness :
  trianglesUsingVertex flatQuadMesh !!! 0
  = map (fun ct => ct / 3)
        (usesOf (m_vecTriangleIndices flatQuadMesh) 0 (seq 0 6)).
Proof.
  apply (trianglesUsingVertex_uses flatQuadMesh 0 ltac:(simpl; lia)).
Defined.

(** No triangle of [duplicateMesh] uses vertex 3. *)
Lemma noOfDifferentNormals_unused_witness :
  trianglesUsingVertex duplicateMesh !!! 3 = []
  /\ noOfDifferentNormals duplicateMesh !!! 3 = 0.
Proof.
  apply (noOfDifferentNormals_unused duplicateMesh 3); [simpl; lia|].
  simpl. intros Hin.
  repeat (apply elem_of_cons in Hin as [Hin|Hin]; [lia|]).
  inversion Hin.
Defined.

(** The first pass over the unit square moves vertex 0 onto vertex 1. *)
Lemma pass_moves_compatible_witness :
  compatible flatQuadMesh 0 1.
Proof.
  pose proof (pass_moves_compatible cosineBelow09 flatQuadMesh 0
                flatQuadMesh_wellFormed ltac:(simpl; lia)) as [Hmoved _].
  assert (vertexMapper (passTables idealChecks flatQuadMesh) !!! 0 = 1) as Ht
    by (vm_compute; reflexivity).
  unfold idealChecks in Ht. rewrite Ht in Hmoved. apply Hmoved. lia.
Defined.


(** Decimating [degenerateMesh]: the degenerate triangle goes, the three
    vertices and the other triangle stay. *)
Lemma execute_result_witness :
  exists m',
    execute idealChecks 5 degenerateMesh = Some m'
    /\ length (m_vecVertices m') = 3
    /\ m_vecVertices m' `sublist_of` m_vecVertices degenerateMesh
    /\ length (m_vecTriangleIndices m') <= 6
    /\ wellFormed m'
    /\ noDegenerate (m_vecTriangleIndices m')
    /\ m_vecLodRecords m' = [mkLod 0 (length (m_vecTriangleIndices m'))].
Proof.
  destruct (execute idealChecks 5 degenerateMesh) as [m'|] eqn:Hrun;
    [|vm_compute in Hrun; discriminate].
  exists m'. split; [reflexivity|].
  pose proof (execute_result idealChecks 5 degenerateMesh m'
                degenerateMesh_wellFormed Hrun)
    as (Hsub & Hlen & Hwf & Hclean & _ & Hlod).
  split; [vm_compute in Hrun; injection Hrun as <-; reflexivity|].
  repeat split; assumption.
Defined.

End DecimatorTableFacts.

(** * Facts about the parts for vertices with normals and flags *)

Module DecimatorNormalFacts.
Import Decimator DecimatorFacts DecimatorPassFacts DecimatorNormal.

(** ** [isSubset] *)

Lemma isSubsetLoop_spec a b : forall n ct,
  isSubsetLoop n ct a b = true
  <-> forall k, (ct <= k < ct + Z.of_nat n)%Z ->
        Z.testbit a k = true -> Z.testbit b k = true.
Proof.
  induction n as [|n IH]; intros ct.
  - simpl. split; [intros _ k Hk; lia|reflexivity].
  - cbn [isSubsetLoop].
    destruct (Z.testbit a ct && negb (Z.testbit b ct)) eqn:Hhere.
    + split; [discriminate|]. intros Hall.
      apply andb_true_iff in Hhere as [Ha Hb].
      rewrite (Hall ct ltac:(lia) Ha) in Hb. discriminate.
    + rewrite IH. split.
      * intros Hrest k Hk Ha.
        destruct (decide (k = ct)) as [->|Hne]; [|apply Hrest; [lia|exact Ha]].
        rewrite Ha in Hhere. simpl in Hhere.
        destruct (Z.testbit b ct); [reflexivity|discriminate].
      * intros Hall k Hk. apply Hall. lia.
Qed.

Lemma isSubset_bits a b :
  isSubset a b = true
  <-> forall ct, (1 <= ct < 7)%Z ->
        Z.testbit a ct = true -> Z.testbit b ct = true.
Proof. unfold isSubset. rewrite isSubsetLoop_spec. reflexivity. Qed.

(** [isSubset a b] holds exactly when every one of the bits 1 to 6 that
    is set in [a] is set in [b].  So it is reflexive and transitive, and
    bit 0 is never looked at: setting it in [a] and clearing it in [b]
    changes nothing. *)
Theorem isSubset_flags (a b c : Z) :
  (isSubset a b = true
   <-> forall ct, (1 <= ct < 7)%Z ->
         Z.testbit a ct = true -> Z.testbit b ct = true)
  /\ isSubset a a = true
  /\ (isSubset a b = true -> isSubset b c = true -> isSubset a c = true)
  /\ isSubset (Z.setbit a 0) (Z.clearbit b 0) = isSubset a b.
Proof.
  split; [apply isSubset_bits|]. split; [apply isSubset_bits; auto|].
  split.
  - rewrite !isSubset_bits. intros Hab Hbc ct Hct Ha. auto.
  - apply eq_true_iff_eq. rewrite !isSubset_bits.
    split; intros Hall ct Hct Ha.
    + specialize (Hall ct Hct).
      rewrite Z.setbit_neq, Z.clearbit_neq in Hall by lia. auto.
    + rewrite Z.setbit_neq in Ha by lia. rewrite Z.clearbit_neq by lia. auto.
Qed.

(** ** [countNoOfNeighboursUsingMaterial] *)

Lemma triangleAt_cons (a b c : nat) tl k :
  triangleAt (a :: b :: c :: tl) (S k) = triangleAt tl k.
Proof. unfold triangleAt. simpl. reflexivity. Qed.

Lemma triangles_seq idx :
  triangles idx = map (triangleAt idx) (seq 0 (length idx / 3)).
Proof.
  induction idx as [|a|a b|a b c tl IH] using triangle_ind;
    try reflexivity.
  change (length (a :: b :: c :: tl)) with (1 * 3 + length tl).
  rewrite Nat.div_add_l by lia.
  change (1 + length tl / 3) with (S (length tl / 3)).
  cbn [seq map triangles]. f_equal.
  rewrite <- seq_shift, map_map, IH.
  apply map_ext. intros k. symmetry. apply triangleAt_cons.
Qed.

Section NeighbourFacts.
Context {VertexType Material : Type}.
Context `{!EqDecision Material} `{!Inhabited VertexType}.
Variable getMaterial : VertexType -> Material.
Implicit Types (m : SurfaceMesh VertexType) (nv : list (gset nat)).

(** [u] is a corner of a triangle of which [v] is another corner (at
    another place of the triangle: in a triangle that repeats a vertex,
    that vertex is adjacent to itself). *)
Definition adjacent (idx : list nat) (v u : nat) : Prop :=
  Exists (fun t => (v, u) ∈ cornerPairs t) (triangles idx).

#[global] Instance adjacent_dec idx v u : Decision (adjacent idx v u).
Proof. unfold adjacent. apply Exists_dec. intros t. apply _. Defined.

Lemma insertNeighbour_lookup nv vu v x :
  v < length nv ->
  x ∈ insertNeighbour nv vu !!! v <-> x ∈ nv !!! v \/ vu = (v, x).
Proof.
  intros Hv. destruct vu as [v' u]. unfold insertNeighbour. simpl.
  rewrite list_lookup_total_alter.
  destruct (decide (v' = v /\ v' < length nv)) as [[-> _]|Hno].
  - rewrite elem_of_union, elem_of_singleton.
    split; [intros [->|Hx]; auto|intros [Hx|[= <-]]; auto].
  - split; [auto|]. intros [Hx|[= -> ->]]; [exact Hx|].
    exfalso. apply Hno. split; [reflexivity|exact Hv].
Qed.

Lemma insertNeighbour_length nv vu :
  length (insertNeighbour nv vu) = length nv.
Proof. unfold insertNeighbour. apply length_alter. Qed.

Lemma insertNeighbours_lookup v x : forall pairs nv,
  v < length nv ->
  x ∈ foldl insertNeighbour nv pairs !!! v
  <-> x ∈ nv !!! v \/ (v, x) ∈ pairs.
Proof.
  induction pairs as [|p pairs IH]; intros nv Hv.
  - simpl. rewrite elem_of_nil. tauto.
  - simpl. rewrite IH by (rewrite insertNeighbour_length; exact Hv).
    rewrite insertNeighbour_lookup by exact Hv.
    rewrite elem_of_cons. intuition congruence.
Qed.

Lemma insertNeighbours_length : forall pairs nv,
  length (foldl insertNeighbour nv pairs) = length nv.
Proof.
  induction pairs as [|p pairs IH]; intros nv; [reflexivity|].
  simpl. rewrite IH. apply insertNeighbour_length.
Qed.

Lemma addTriangles_lookup idx v x : forall cts nv,
  v < length nv ->
  x ∈ foldl (addTriangle idx) nv cts !!! v
  <-> x ∈ nv !!! v
      \/ Exists (fun t => (v, x) ∈ cornerPairs t) (map (triangleAt idx) cts).
Proof.
  induction cts as [|triCt cts IH]; intros nv Hv.
  - simpl. rewrite Exists_nil. tauto.
  - simpl. rewrite IH
      by (unfold addTriangle; rewrite insertNeighbours_length; exact Hv).
    unfold addTriangle at 1. rewrite insertNeighbours_lookup by exact Hv.
    rewrite Exists_cons. tauto.
Qed.

Lemma neighbouringVertices_adjacent m v x :
  v < length (m_vecVertices m) ->
  x ∈ neighbouringVertices m !!! v <-> adjacent (m_vecTriangleIndices m) v x.
Proof.
  intros Hv. unfold neighbouringVertices, adjacent. cbv zeta.
  rewrite addTriangles_lookup by (rewrite length_replicate; exact Hv).
  rewrite lookup_total_replicate_2 by exact Hv.
  rewrite <- triangles_seq, elem_of_empty. tauto.
Qed.

Lemma adjacent_sym idx v u : adjacent idx v u -> adjacent idx u v.
Proof.
  unfold adjacent. rewrite !Exists_exists.
  intros ([[a b] c] & Ht & Hp). exists (a, b, c). split; [exact Ht|].
  unfold cornerPairs in *.
  rewrite !elem_of_cons, elem_of_nil in Hp.
  rewrite !elem_of_cons, elem_of_nil.
  intuition congruence.
Qed.

Lemma adjacent_indices idx v u : adjacent idx v u -> v ∈ idx /\ u ∈ idx.
Proof.
  unfold adjacent. rewrite Exists_exists.
  intros ([[a b] c] & Ht & Hp).
  apply triangles_elem in Ht as (Ha & Hb & Hc).
  unfold cornerPairs in Hp. rewrite !elem_of_cons, elem_of_nil in Hp.
  intuition congruence.
Qed.

Lemma adjacent_self idx v :
  noDegenerate idx -> ~ adjacent idx v v.
Proof.
  intros Hclean. unfold adjacent. rewrite Exists_exists.
  intros ([[a b] c] & Ht & Hp). apply (Hclean _ Ht).
  unfold cornerPairs in Hp. rewrite !elem_of_cons, elem_of_nil in Hp.
  unfold degenerate. simpl. intuition congruence.
Qed.

(** The neighbours of [v] with the material of [v], among the vertices
    of the table. *)
Definition neighboursUsingMaterial m (v : nat) : list nat :=
  filter (fun u => getMaterial (m_vecVertices m !!! v)
                   = getMaterial (m_vecVertices m !!! u)
                   /\ adjacent (m_vecTriangleIndices m) v u)
         (seq 0 (length (m_vecVertices m))).

(** On a mesh whose indices are in range, the entry of
    [m_vecNoOfNeighboursUsingMaterial] for a vertex [v] of the table is
    the number of vertices with the material of [v] that share a triangle
    with [v], each counted once however many triangles they share.
    Adjacency is symmetric, and only a triangle that repeats [v] makes
    [v] its own neighbour. *)
Theorem neighbour_count m v :
  wellFormed m -> v < length (m_vecVertices m) ->
  let idx := m_vecTriangleIndices m in
  countNoOfNeighboursUsingMaterial getMaterial m !!! v
  = length (neighboursUsingMaterial m v)
  /\ (forall u, adjacent idx v u -> adjacent idx u v)
  /\ (noDegenerate idx -> v ∉ neighboursUsingMaterial m v).
Proof.
  intros Hwf Hv idx. split; [|split].
  - unfold countNoOfNeighboursUsingMaterial. cbv zeta.
    rewrite (lookup_total_map _ (seq 0 (length (m_vecVertices m))) v)
      by (rewrite length_seq; exact Hv).
    rewrite lookup_total_seq_lt by exact Hv. simpl.
    apply Permutation_length. apply NoDup_Permutation.
    + apply NoDup_filter, NoDup_elements.
    + apply NoDup_filter, NoDup_seq.
    + intros u. unfold neighboursUsingMaterial.
      rewrite !list_elem_of_filter, elem_of_elements, elem_of_seq.
      rewrite neighbouringVertices_adjacent by exact Hv.
      split; [|tauto]. intros [Hmat Hadj].
      split; [tauto|]. split; [lia|]. simpl.
      apply adjacent_indices in Hadj as [_ Hu].
      unfold wellFormed in Hwf. rewrite Forall_forall in Hwf.
      apply Hwf. exact Hu.
  - intros u. apply adjacent_sym.
  - intros Hclean Hin. unfold neighboursUsingMaterial in Hin.
    apply list_elem_of_filter in Hin as [[_ Hadj] _].
    exact (adjacent_self idx v Hclean Hadj).
Qed.

End NeighbourFacts.

(** ** What a pass over vertices with normals and flags may move *)

Section NormalFacts.
Context {VertexType Material : Type}.
Context `{!EqDecision Material} `{!Inhabited VertexType}.
Variable getMaterial : VertexType -> Material.
Variable getPosition : VertexType -> Vector3DFloat.
Variable getNormal : VertexType -> Vector3DFloat.
Variable isOnMaterialEdge : VertexType -> bool.
Variable m_bFlags : VertexType -> Z.
Variable movementAlong : Vector3DFloat -> Vector3DFloat -> bool.
Variable faceFlipTest : Vector3DFloat -> Vector3DFloat -> bool.
Implicit Types (m : SurfaceMesh VertexType).

Definition normalChecks (neighbours : list nat) :=
  positionMaterialNormalChecks getMaterial getPosition getNormal
    isOnMaterialEdge m_bFlags movementAlong faceFlipTest neighbours.

(** The source and the target of a collapse the checks accept. *)
Definition collapsible (neighbours : list nat) m (v0 v1 : nat) : Prop :=
  let vs := m_vecVertices m in
  getMaterial (vs !!! v0) = getMaterial (vs !!! v1)
  /\ (forall ct, (1 <= ct < 7)%Z ->
        Z.testbit (m_bFlags (vs !!! v0)) ct = true ->
        Z.testbit (m_bFlags (vs !!! v1)) ct = true)
  /\ (isOnMaterialEdge (vs !!! v0) = true
      \/ isOnMaterialEdge (vs !!! v1) = true ->
      neighbours !!! v0 = 4 /\ neighbours !!! v1 = 4
      /\ movementValid movementAlong
           (vsub (getPosition (vs !!! v1)) (getPosition (vs !!! v0))) = true)
  /\ (m_bFlags (vs !!! v0) <> 0%Z \/ m_bFlags (vs !!! v1) <> 0%Z ->
      (999 # 1000 < dot (getNormal (vs !!! v0)) (getNormal (vs !!! v1)))%Q)
  /\ (999 # 1000 <= dot (getNormal (vs !!! v0)) (getNormal (vs !!! v1)))%Q.

Lemma Qltb_lt a b : Qltb a b = true <-> (a < b)%Q.
Proof.
  unfold Qltb. rewrite negb_true_iff.
  destruct (Qle_bool b a) eqn:E.
  - apply Qle_bool_iff in E. split; [discriminate|]. intros Hlt. lra.
  - split; [|reflexivity]. intros _.
    destruct (Qlt_le_dec a b) as [Hlt|Hle]; [exact Hlt|].
    apply Qle_bool_iff in Hle. congruence.
Qed.

Lemma Qltb_ge a b : Qltb a b = false <-> (b <= a)%Q.
Proof.
  unfold Qltb. rewrite negb_false_iff. apply Qle_bool_iff.
Qed.

Lemma any_false flags : any flags = false <-> flags = 0%Z.
Proof. unfold any. rewrite negb_false_iff. apply Z.eqb_eq. Qed.

Lemma any_true flags : flags <> 0%Z -> any flags = true.
Proof.
  intros Hne. unfold any. apply negb_true_iff. apply Z.eqb_neq. exact Hne.
Qed.

Lemma normalChecks_collapsible neighbours m mapper v0 v1 :
  normalChecks neighbours m mapper v0 v1 = true ->
  collapsible neighbours m v0 v1.
Proof.
  unfold normalChecks, positionMaterialNormalChecks, collapsible. cbv zeta.
  set (vs := m_vecVertices m).
  destruct (bool_decide (getMaterial _ <> getMaterial _)) eqn:Hmat;
    [discriminate|].
  destruct ((isOnMaterialEdge (vs !!! v0) || isOnMaterialEdge (vs !!! v1))
            && negb (materialEdgePass getPosition movementAlong neighbours m v0 v1))
    eqn:Hedge; [discriminate|].
  destruct ((any (m_bFlags (vs !!! v0)) || any (m_bFlags (vs !!! v1)))
            && negb (collapseGeometryEdgePair getNormal m_bFlags m v0 v1))
    eqn:Hgeo; [discriminate|].
  destruct (Qltb _ fMinDotProductForCollapse) eqn:Hdot; [discriminate|].
  intros _.
  apply bool_decide_eq_false in Hmat.
  apply Qltb_ge in Hdot. unfold fMinDotProductForCollapse in Hdot.
  split; [destruct (decide (getMaterial (vs !!! v0) = getMaterial (vs !!! v1)));
          [assumption|contradiction]|].
  split; [|split; [|split; [|exact Hdot]]].
  - destruct (any (m_bFlags (vs !!! v0)) || any (m_bFlags (vs !!! v1)))
      eqn:Hany.
    + simpl in Hgeo. apply negb_false_iff in Hgeo.
      unfold collapseGeometryEdgePair in Hgeo. cbv zeta in Hgeo.
      apply andb_true_iff in Hgeo as [Hsub _].
      apply isSubset_bits. exact Hsub.
    + apply orb_false_iff in Hany as [H0 _]. apply any_false in H0.
      fold vs. rewrite H0. intros ct _ Hbit.
      rewrite Z.bits_0 in Hbit. discriminate.
  - intros Hon.
    assert (isOnMaterialEdge (vs !!! v0) || isOnMaterialEdge (vs !!! v1)
            = true) as Hor by (apply orb_true_iff; exact Hon).
    rewrite Hor in Hedge. simpl in Hedge. apply negb_false_iff in Hedge.
    unfold materialEdgePass in Hedge. cbv zeta in Hedge.
    apply andb_true_iff in Hedge as [Hmove Hmatch].
    apply andb_true_iff in Hmatch as [Hsame Hfour].
    apply bool_decide_eq_true in Hsame, Hfour.
    split; [exact Hfour|]. split; [congruence|exact Hmove].
  - intros Hflags.
    assert (any (m_bFlags (vs !!! v0)) || any (m_bFlags (vs !!! v1)) = true)
      as Hor.
    { apply orb_true_iff.
      destruct Hflags as [Hf|Hf]; [left|right]; apply any_true; exact Hf. }
    rewrite Hor in Hgeo. simpl in Hgeo. apply negb_false_iff in Hgeo.
    unfold collapseGeometryEdgePair in Hgeo. cbv zeta in Hgeo.
    apply andb_true_iff in Hgeo as [_ Hn]. apply Qltb_lt in Hn. exact Hn.
Qed.

(** Every vertex a pass maps onto another one has the material of its
    target and every flag among bits 1 to 6 that is set on it is set on
    its target; if either of the two is on a material edge, both have
    four neighbours of their material in the table handed in and the
    movement is along an axis; if either has any flag set, the normals
    have a dot product above 0.999, and never one below 0.999. *)
Theorem normal_pass_moves_collapsible neighbours m v :
  wellFormed m -> v < length (m_vecVertices m) ->
  let target := vertexMapper (passTables (normalChecks neighbours) m) !!! v in
  target <> v -> collapsible neighbours m v target.
Proof.
  intros Hwf Hv target Hmoved.
  apply (passTables_accepted (normalChecks neighbours)
           (collapsible neighbours m) m); [|exact Hwf|exact Hv|exact Hmoved].
  intros mapper v0 v1. apply normalChecks_collapsible.
Qed.

End NormalFacts.

(** ** A sample mesh *)

(** A vertex with position, normal, material and flags; bit 0 of the
    flags marks a vertex on a material edge. *)
Record FlaggedVertex : Type := mkFlagged {
  fPosition : Vector3DFloat;
  fNormal : Vector3DFloat;
  fMaterial : Z;
  fFlags : Z
}.

#[global] Instance FlaggedVertex_inhabited : Inhabited FlaggedVertex :=
  populate (mkFlagged (mkVec 0 0 0) (mkVec 0 0 0) 0 0).

Definition flaggedAt (x y : Z) (flags : Z) : FlaggedVertex :=
  mkFlagged (mkVec (inject_Z x) (inject_Z y) 1) (mkVec 0 0 1) 1 flags.

(** A square of side 2 in the plane z = 1, as a fan of eight triangles
    around its centre; the vertices on its rim carry the flags of the
    sides they lie on. *)
Definition fanMesh : SurfaceMesh FlaggedVertex :=
  mkSurfaceMesh
    [flaggedAt 1 1 0;
     flaggedAt 0 0 10; flaggedAt 1 0 8; flaggedAt 2 0 12;
     flaggedAt 2 1 4; flaggedAt 2 2 36; flaggedAt 1 2 32;
     flaggedAt 0 2 34; flaggedAt 0 1 2]
    [0; 1; 2;  0; 2; 3;  0; 3; 4;  0; 4; 5;
     0; 5; 6;  0; 6; 7;  0; 7; 8;  0; 8; 1]
    sampleRegion [].

Definition fanChecks (neighbours : list nat) :=
  normalChecks fMaterial fPosition fNormal
    (fun v => Z.testbit (fFlags v) 0) fFlags cosineAbove0999 cosineBelow09
    neighbours.

Definition fanNeighbours : list nat :=
  countNoOfNeighboursUsingMaterial fMaterial fanMesh.

Lemma fanMesh_wellFormed : wellFormed fanMesh.
Proof. unfold wellFormed. simpl. repeat (constructor; [lia|]). constructor. Qed.

(** The centre of the fan has the eight rim vertices as neighbours. *)
Lemma neighbour_count_witness :
  fanNeighbours !!! 0 = length (neighboursUsingMaterial fMaterial fanMesh 0).
Proof.
  apply (neighbour_count fMaterial fanMesh 0 fanMesh_wellFormed).
  simpl. lia.
Defined.

(** The first pass over the fan moves its centre onto the corner 1. *)
Lemma normal_pass_moves_collapsible_witness :
  collapsible fMaterial fPosition fNormal (fun v => Z.testbit (fFlags v) 0)
    fFlags cosineAbove0999 fanNeighbours fanMesh 0 1.
Proof.
  assert (vertexMapper (passTables (fanChecks fanNeighbours) fanMesh) !!! 0 = 1)
    as Ht by (vm_compute; reflexivity).
  pose proof (normal_pass_moves_collapsible fMaterial fPosition fNormal
                (fun v => Z.testbit (fFlags v) 0) fFlags cosineAbove0999
                cosineBelow09 fanNeighbours fanMesh 0 fanMesh_wellFormed
                ltac:(simpl; lia)) as Hmoved.
  cbv zeta in Hmoved. unfold fanChecks in Ht. rewrite Ht in Hmoved.
  apply Hmoved. lia.
Defined.

End DecimatorNormalFacts.

(** * Properties of the Ogre front end *)

Module OgreFacts.
Import Ogre.

Section VectorOrder.
Import IntegralVector3.
Local Open Scope Z_scope.
Implicit Types (a b c : IntegralVector3.t).

Lemma operator_eq_iff a b : operator_eq a b = true <-> a = b.
Proof.
  unfold operator_eq. rewrite !andb_true_iff, !Z.eqb_eq.
  destruct a, b; simpl. split.
  - intros [[-> ->] ->]. reflexivity.
  - intros [= -> -> ->]. auto.
Qed.

(** [operator<] as the lexicographic order on the three components. *)
Lemma operator_lt_iff a b :
  operator_lt a b = true
  <-> x a < x b
      \/ (x a = x b /\ y a < y b)
      \/ (x a = x b /\ y a = y b /\ z a < z b).
Proof.
  unfold operator_lt.
  destruct (Z.eqb_spec (x a) (x b)) as [Hx|Hx]; simpl.
  - destruct (Z.eqb_spec (y a) (y b)) as [Hy|Hy]; simpl.
    + destruct (Z.eqb_spec (z a) (z b)) as [Hz|Hz]; simpl.
      * split; [discriminate|lia].
      * rewrite Z.ltb_lt. lia.
    + rewrite Z.ltb_lt. lia.
  - rewrite Z.ltb_lt. lia.
Qed.

(** [operator<] is a strict total order whose equality is [operator==]:
    it is irreflexive and transitive, and of [a < b], [a == b], [b < a]
    exactly one holds. *)
Theorem operator_lt_strict_total_order :
  (forall a, operator_lt a a = false)
  /\ (forall a b c, operator_lt a b && operator_lt b c = true ->
        operator_lt a c = true)
  /\ (forall a b,
        match operator_lt a b, operator_eq a b, operator_lt b a with
        | true, false, false | false, true, false | false, false, true => True
        | _, _, _ => False
        end)
  /\ (forall a b, operator_eq a b = true <-> a = b).
Proof.
  refine (conj _ (conj _ (conj _ _))).
  - intros a. destruct (operator_lt a a) eqn:E; [|reflexivity].
    apply operator_lt_iff in E. lia.
  - intros a b c Hab. apply andb_true_iff in Hab as [Hab Hbc].
    apply operator_lt_iff in Hab, Hbc. apply operator_lt_iff. lia.
  - intros a b.
    pose proof (operator_lt_iff a b) as Hab.
    pose proof (operator_lt_iff b a) as Hba.
    pose proof (operator_eq_iff a b) as Heq.
    revert Hab Hba Heq.
    generalize (operator_lt a b) (operator_eq a b) (operator_lt b a).
    intros lt_ab eq_ab lt_ba Hab Hba Heq.
    assert (a = b <-> x a = x b /\ y a = y b /\ z a = z b) as Hcomp.
    { destruct a, b; simpl. split; [intros [= -> -> ->]; auto|].
      intros (-> & -> & ->). reflexivity. }
    rewrite Hcomp in Heq.
    destruct lt_ab, eq_ab, lt_ba; try exact I; exfalso;
      repeat match goal with
      | H : true = true <-> _ |- _ => apply proj1 in H; specialize (H eq_refl)
      | H : false = true <-> ?P |- _ =>
          assert (~ P) by (intros HP; apply H in HP; discriminate); clear H
      end; lia.
  - apply operator_eq_iff.
Qed.

End VectorOrder.

Section SurfaceFacts.
Import Surface.
Local Open Scope Q_scope.
Implicit Types (p q : Vector3) (box : AxisAlignedBox).

(** [p] lies in the closed box. *)
Definition inBox box p : Prop :=
  x (getMinimum box) <= x p <= x (getMaximum box)
  /\ y (getMinimum box) <= y p <= y (getMaximum box)
  /\ z (getMinimum box) <= z p <= z (getMaximum box).

(** Every face of the box passes through one of the points of [ps]. *)
Definition touchesBox box (ps : list Vector3) : Prop :=
  (exists p, p ∈ ps /\ x p = x (getMinimum box))
  /\ (exists p, p ∈ ps /\ y p = y (getMinimum box))
  /\ (exists p, p ∈ ps /\ z p = z (getMinimum box))
  /\ (exists p, p ∈ ps /\ x p = x (getMaximum box))
  /\ (exists p, p ∈ ps /\ y p = y (getMaximum box))
  /\ (exists p, p ∈ ps /\ z p = z (getMaximum box)).

Lemma Qltb_true a b : Qltb a b = true <-> a < b.
Proof.
  unfold Qltb. rewrite negb_true_iff. split.
  - intros E. apply Qnot_le_lt. intros Hle.
    apply Qle_bool_iff in Hle. congruence.
  - intros Hlt. destruct (Qle_bool b a) eqn:E; [|reflexivity].
    apply Qle_bool_iff in E. lra.
Qed.

Lemma Qltb_false a b : Qltb a b = false <-> b <= a.
Proof.
  unfold Qltb. rewrite negb_false_iff. apply Qle_bool_iff.
Qed.

Lemma Qmin_pick a b :
  (if Qltb a b then a else b) <= a /\ (if Qltb a b then a else b) <= b.
Proof.
  destruct (Qltb a b) eqn:E;
    [apply Qltb_true in E|apply Qltb_false in E]; lra.
Qed.

Lemma Qmax_pick a b :
  a <= (if Qltb b a then a else b) /\ b <= (if Qltb b a then a else b).
Proof.
  destruct (Qltb b a) eqn:E;
    [apply Qltb_true in E|apply Qltb_false in E]; lra.
Qed.

(** One step of the loop keeps what is in the box and takes the new
    point in. *)
Lemma growBox_encloses box p :
  inBox (growBox box p) p
  /\ (forall q, inBox box q -> inBox (growBox box p) q).
Proof.
  unfold inBox, growBox. cbv zeta. simpl.
  pose proof (Qmin_pick (x p) (x (getMinimum box))).
  pose proof (Qmin_pick (y p) (y (getMinimum box))).
  pose proof (Qmin_pick (z p) (z (getMinimum box))).
  pose proof (Qmax_pick (x p) (x (getMaximum box))).
  pose proof (Qmax_pick (y p) (y (getMaximum box))).
  pose proof (Qmax_pick (z p) (z (getMaximum box))).
  split; [lra|]. intros q Hq. lra.
Qed.

Lemma growBox_touches box p ps :
  touchesBox box ps -> touchesBox (growBox box p) (p :: ps).
Proof.
  intros (H1 & H2 & H3 & H4 & H5 & H6).
  unfold touchesBox, growBox. cbv zeta. simpl.
  assert (forall (f : Vector3 -> Q) (b : bool) (c : Q),
            (exists q, q ∈ ps /\ f q = c) ->
            exists q, q ∈ p :: ps /\ f q = if b then f p else c) as Hpick.
  { intros f b c (q & Hq & Hf). destruct b.
    - exists p. split; [left|reflexivity].
    - exists q. split; [right; exact Hq|exact Hf]. }
  repeat split; apply Hpick; assumption.
Qed.

Lemma touchesBox_mono box ps ps' :
  (forall p, p ∈ ps -> p ∈ ps') -> touchesBox box ps -> touchesBox box ps'.
Proof.
  intros Hsub (H1 & H2 & H3 & H4 & H5 & H6).
  repeat split;
    match goal with
    | H : exists p, p ∈ ps /\ ?f p = ?c |- exists p, p ∈ ps' /\ ?f p = ?c =>
        destruct H as (q & Hq & Hf); exists q; split; [apply Hsub, Hq|exact Hf]
    end.
Qed.

Lemma foldl_growBox_encloses : forall ps box,
  (forall q, inBox box q -> inBox (foldl growBox box ps) q)
  /\ (forall p, p ∈ ps -> inBox (foldl growBox box ps) p).
Proof.
  induction ps as [|p ps IH]; intros box.
  - split; [auto|]. intros p Hp. inversion Hp.
  - simpl. destruct (IH (growBox box p)) as [Hkeep Hall].
    destruct (growBox_encloses box p) as [Hp Hbox].
    split; [auto|].
    intros q Hq. apply elem_of_cons in Hq as [->|Hq]; auto.
Qed.

Lemma foldl_growBox_touches : forall ps seen box,
  touchesBox box seen ->
  touchesBox (foldl growBox box ps) (ps ++ seen).
Proof.
  induction ps as [|p ps IH]; intros seen box Ht; [exact Ht|].
  simpl. eapply touchesBox_mono; [|apply (IH (p :: seen)), growBox_touches, Ht].
  intros q. simpl. rewrite elem_of_cons, !elem_of_app, elem_of_cons. tauto.
Qed.

(** The bounding box that [setGeometry] stores encloses the position of
    every vertex and is the smallest such box: each of its six faces
    passes through a vertex.  An empty vertex list has no first vertex
    to start from. *)
Theorem setGeometry_bounding_box verticesToSet indicesToSet :
  (verticesToSet = [] -> setGeometry verticesToSet indicesToSet = None)
  /\ (verticesToSet <> [] ->
      exists g, setGeometry verticesToSet indicesToSet = Some g
        /\ Forall (fun v => inBox (mBox g) (position v)) verticesToSet
        /\ touchesBox (mBox g) (map position verticesToSet)).
Proof.
  split; [intros ->; reflexivity|].
  destruct verticesToSet as [|first rest]; [congruence|]. intros _.
  eexists. split; [reflexivity|]. simpl mBox.
  set (ps := map position (first :: rest)).
  set (box0 := mkBox (position first) (position first)).
  split.
  - apply Forall_forall. intros v Hv.
    apply (proj2 (foldl_growBox_encloses ps box0)).
    apply (list_elem_of_fmap_2 position). exact Hv.
  - eapply touchesBox_mono;
      [|apply (foldl_growBox_touches ps [position first] box0)].
    + intros q. rewrite elem_of_app, list_elem_of_singleton.
      intros [Hq| ->]; [exact Hq|]. subst ps. simpl. left.
    + repeat split; exists (position first);
        (split; [apply list_elem_of_singleton; reflexivity|reflexivity]).
Qed.

Lemma setGeometry_fields verticesToSet indicesToSet g :
  setGeometry verticesToSet indicesToSet = Some g ->
  g = mkGeometry
        (length verticesToSet)
        (length indicesToSet * 3)%nat
        (length indicesToSet * 3 * 3)%nat
        (concat (map (fun v => [x (position v); y (position v); z (position v);
                                x (normal v); y (normal v); z (normal v)])
                     verticesToSet))
        (concat (map (fun t => [uint16 (v0 t); uint16 (v1 t); uint16 (v2 t)])
                     indicesToSet))
        (mBox g).
Proof.
  destruct verticesToSet as [|first rest]; [discriminate|].
  intros [= <-]. reflexivity.
Qed.

(** The buffers [setGeometry] fills: six numbers for every vertex, three
    16-bit indices for every triangle; the index buffer is created three
    times as large as the number of indices written. *)
Lemma setGeometry_buffers verticesToSet indicesToSet g :
  setGeometry verticesToSet indicesToSet = Some g ->
  length (vertexBuffer g) = (6 * vertexCount g)%nat
  /\ length (indexBuffer g) = indexCount g
  /\ indexBufferSize g = (3 * length (indexBuffer g))%nat
  /\ Forall (fun i => (0 <= i < 65536)%Z) (indexBuffer g).
Proof.
  intros Hg. apply setGeometry_fields in Hg. rewrite Hg.
  cbn [vertexBuffer indexBuffer vertexCount indexCount indexBufferSize].
  clear Hg.
  assert (forall (A B : Type) (f : A -> list B) (k : nat) (l : list A),
            (forall a, length (f a) = k) ->
            length (concat (map f l)) = (k * length l)%nat) as Hlen.
  { intros A B f k l Hf. induction l as [|a l IH]; [simpl; lia|].
    simpl. rewrite length_app, Hf, IH. lia. }
  split; [apply Hlen; reflexivity|].
  split; [rewrite (Hlen _ _ _ 3%nat) by reflexivity; lia|].
  split; [rewrite (Hlen _ _ _ 3%nat) by reflexivity; lia|].
  apply Forall_forall. intros i Hi.
  apply list_elem_of_In, in_concat in Hi as (l & Hl & Hi).
  apply in_map_iff in Hl as (t & <- & _).
  assert (forall k, (0 <= uint16 k < 65536)%Z) as Hr
    by (intros k; unfold uint16; apply Z.mod_pos_bound; lia).
  simpl in Hi. destruct Hi as [<-|[<-|[<-|[]]]]; apply Hr.
Qed.

End SurfaceFacts.

(** ** The view depth under rounding *)

Section ViewDepthFacts.
Import Surface.
Local Open Scope Q_scope.
Implicit Types (p : Vector3) (box : AxisAlignedBox).

(** The rounding of the format: monotone, as every rounding mode is,
    and exact on zero. *)
Variable round : Q -> Q.
Hypothesis round_monotone : forall a b, a <= b -> round a <= round b.
Hypothesis round_zero : round 0 == 0.

(** The components of [p] are numbers of the format. *)
Definition representable p : Prop :=
  round (x p) == x p /\ round (y p) == y p /\ round (z p) == z p.

Lemma round_nonpositive a : a <= 0 -> round a <= 0.
Proof. intros Ha. pose proof (round_monotone a 0 Ha). lra. Qed.

Lemma round_nonnegative a : 0 <= a -> 0 <= round a.
Proof. intros Ha. pose proof (round_monotone 0 a Ha). lra. Qed.

(** One component of [((vMin - vMax) * 0.5) + vMin]. *)
Lemma component_before (lo hi : Q) :
  round lo == lo -> lo <= hi ->
  round (round (round (lo - hi) * (1 # 2)) + lo) <= lo.
Proof.
  intros Hlo Hle.
  assert (round (lo - hi) <= 0) as Hd by (apply round_nonpositive; lra).
  assert (round (round (lo - hi) * (1 # 2)) <= 0) as Hh
    by (apply round_nonpositive; lra).
  pose proof (round_monotone (round (round (lo - hi) * (1 # 2)) + lo) lo
                ltac:(lra)).
  lra.
Qed.

Lemma square_nonnegative (a : Q) : 0 <= a * a.
Proof.
  destruct (Qlt_le_dec a 0) as [Hneg|Hpos].
  - assert (a * a == (- a) * (- a)) as E by ring. rewrite E.
    apply Qmult_le_0_compat; lra.
  - apply Qmult_le_0_compat; assumption.
Qed.

(** Whatever the rounding, the point from which [getSquaredViewDepth]
    measures the distance of the camera has no component beyond that of
    the minimum corner of the box: it lies in the box only if it is the
    minimum corner itself, and along every axis on which the box has an
    extent it lies before the middle of the box.  The depth returned is
    not negative. *)
Theorem viewDepthPoint_before_minimum box :
  representable (getMinimum box) ->
  x (getMinimum box) <= x (getMaximum box) ->
  y (getMinimum box) <= y (getMaximum box) ->
  z (getMinimum box) <= z (getMaximum box) ->
  let vMid := viewDepthPoint round box in
  (x vMid <= x (getMinimum box)
   /\ y vMid <= y (getMinimum box)
   /\ z vMid <= z (getMinimum box))
  /\ (inBox box vMid ->
      x vMid == x (getMinimum box)
      /\ y vMid == y (getMinimum box)
      /\ z vMid == z (getMinimum box))
  /\ (x (getMinimum box) < x (getMaximum box) ->
      x vMid < (x (getMinimum box) + x (getMaximum box)) * (1 # 2))
  /\ (y (getMinimum box) < y (getMaximum box) ->
      y vMid < (y (getMinimum box) + y (getMaximum box)) * (1 # 2))
  /\ (z (getMinimum box) < z (getMaximum box) ->
      z vMid < (z (getMinimum box) + z (getMaximum box)) * (1 # 2))
  /\ (forall cam, 0 <= getSquaredViewDepth round box cam).
Proof.
  intros (Hrx & Hry & Hrz) Hx Hy Hz vMid.
  assert (x vMid <= x (getMinimum box)) as Hbx
    by (apply component_before; assumption).
  assert (y vMid <= y (getMinimum box)) as Hby
    by (apply component_before; assumption).
  assert (z vMid <= z (getMinimum box)) as Hbz
    by (apply component_before; assumption).
  split; [repeat split; assumption|].
  split; [intros (H1 & H2 & H3); repeat split; lra|].
  split; [intros Hlt; lra|]. split; [intros Hlt; lra|].
  split; [intros Hlt; lra|].
  intros cam. unfold getSquaredViewDepth, squaredLength. cbv zeta.
  assert (forall a b : Q, 0 <= a -> 0 <= b -> 0 <= a + b) as Hsum
    by (intros a b Ha Hb; lra).
  apply round_nonnegative, Hsum; [apply round_nonnegative, Hsum|];
    apply round_nonnegative, square_nonnegative.
Qed.

End ViewDepthFacts.

(** Rounding to the nearest integer, halves upwards: a format without
    fractional digits. *)
Definition roundToInteger (a : Q) : Q := inject_Z (Qfloor (a + (1 # 2))).

Lemma roundToInteger_monotone (a b : Q) :
  (a <= b)%Q -> (roundToInteger a <= roundToInteger b)%Q.
Proof.
  intros Hle. unfold roundToInteger. rewrite <- Zle_Qle.
  apply Qfloor_resp_le. lra.
Qed.

Lemma roundToInteger_zero : (roundToInteger 0 == 0)%Q.
Proof. reflexivity. Qed.

(** The unit cube. *)
Definition unitBox : Surface.AxisAlignedBox :=
  Surface.mkBox (Surface.mkVector3 0 0 0) (Surface.mkVector3 1 1 1).

(** In the format without fractional digits the view depth of the unit
    cube is measured from its minimum corner: [-1 * 0.5] rounds to 0. *)
Lemma viewDepthPoint_before_minimum_witness :
  Surface.viewDepthPoint roundToInteger unitBox = Surface.mkVector3 0 0 0
  /\ (Surface.x (Surface.viewDepthPoint roundToInteger unitBox) <= 0)%Q
  /\ (Surface.x (Surface.viewDepthPoint roundToInteger unitBox)
      < (0 + 1) * (1 # 2))%Q
  /\ (forall cam,
        (0 <= Surface.getSquaredViewDepth roundToInteger unitBox cam)%Q).
Proof.
  assert ((0 <= 1)%Q) as Hle by (apply Qle_bool_iff; reflexivity).
  assert ((0 < 1)%Q) as Hlt by reflexivity.
  assert (representable roundToInteger (Surface.getMinimum unitBox)) as Hrep
    by (repeat split; reflexivity).
  pose proof (viewDepthPoint_before_minimum roundToInteger
                roundToInteger_monotone roundToInteger_zero unitBox
                Hrep Hle Hle Hle)
    as ((Hbx & _ & _) & _ & Hmid & _ & _ & Hdepth).
  split; [vm_compute; reflexivity|]. split; [exact Hbx|].
  split; [exact (Hmid Hlt)|exact Hdepth].
Defined.

End OgreFacts.
